(** * xNES (Exponential Natural Evolution Strategies) of pagmo

    A shallow embedding of [pagmo::xnes] (include/pagmo/algorithms/xnes.hpp):
    the constructor, the [evolve] method with its generation loop, and the
    accessors, followed by the properties of the written specification.

    Conventions of the embedding.
    - A C++ [double] is a real number of [R]; arithmetic is exact, so
      rounding, infinities and NaN are outside the model.
    - [unsigned int] and the size types are [nat]; the model covers
      generation budgets below [UINT_MAX], for which the loop counter
      [gen] never wraps.
    - [Eigen::VectorXd] is a list of reals and [Eigen::MatrixXd] a list of
      rows.  Reads are [nth] with default [0]; a write out of range leaves
      the container as it is.
    - The mutable members ([sigma], [mean], [A], [m_e], [m_log]) are fields
      of the record [xnes]; [evolve] returns the instance after the call
      together with either the exception or the evolved population.
    - Screen output ([std::cout], [print]) is not modelled. *)

From Stdlib Require Import Reals List Lia Lra Arith Bool ClassicalEpsilon.
From Stdlib Require Import Permutation Sorted.
From Stdlib Require String.
Import String.StringSyntax.
Import ListNotations.

Local Open Scope R_scope.

(* ================================================================== *)
(** ** Dense vectors and matrices *)
(* ================================================================== *)

Module LinAlg.

Abbreviation vec := (list R) (only parsing).
Abbreviation mat := (list (list R)) (only parsing).

(** [l[i] = v] on a container. *)
Fixpoint upd {T : Type} (i : nat) (v : T) (l : list T) : list T :=
  match l, i with
  | [], _ => []
  | _ :: t, O => v :: t
  | h :: t, S i' => h :: upd i' v t
  end.

(** [Eigen::VectorXd::Zero(n)] *)
Definition vzero (n : nat) : vec := repeat 0 n.

(** scalar * vector *)
Definition vscale (c : R) (v : vec) : vec := map (Rmult c) v.

(** vector + vector *)
Fixpoint vadd (u v : vec) : vec :=
  match u, v with
  | a :: u', b :: v' => (a + b) :: vadd u' v'
  | _, _ => []
  end.

(** vector - vector *)
Fixpoint vsub (u v : vec) : vec :=
  match u, v with
  | a :: u', b :: v' => (a - b) :: vsub u' v'
  | _, _ => []
  end.

Fixpoint dot (u v : vec) : R :=
  match u, v with
  | a :: u', b :: v' => a * b + dot u' v'
  | _, _ => 0
  end.

(** [v.norm()], the Euclidean norm *)
Definition norm (v : vec) : R := sqrt (dot v v).

Definition mat_get (i j : nat) (M : mat) : R := nth j (nth i M []) 0.

(** [M(i, j) = v] *)
Definition mat_set (i j : nat) (v : R) (M : mat) : mat :=
  upd i (upd j v (nth i M [])) M.

(** [Eigen::MatrixXd::Identity(n, n)] *)
Definition identity (n : nat) : mat :=
  map (fun i => map (fun j => if Nat.eqb i j then 1 else 0) (seq 0 n))
      (seq 0 n).

(** scalar * matrix *)
Definition mscale (c : R) (M : mat) : mat := map (vscale c) M.

(** matrix + matrix *)
Fixpoint madd (M N : mat) : mat :=
  match M, N with
  | r :: M', s :: N' => vadd r s :: madd M' N'
  | _, _ => []
  end.

(** matrix - matrix *)
Fixpoint msub (M N : mat) : mat :=
  match M, N with
  | r :: M', s :: N' => vsub r s :: msub M' N'
  | _, _ => []
  end.

(** matrix * vector *)
Definition mat_vec (M : mat) (v : vec) : vec := map (fun row => dot row v) M.

Definition ncols (M : mat) : nat := length (hd [] M).
Definition col (j : nat) (M : mat) : vec := map (fun row => nth j row 0) M.

(** matrix * matrix *)
Definition mat_mul (M N : mat) : mat :=
  map (fun row => map (fun j => dot row (col j N)) (seq 0 (ncols N))) M.

(** [u * v.transpose()] *)
Definition outer (u v : vec) : mat := map (fun a => vscale a v) u.

(** [M.trace()] *)
Definition trace (M : mat) : R :=
  fold_right Rplus 0 (map (fun i => mat_get i i M) (seq 0 (length M))).

(** The matrix exponential [M.exp()] of Eigen's MatrixFunctions module, as
    the mathematical function: the entrywise limit of the partial sums of
    [sum_k M^k / k!]. *)
Fixpoint mpow (M : mat) (k : nat) : mat :=
  match k with
  | O => identity (length M)
  | S k' => mat_mul M (mpow M k')
  end.

Definition lim_seq (u : nat -> R) : R :=
  epsilon (inhabits 0) (fun l => Un_cv u l).

Definition mexp_partial (M : mat) (i j : nat) (n : nat) : R :=
  sum_f_R0 (fun k => / INR (fact k) * mat_get i j (mpow M k)) n.

Definition mexp (M : mat) : mat :=
  map (fun i => map (fun j => lim_seq (mexp_partial M i j))
                    (seq 0 (length M)))
      (seq 0 (length M)).

End LinAlg.
Export LinAlg.

(* ================================================================== *)
(** ** The random engine *)
(* ================================================================== *)

(** The pseudo-random engine [m_e] (a [std::mt19937]) with the three
    distributions [evolve] draws from.  The standard library's generator is
    kept abstract: a draw maps the engine state to a value and the next
    state (the cache of [std::normal_distribution] is part of that state);
    [std::uniform_real_distribution<double>(0., 1.)] returns a number of
    [[0, 1)]. *)
Class RandomEngine := {
  engine : Type;
  engine_seed : nat -> engine;
  normal_draw : engine -> R * engine;
  uniform_draw : engine -> R * engine;
  uniform_int_draw : engine -> nat * engine;
  uniform_draw_range : forall e, 0 <= fst (uniform_draw e) < 1
}.

(** A small engine to run the model on: the state counts the draws made;
    the normal draws walk through [-2, -1, 0, 1, ...] and every uniform
    draw is [1/2]. *)
#[export] Instance counter_engine : RandomEngine.
Proof.
  refine {| engine := nat;
            engine_seed := fun s => s;
            normal_draw := fun n => (INR n - 2, S n);
            uniform_draw := fun n => (1 / 2, S n);
            uniform_int_draw := fun n => (n, S n) |}.
  intros n; simpl; lra.
Defined.

(* ================================================================== *)
(** ** Problem and population *)
(* ================================================================== *)

(** Modelled from the spec: [pagmo::problem] (problem.hpp is not part of
    the sources).  The spec lists what a problem exposes: dimensionality,
    box bounds (two vectors of length D), objective count, constraint
    count, a stochasticity flag with a reseed method, and a cumulative
    evaluation counter.  The objective function maps the current seed and
    a decision vector to a fitness vector. *)
Record problem := {
  get_nx : nat;
  get_lb : vec;
  get_ub : vec;
  get_nf : nat;
  get_nc : nat;
  get_fevals : nat;
  is_stochastic : bool;
  get_prob_seed : nat;
  fitness : nat -> vec -> vec
}.

(** Modelled from the spec: the reseed method of a problem. *)
Definition set_seed_problem (s : nat) (p : problem) : problem :=
  {| get_nx := get_nx p; get_lb := get_lb p; get_ub := get_ub p;
     get_nf := get_nf p; get_nc := get_nc p; get_fevals := get_fevals p;
     is_stochastic := is_stochastic p; get_prob_seed := s;
     fitness := fitness p |}.

(** Modelled from the spec: an objective evaluation, counted by the
    cumulative evaluation counter. *)
Definition count_feval (p : problem) : problem :=
  {| get_nx := get_nx p; get_lb := get_lb p; get_ub := get_ub p;
     get_nf := get_nf p; get_nc := get_nc p;
     get_fevals := S (get_fevals p);
     is_stochastic := is_stochastic p; get_prob_seed := get_prob_seed p;
     fitness := fitness p |}.

(** Modelled from the spec: [pagmo::population] (population.hpp is not part
    of the sources).  The spec lists what a population exposes: size,
    per-individual decision and fitness vectors, best/worst index queries,
    and a mutator overwriting an individual's decision vector, which
    triggers a re-evaluation of its fitness. *)
Record population := {
  get_problem : problem;
  get_x : list vec;
  get_f : list vec
}.

(** Modelled from the spec: [pop.size()]. *)
Definition size (pop : population) : nat := length (get_x pop).

(** Modelled from the spec: [pop.set_x(i, x)], the mutator that overwrites
    the decision vector of individual [i] and triggers its re-evaluation:
    the fitness of [x] is evaluated by the problem, the evaluation is
    counted, and both vectors of the individual are overwritten. *)
Definition set_x (i : nat) (x : vec) (pop : population) : population :=
  let prob := get_problem pop in
  {| get_problem := count_feval prob;
     get_x := upd i x (get_x pop);
     get_f := upd i (fitness prob (get_prob_seed prob) x) (get_f pop) |}.

(** Modelled from the spec: [pop.get_problem().set_seed(s)]. *)
Definition set_problem_seed (s : nat) (pop : population) : population :=
  {| get_problem := set_seed_problem s (get_problem pop);
     get_x := get_x pop;
     get_f := get_f pop |}.

(** The first objective of individual [i], [pop.get_f()[i][0]]. *)
Definition f0 (pop : population) (i : nat) : R := nth 0 (nth i (get_f pop) []) 0.

(** Modelled from the spec: the scan behind the best/worst queries, the
    index of the first element of [vals] that [better] prefers to all the
    elements before it, starting from the candidate [(bi, bv)]. *)
Fixpoint select_idx (better : R -> R -> bool) (vals : list R)
         (i bi : nat) (bv : R) : nat :=
  match vals with
  | [] => bi
  | v :: vals' =>
      if better v bv then select_idx better vals' (S i) i v
      else select_idx better vals' (S i) bi bv
  end.

Definition Rltb (x y : R) : bool := if Rlt_dec x y then true else false.

(** Modelled from the spec: the best/worst index queries of a
    single-objective unconstrained population, the first individual of
    lowest, respectively highest, fitness. *)
Definition best_idx (pop : population) : nat :=
  match map (fun f => nth 0 f 0) (get_f pop) with
  | [] => O
  | v :: vals => select_idx Rltb vals 1 0 v
  end.

(** Modelled from the spec: the worst index query, see [best_idx]. *)
Definition worst_idx (pop : population) : nat :=
  match map (fun f => nth 0 f 0) (get_f pop) with
  | [] => O
  | v :: vals => select_idx (fun x y => Rltb y x) vals 1 0 v
  end.

(* ================================================================== *)
(** ** The algorithm *)
(* ================================================================== *)

(** What an exception reports. *)
Inductive complaint :=
| bad_eta_mu
| bad_eta_sigma
| bad_eta_b
| bad_sigma0
| nonlinear_constraints
| multiple_objectives
| too_few_individuals (lam : nat).

(** [std::invalid_argument], raised by [pagmo_throw]. *)
Inductive exn := invalid_argument (what : complaint).

(** [log_line_type]: (gen, fevals, best, dx, df, sigma) *)
Record log_line_type := {
  log_gen : nat;
  log_fevals : nat;
  log_best : R;
  log_dx : R;
  log_df : R;
  log_sigma : R
}.

Definition log_type := list log_line_type.

(** Conversion of a [double] to [bool] in a condition: nonzero is true. *)
Definition truthy (d : R) : bool := if Req_dec_T d 0 then false else true.

(** The test of the constructor on a rate:
    [((v <= 0.) || (v > 1.)) && !(v == -1)] *)
Definition out_of_range (v : R) : bool :=
  ((if Rle_dec v 0 then true else false) || (if Rgt_dec v 1 then true else false))
  && negb (if Req_dec_T v (-1) then true else false).

(** [std::vector<double> u(lam)] after the three loops of [evolve] that
    fill it, sum it and normalise it. *)
Definition raw_utilities (lam : nat) : list R :=
  map (fun i => Rmax 0 (ln (INR lam / 2 + 1) - ln (INR (i + 1)))) (seq 0 lam).

Definition utilities (lam : nat) : list R :=
  let u := raw_utilities lam in
  let sum := fold_left Rplus u 0 in
  map (fun w => w / sum - 1 / INR lam) u.

Section Algorithm.

Context {RE : RandomEngine}.

Record xnes := {
  m_gen : nat;
  m_eta_mu : R;
  m_eta_sigma : R;
  m_eta_b : R;
  m_sigma0 : R;
  m_ftol : R;
  m_xtol : R;
  m_memory : bool;
  sigma : R;
  mean : vec;
  A : mat;
  m_e : engine;
  m_seed : nat;
  m_verbosity : nat;
  m_log : log_type
}.

(** Writes to the mutable members. *)
Definition set_memory (s : R) (m : vec) (M : mat) (a : xnes) : xnes :=
  {| m_gen := m_gen a; m_eta_mu := m_eta_mu a; m_eta_sigma := m_eta_sigma a;
     m_eta_b := m_eta_b a; m_sigma0 := m_sigma0 a; m_ftol := m_ftol a;
     m_xtol := m_xtol a; m_memory := m_memory a;
     sigma := s; mean := m; A := M;
     m_e := m_e a; m_seed := m_seed a; m_verbosity := m_verbosity a;
     m_log := m_log a |}.

Definition set_engine (e : engine) (a : xnes) : xnes :=
  {| m_gen := m_gen a; m_eta_mu := m_eta_mu a; m_eta_sigma := m_eta_sigma a;
     m_eta_b := m_eta_b a; m_sigma0 := m_sigma0 a; m_ftol := m_ftol a;
     m_xtol := m_xtol a; m_memory := m_memory a;
     sigma := sigma a; mean := mean a; A := A a;
     m_e := e; m_seed := m_seed a; m_verbosity := m_verbosity a;
     m_log := m_log a |}.

Definition set_log (l : log_type) (a : xnes) : xnes :=
  {| m_gen := m_gen a; m_eta_mu := m_eta_mu a; m_eta_sigma := m_eta_sigma a;
     m_eta_b := m_eta_b a; m_sigma0 := m_sigma0 a; m_ftol := m_ftol a;
     m_xtol := m_xtol a; m_memory := m_memory a;
     sigma := sigma a; mean := mean a; A := A a;
     m_e := m_e a; m_seed := m_seed a; m_verbosity := m_verbosity a;
     m_log := l |}.

(** [xnes::set_verbosity] *)
Definition set_verbosity (level : nat) (a : xnes) : xnes :=
  {| m_gen := m_gen a; m_eta_mu := m_eta_mu a; m_eta_sigma := m_eta_sigma a;
     m_eta_b := m_eta_b a; m_sigma0 := m_sigma0 a; m_ftol := m_ftol a;
     m_xtol := m_xtol a; m_memory := m_memory a;
     sigma := sigma a; mean := mean a; A := A a;
     m_e := m_e a; m_seed := m_seed a; m_verbosity := level;
     m_log := m_log a |}.

(** [xnes::set_seed] *)
Definition set_seed (seed : nat) (a : xnes) : xnes :=
  {| m_gen := m_gen a; m_eta_mu := m_eta_mu a; m_eta_sigma := m_eta_sigma a;
     m_eta_b := m_eta_b a; m_sigma0 := m_sigma0 a; m_ftol := m_ftol a;
     m_xtol := m_xtol a; m_memory := m_memory a;
     sigma := sigma a; mean := mean a; A := A a;
     m_e := engine_seed seed; m_seed := seed; m_verbosity := m_verbosity a;
     m_log := m_log a |}.

Definition get_seed (a : xnes) : nat := m_seed a.
Definition get_verbosity (a : xnes) : nat := m_verbosity a.
Definition get_gen (a : xnes) : nat := m_gen a.
Definition get_log (a : xnes) : log_type := m_log a.

(** The constructor [xnes::xnes]. *)
Definition construct (gen : nat) (eta_mu eta_sigma eta_b sigma0 ftol xtol : R)
           (memory : bool) (seed : nat) : exn + xnes :=
  if out_of_range eta_mu then inl (invalid_argument bad_eta_mu)
  else if out_of_range eta_sigma then inl (invalid_argument bad_eta_sigma)
  else if out_of_range eta_b then inl (invalid_argument bad_eta_b)
  else if out_of_range sigma0 then inl (invalid_argument bad_sigma0)
  else
    (* Initialize explicitly the algorithm memory *)
    inr {| m_gen := gen; m_eta_mu := eta_mu; m_eta_sigma := eta_sigma;
           m_eta_b := eta_b; m_sigma0 := sigma0; m_ftol := ftol;
           m_xtol := xtol; m_memory := memory;
           sigma := sigma0;
           mean := vzero 1;
           A := identity 1;
           m_e := engine_seed seed; m_seed := seed; m_verbosity := O;
           m_log := [] |}.

(** *** The preamble of [evolve]: checks on the problem type *)

Definition check_problem (pop : population) : option exn :=
  let prob := get_problem pop in
  let lam := size pop in
  if negb (get_nc prob =? 0)%nat then
    Some (invalid_argument nonlinear_constraints)
  else if negb (get_nf prob =? 1)%nat then
    Some (invalid_argument multiple_objectives)
  else if (lam <? 4)%nat then
    Some (invalid_argument (too_few_individuals lam))
  else None.

(** *** Default values for the learning rates

    The three conditions of the source are [if (eta_mu = -1)],
    [if (eta_sigma = -1)] and [if (eta_b = -1)]: each one assigns [-1] to
    the local and tests the assigned value. *)
Definition learning_rates (a : xnes) (dim : nat) : R * R * R :=
  let N := INR dim in
  let eta_mu := m_eta_mu a in
  let eta_sigma := m_eta_sigma a in
  let eta_b := m_eta_b a in
  let eta_mu := -1 in
  let eta_mu := if truthy eta_mu then 1 else eta_mu in
  let common_default := 0.6 * (3 + ln N) / (N * sqrt N) in
  let eta_sigma := -1 in
  let eta_sigma := if truthy eta_sigma then common_default else eta_sigma in
  let eta_b := -1 in
  let eta_b := if truthy eta_b then common_default else eta_b in
  (eta_mu, eta_sigma, eta_b).

(** *** Erasing or keeping the memory of past calls

    [if ((mean.size() != dim) || (m_memory == false)) { ... }] *)
Definition initial_A (dim : nat) (lb ub : vec) (s : R) : mat :=
  fold_left
    (fun M j => mat_set j j (Rmax (nth j ub 0 - nth j lb 0) 1e-6 * s) M)
    (seq 0 dim) (identity dim).

Definition reset_or_retain (a : xnes) (pop : population) : xnes :=
  let prob := get_problem pop in
  let dim := get_nx prob in
  let lb := get_lb prob in
  let ub := get_ub prob in
  if negb (length (mean a) =? dim)%nat || eqb (m_memory a) false then
    let s := if Req_dec_T (m_sigma0 a) (-1) then 1 else m_sigma0 a in
    let M := initial_A dim lb ub s in
    let idx_b := best_idx pop in
    let m := map (fun i => nth i (nth idx_b (get_x pop) []) 0) (seq 0 dim) in
    set_memory s m M a
  else a.

(** *** Step 1: sampling [lam] new individuals *)

(** 1a: [for j < dim: z[i](j) = normally_distributed_number(m_e)] *)
Fixpoint draw_normals (dim : nat) (e : engine) : vec * engine :=
  match dim with
  | O => ([], e)
  | S dim' =>
      let (v, e1) := normal_draw e in
      let (vs, e2) := draw_normals dim' e1 in
      (v :: vs, e2)
  end.

(** The bound fix: [for j < dim: if (x[j] < lb[j] || x[j] > ub[j])
    x[j] = lb[j] + randomly_distributed_number(m_e) * (ub[j] - lb[j])].
    Only [x] is changed, not [z].  (The flag [changed] that the source
    sets here is never read.) *)
Fixpoint fix_bounds (js : list nat) (lb ub : vec) (x : vec) (e : engine)
  : vec * engine :=
  match js with
  | [] => (x, e)
  | j :: js' =>
      if Rltb (nth j x 0) (nth j lb 0) || Rltb (nth j ub 0) (nth j x 0) then
        let (r, e') := uniform_draw e in
        fix_bounds js' lb ub
                   (upd j (nth j lb 0 + r * (nth j ub 0 - nth j lb 0)) x) e'
      else fix_bounds js' lb ub x e
  end.

(** 1b and the bound fix: the candidate [x[i]] made from the noise [zi],
    as copied to [dumb]. *)
Definition candidate (dim : nat) (lb ub : vec) (mu : vec) (M : mat)
           (zi : vec) (e : engine) : vec * engine :=
  let xi := vadd mu (mat_vec M zi) in
  let (xi, e') := fix_bounds (seq 0 dim) lb ub xi e in
  (map (fun j => nth j xi 0) (seq 0 dim), e').

(** The body of the loop over the individuals: returns [z[i]], the
    population after [pop.set_x(i, dumb)] and the engine. *)
Definition sample_individual (dim : nat) (lb ub : vec) (mu : vec) (M : mat)
           (i : nat) (pop : population) (e : engine)
  : vec * population * engine :=
  let (zi, e1) := draw_normals dim e in
  let (dumb, e2) := candidate dim lb ub mu M zi e1 in
  (zi, set_x i dumb pop, e2).

(** [for i < lam], collecting the vectors [z[i]] in index order. *)
Fixpoint sample_population (ids : list nat) (dim : nat) (lb ub : vec)
         (mu : vec) (M : mat) (pop : population) (e : engine)
  : list vec * population * engine :=
  match ids with
  | [] => ([], pop, e)
  | i :: ids' =>
      let '(zi, pop1, e1) := sample_individual dim lb ub mu M i pop e in
      let '(zs, pop2, e2) := sample_population ids' dim lb ub mu M pop1 e1 in
      (zi :: zs, pop2, e2)
  end.

(** *** Step 2: the exit conditions and the log *)

(** [(A * z[0]).norm()] *)
Definition flatness_x (M : mat) (z : list vec) : R :=
  norm (mat_vec M (nth 0 z [])).

(** [std::abs(pop.get_f()[idx_b][0] - pop.get_f()[idx_w][0])] *)
Definition flatness_f (pop : population) : R :=
  Rabs (f0 pop (best_idx pop) - f0 pop (worst_idx pop)).

Inductive stop := stop_xtol | stop_ftol.

(** The block [if (gen % 10u == 0u) { ... }]: [Some] is a [return pop]. *)
Definition check_exit (a : xnes) (gen : nat) (z : list vec)
           (pop : population) : option stop :=
  if (gen mod 10 =? 0)%nat then
    if Rltb (flatness_x (A a) z) (m_xtol a) then Some stop_xtol
    else if Rltb (flatness_f pop) (m_ftol a) then Some stop_ftol
    else None
  else None.

(** 2bis: a line is added every [m_verbosity] generations. *)
Definition log_generation (a : xnes) (fevals0 gen : nat) (z : list vec)
           (pop : population) : xnes :=
  if (0 <? m_verbosity a)%nat then
    if (gen mod m_verbosity a =? 1)%nat || (m_verbosity a =? 1)%nat then
      let dx := flatness_x (A a) z in
      let idx_b := best_idx pop in
      let df := flatness_f pop in
      set_log (m_log a ++
               [ {| log_gen := gen;
                    log_fevals := get_fevals (get_problem pop) - fevals0;
                    log_best := f0 pop idx_b;
                    log_dx := dx; log_df := df;
                    log_sigma := sigma a |} ]) a
    else a
  else a.

(** *** Step 3: sorting the population

    [std::sort] of the indices with the comparison
    [pop.get_f()[a][0] < pop.get_f()[b][0]].  The order [std::sort] gives
    to individuals of equal fitness is unspecified; here they keep their
    index order. *)
Fixpoint insert_idx (key : nat -> R) (i : nat) (l : list nat) : list nat :=
  match l with
  | [] => [i]
  | h :: t => if Rltb (key h) (key i) then h :: insert_idx key i t
              else i :: h :: t
  end.

Definition sort_indices (pop : population) (lam : nat) : list nat :=
  fold_right (insert_idx (f0 pop)) [] (seq 0 lam).

(** *** Step 4: the update of the distribution parameters *)

Definition d_center_of (u : list R) (z : list vec) (s_idx : list nat) : vec :=
  fold_left
    (fun acc i => vadd acc (vscale (nth i u 0) (nth (nth i s_idx O) z [])))
    (seq 1 (length u - 1))
    (vscale (nth 0 u 0) (nth (nth 0 s_idx O) z [])).

Definition cov_term (I : mat) (u : list R) (z : list vec) (s_idx : list nat)
           (i : nat) : mat :=
  let zi := nth (nth i s_idx O) z [] in
  mscale (nth i u 0) (msub (outer zi zi) I).

Definition cov_grad_of (I : mat) (u : list R) (z : list vec)
           (s_idx : list nat) : mat :=
  fold_left (fun acc i => madd acc (cov_term I u z s_idx i))
            (seq 1 (length u - 1))
            (cov_term I u z s_idx 0).

Definition update_distribution (dim : nat) (u : list R)
           (rates : R * R * R) (z : list vec) (s_idx : list nat)
           (a : xnes) : xnes :=
  let '(eta_mu, eta_sigma, eta_b) := rates in
  let I := identity dim in
  let d_center := d_center_of u z s_idx in
  let cov_grad := cov_grad_of I u z s_idx in
  let cov_trace := trace cov_grad in
  let cov_grad := msub cov_grad (mscale (cov_trace / INR dim) I) in
  let d_A :=
    mscale 0.5 (madd (mscale (eta_sigma * cov_trace / INR dim) I)
                     (mscale eta_b cov_grad)) in
  set_memory (sigma a * exp (eta_sigma / 2 * cov_trace / INR dim))
             (vadd (mean a) (mat_vec (mscale eta_mu (A a)) d_center))
             (mat_mul (A a) (mexp d_A))
             a.

(** *** One generation: the body of the loop [for gen = 1 .. m_gen] *)

Definition reseed (pop : population) (e : engine) : population * engine :=
  if is_stochastic (get_problem pop) then
    let (s, e') := uniform_int_draw e in (set_problem_seed s pop, e')
  else (pop, e).

(** Steps 0 and 1 of a generation: the sampled noise vectors, the
    re-evaluated population and the engine. *)
Definition sampled (dim lam : nat) (lb ub : vec) (a : xnes)
           (pop : population) : list vec * population * engine :=
  let (pop, e) := reseed pop (m_e a) in
  sample_population (seq 0 lam) dim lb ub (mean a) (A a) pop e.

Definition generation (dim lam : nat) (lb ub : vec) (u : list R)
           (rates : R * R * R) (fevals0 gen : nat)
           (a : xnes) (pop : population) : option stop * xnes * population :=
  let '(z, pop, e) := sampled dim lam lb ub a pop in
  let a := set_engine e a in
  match check_exit a gen z pop with
  | Some why => (Some why, a, pop)
  | None =>
      let a := log_generation a fevals0 gen z pop in
      let s_idx := sort_indices pop lam in
      let a := update_distribution dim u rates z s_idx a in
      (None, a, pop)
  end.

(** How the loop was left: the three "Exit condition" branches. *)
Inductive exit_condition :=
| exit_generations
| exit_xtol (gen : nat)
| exit_ftol (gen : nat).

(** [n] iterations of the loop, the counter starting at [gen]. *)
Fixpoint generations (n : nat) (dim lam : nat) (lb ub : vec) (u : list R)
         (rates : R * R * R) (fevals0 gen : nat)
         (a : xnes) (pop : population)
  : exit_condition * xnes * population :=
  match n with
  | O => (exit_generations, a, pop)
  | S n' =>
      match generation dim lam lb ub u rates fevals0 gen a pop with
      | (Some stop_xtol, a', pop') => (exit_xtol gen, a', pop')
      | (Some stop_ftol, a', pop') => (exit_ftol gen, a', pop')
      | (None, a', pop') =>
          generations n' dim lam lb ub u rates fevals0 (S gen) a' pop'
      end
  end.

(** *** [xnes::evolve]

    [evolve_run] also tells how the call ended; [evolve] is the method. *)
Definition evolve_run (a : xnes) (pop : population)
  : xnes * (exn + exit_condition * population) :=
  let prob := get_problem pop in
  let dim := get_nx prob in
  let lb := get_lb prob in
  let ub := get_ub prob in
  let lam := size pop in
  let fevals0 := get_fevals prob in
  match check_problem pop with
  | Some ex => (a, inl ex)
  | None =>
      (* Get out if there is nothing to do. *)
      if (m_gen a =? 0)%nat then (a, inr (exit_generations, pop))
      else
        (* No throws, all valid: we clear the logs *)
        let a := set_log [] a in
        let rates := learning_rates a dim in
        let u := utilities lam in
        let a := reset_or_retain a pop in
        let '(how, a, pop) :=
          generations (m_gen a) dim lam lb ub u rates fevals0 1 a pop in
        (a, inr (how, pop))
  end.

Definition evolve (a : xnes) (pop : population) : xnes * (exn + population) :=
  match evolve_run a pop with
  | (a', inl ex) => (a', inl ex)
  | (a', inr (_, pop')) => (a', inr pop')
  end.

(** The call that passes the preamble with a nonzero budget: the log is
    cleared, the memory erased or kept, and the loop entered at [gen = 1]. *)
Definition evolve_loop (a : xnes) (pop : population)
  : exit_condition * xnes * population :=
  let prob := get_problem pop in
  generations (m_gen a) (get_nx prob) (size pop) (get_lb prob) (get_ub prob)
              (utilities (size pop)) (learning_rates a (get_nx prob))
              (get_fevals prob) 1
              (reset_or_retain (set_log [] a) pop) pop.

(** The condition under which generation [gen], begun with the instance
    [a] and the population [pop], returns: [gen] is a multiple of ten and
    either [|A z_0| < xtol] for the first noise vector sampled in this
    generation, or the fitness gap of the re-evaluated population is below
    [ftol]. *)
Definition converged_at (dim lam : nat) (lb ub : vec) (gen : nat) (a : xnes)
           (pop : population) : Prop :=
  (gen mod 10 = 0)%nat /\
  (flatness_x (A a) (fst (fst (sampled dim lam lb ub a pop))) < m_xtol a \/
   flatness_f (snd (fst (sampled dim lam lb ub a pop))) < m_ftol a).

(** The loop as a step relation: [loop_reaches ... g a pop g' a' pop'] when
    the loop that begins generation [g] with the instance [a] and the
    population [pop] later begins generation [g'] with [a'] and [pop'],
    no generation in between having returned. *)
Inductive loop_reaches (dim lam : nat) (lb ub : vec) (u : list R)
          (rates : R * R * R) (fevals0 : nat)
  : nat -> xnes -> population -> nat -> xnes -> population -> Prop :=
| reaches_here : forall g a pop,
    loop_reaches dim lam lb ub u rates fevals0 g a pop g a pop
| reaches_next : forall g a pop a1 pop1 g' a' pop',
    generation dim lam lb ub u rates fevals0 g a pop = (None, a1, pop1) ->
    loop_reaches dim lam lb ub u rates fevals0 (S g) a1 pop1 g' a' pop' ->
    loop_reaches dim lam lb ub u rates fevals0 g a pop g' a' pop'.

(** The instances a program can hold: constructed, then changed only by
    the setters and by evolve calls. *)
Inductive reachable : xnes -> Prop :=
| reach_construct : forall gen eta_mu eta_sigma eta_b sigma0 ftol xtol
                           memory seed a,
    construct gen eta_mu eta_sigma eta_b sigma0 ftol xtol memory seed = inr a ->
    reachable a
| reach_set_verbosity : forall level a,
    reachable a -> reachable (set_verbosity level a)
| reach_set_seed : forall seed a,
    reachable a -> reachable (set_seed seed a)
| reach_evolve : forall a pop,
    reachable a -> reachable (fst (evolve a pop)).

(** [mean] has [dim] entries and [A] has [dim] rows. *)
Definition memory_shaped (dim : nat) (a : xnes) : Prop :=
  length (mean a) = dim /\ length (A a) = dim.

End Algorithm.

(* ================================================================== *)
(** ** A concrete setting *)
(* ================================================================== *)

(** The sphere function [f(x) = sum_j x_j^2] on the box [[-5, 5]^D], with
    populations given by their decision vectors, and instances running on
    [counter_engine]. *)
Definition sphere (D : nat) : problem :=
  {| get_nx := D; get_lb := repeat (-5) D; get_ub := repeat 5 D;
     get_nf := 1; get_nc := 0; get_fevals := 0;
     is_stochastic := false; get_prob_seed := 0;
     fitness := fun _ x => [dot x x] |}.

Definition population_of (prob : problem) (xs : list vec) : population :=
  {| get_problem := prob; get_x := xs;
     get_f := map (fitness prob (get_prob_seed prob)) xs |}.

Definition five_points : list vec := [[1]; [2]; [3]; [-1]; [-2]].
Definition four_points : list vec := [[1]; [2]; [3]; [-1]].

(** The sphere with one nonlinear constraint declared. *)
Definition constrained_sphere (D : nat) : problem :=
  {| get_nx := D; get_lb := repeat (-5) D; get_ub := repeat 5 D;
     get_nf := 1; get_nc := 1; get_fevals := 0;
     is_stochastic := false; get_prob_seed := 0;
     fitness := fun _ x => [dot x x] |}.

(** An instance as the constructor leaves it when every rate is the
    sentinel. *)
Definition default_xnes (gen : nat) (memory : bool) : @xnes counter_engine :=
  {| m_gen := gen; m_eta_mu := -1; m_eta_sigma := -1; m_eta_b := -1;
     m_sigma0 := -1; m_ftol := 1e-6; m_xtol := 1e-6; m_memory := memory;
     sigma := -1; mean := vzero 1; A := identity 1;
     m_e := O; m_seed := O; m_verbosity := O; m_log := [] |}.

(* ================================================================== *)
(** ** The natural-gradient update as the specification words it *)
(* ================================================================== *)

(** The second, independent definition of the update of section 4.4 of the
    specification, to be compared with [update_distribution]: weighted
    sums over the ranks, from zero. *)
Module Spec.

Definition mzero (D : nat) : mat := repeat (vzero D) D.

Definition vsum (D : nat) (l : list vec) : vec := fold_left vadd l (vzero D).

Definition msum (D : nat) (l : list mat) : mat := fold_left madd l (mzero D).

(** The noise vectors in rank order, best first. *)
Definition ranked (z : list vec) (s_idx : list nat) : list vec :=
  map (fun k => nth k z []) s_idx.

(** [d_center = sum_i w_i z_i] *)
Definition d_center (D : nat) (w : list R) (zr : list vec) : vec :=
  vsum D (map (fun i => vscale (nth i w 0) (nth i zr [])) (seq 0 (length w))).

(** [cov_grad = sum_i w_i (z_i z_i^T - I)] *)
Definition cov_grad (D : nat) (w : list R) (zr : list vec) : mat :=
  msum D (map (fun i => mscale (nth i w 0)
                               (msub (outer (nth i zr []) (nth i zr []))
                                     (identity D)))
              (seq 0 (length w))).

(** [d_A = 0.5 (eta_sigma (tr/D) I + eta_b (cov_grad - (tr/D) I))] *)
Definition d_A (D : nat) (w : list R) (zr : list vec) (eta_sigma eta_b : R)
  : mat :=
  let tr := trace (cov_grad D w zr) in
  let traceless := msub (cov_grad D w zr) (mscale (tr / INR D) (identity D)) in
  mscale 0.5 (madd (mscale (eta_sigma * (tr / INR D)) (identity D))
                   (mscale eta_b traceless)).

(** The new [(mean, A, sigma)]. *)
Definition update (D : nat) (w : list R) (zr : list vec)
           (eta_mu eta_sigma eta_b : R) (mu : vec) (M : mat) (s : R)
  : vec * mat * R :=
  let tr := trace (cov_grad D w zr) in
  (vadd mu (vscale eta_mu (mat_vec M (d_center D w zr))),
   mat_mul M (mexp (d_A D w zr eta_sigma eta_b)),
   s * exp (eta_sigma / 2 * (tr / INR D))).

End Spec.

(* ================================================================== *)
(** ** Well-formedness *)
(* ================================================================== *)

(** The box bounds of a problem are ordered. *)
Definition bounds_ordered (dim : nat) (lb ub : vec) : Prop :=
  forall j, (j < dim)%nat -> nth j lb 0 <= nth j ub 0.

(** Coordinate [j] of [x] is inside the box. *)
Definition in_box (lb ub : vec) (j : nat) (x : vec) : Prop :=
  nth j lb 0 <= nth j x 0 <= nth j ub 0.

(** Every individual of the population is inside the box. *)
Definition within_bounds (dim : nat) (lb ub : vec) (pop : population) : Prop :=
  forall i j, (i < size pop)%nat -> (j < dim)%nat ->
              in_box lb ub j (nth i (get_x pop) []).

(** A population holds one fitness vector per decision vector, and every
    decision vector has the dimension of the problem. *)
Definition population_wf (pop : population) : Prop :=
  length (get_f pop) = length (get_x pop) /\
  Forall (fun x => length x = get_nx (get_problem pop)) (get_x pop).

(** [M] has [n] rows of [m] entries. *)
Definition is_matrix (n m : nat) (M : mat) : Prop :=
  length M = n /\ Forall (fun r => length r = m) M.

(** The sum of a vector, accumulated as by [sum += u[i]]. *)
Definition total (l : list R) : R := fold_left Rplus l 0.

(* ================================================================== *)
(** ** Further members, and what a call leaves alone *)
(* ================================================================== *)

(** What [stream] is given by [get_extra_info], item by item; how an item
    is printed is the business of [pagmo::stream]. *)
Inductive shown :=
| shown_text (s : String.string)
| shown_double (d : R)
| shown_unsigned (n : nat)
| shown_bool (b : bool).

(** The static data of a problem: everything but the evaluation counter
    and the seed. *)
Definition same_problem_data (p q : problem) : Prop :=
  get_nx p = get_nx q /\ get_lb p = get_lb q /\ get_ub p = get_ub q /\
  get_nf p = get_nf q /\ get_nc p = get_nc q /\
  is_stochastic p = is_stochastic q /\ fitness p = fitness q.

(** Every fitness vector is the objective function at the decision vector
    of the same individual, for the current seed of the problem. *)
Definition fitness_consistent (pop : population) : Prop :=
  forall i, (i < size pop)%nat ->
    nth i (get_f pop) []
    = fitness (get_problem pop) (get_prob_seed (get_problem pop))
              (nth i (get_x pop) []).

(** An instance as the constructor leaves it when every rate is the
    sentinel and both tolerances are zero. *)
Definition strict_xnes (gen : nat) : @xnes counter_engine :=
  {| m_gen := gen; m_eta_mu := -1; m_eta_sigma := -1; m_eta_b := -1;
     m_sigma0 := -1; m_ftol := 0; m_xtol := 0; m_memory := false;
     sigma := -1; mean := vzero 1; A := identity 1;
     m_e := O; m_seed := O; m_verbosity := O; m_log := [] |}.

(** The objective function of the problem is constant. *)
Definition constant_objective (p : problem) (c : R) : Prop :=
  forall s x, fitness p s x = [c].

(** A problem with a flat objective on the box [[-5, 5]^D]. *)
Definition plateau (D : nat) : problem :=
  {| get_nx := D; get_lb := repeat (-5) D; get_ub := repeat 5 D;
     get_nf := 1; get_nc := 0; get_fevals := 0;
     is_stochastic := false; get_prob_seed := 0;
     fitness := fun _ _ => [0] |}.

(** A rate or scale the constructor accepts. *)
Definition acceptable (v : R) : Prop := 0 < v <= 1 \/ v = -1.

(** The test of step 2bis: generation [gen] is logged at verbosity [v]. *)
Definition logs_at (v gen : nat) : bool :=
  (0 <? v)%nat && ((gen mod v =? 1)%nat || (v =? 1)%nat).

(** The generations a call sampled, and those it carried through to the
    update of the distribution, from the way its loop was left. *)
Definition sampled_generations (how : exit_condition) (budget : nat) : nat :=
  match how with
  | exit_generations => budget
  | exit_xtol g | exit_ftol g => g
  end.

Definition updated_generations (how : exit_condition) (budget : nat) : nat :=
  match how with
  | exit_generations => budget
  | exit_xtol g | exit_ftol g => g - 1
  end.

Section Members.

Context {RE : RandomEngine}.

Local Open Scope string_scope.

(** [xnes::get_name] *)
Definition get_name (a : xnes) : String.string :=
  "xNES: Exponential Natural Evolution Strategies".

(** The prefixes ["\t"] and ["\n\t"] of the labels of [get_extra_info]. *)
Definition tab : String.string :=
  String.String (Ascii.ascii_of_nat 9) String.EmptyString.

Definition newline_tab : String.string :=
  String.String (Ascii.ascii_of_nat 10) tab.

(** A rate is streamed as ["auto"] when it is the sentinel. *)
Definition shown_rate (v : R) : shown :=
  if Req_dec_T v (-1) then shown_text "auto" else shown_double v.

(** [xnes::get_extra_info]: the sequence of items streamed. *)
Definition get_extra_info (a : xnes) : list shown :=
  [ shown_text (String.append tab "Generations: ");
    shown_unsigned (m_gen a);
    shown_text (String.append newline_tab "eta_mu: ");
    shown_rate (m_eta_mu a);
    shown_text (String.append newline_tab "m_eta_sigma: ");
    shown_rate (m_eta_sigma a);
    shown_text (String.append newline_tab "m_eta_b: ");
    shown_rate (m_eta_b a);
    shown_text (String.append newline_tab "cmu: ");
    shown_text (String.append newline_tab "sigma0: ");
    shown_double (m_sigma0 a);
    shown_text (String.append newline_tab "Stopping xtol: ");
    shown_double (m_xtol a);
    shown_text (String.append newline_tab "Stopping ftol: ");
    shown_double (m_ftol a);
    shown_text (String.append newline_tab "Memory: ");
    shown_bool (m_memory a);
    shown_text (String.append newline_tab "Verbosity: ");
    shown_unsigned (m_verbosity a);
    shown_text (String.append newline_tab "Seed: ");
    shown_unsigned (m_seed a) ].

Local Close Scope string_scope.

(** The configuration of an instance: the members [evolve] only reads. *)
Definition same_config (a b : xnes) : Prop :=
  m_gen a = m_gen b /\ m_eta_mu a = m_eta_mu b /\
  m_eta_sigma a = m_eta_sigma b /\ m_eta_b a = m_eta_b b /\
  m_sigma0 a = m_sigma0 b /\ m_ftol a = m_ftol b /\ m_xtol a = m_xtol b /\
  m_memory a = m_memory b /\ m_seed a = m_seed b /\
  m_verbosity a = m_verbosity b.

(** The instance with its verbosity and its log put aside. *)
Definition quiet (a : xnes) : xnes := set_log [] (set_verbosity 0 a).

End Members.

(* ================================================================== *)
(** ** Containers *)
(* ================================================================== *)

Section Containers.

Context {T : Type}.

Lemma upd_length (i : nat) (v : T) (l : list T) :
  length (upd i v l) = length l.
Proof.
  revert i; induction l as [|h t IH]; intros [|i]; simpl; auto.
Qed.

Lemma nth_upd_same (i : nat) (v d : T) (l : list T) :
  (i < length l)%nat -> nth i (upd i v l) d = v.
Proof.
  revert i; induction l as [|h t IH]; intros [|i] Hi; simpl in *;
    try lia; auto.
  apply IH; lia.
Qed.

Lemma nth_upd_other (i j : nat) (v d : T) (l : list T) :
  i <> j -> nth j (upd i v l) d = nth j l d.
Proof.
  revert i j; induction l as [|h t IH]; intros [|i] [|j] Hij; simpl;
    try congruence; auto.
Qed.

End Containers.

(* ================================================================== *)
(** ** Utility weights *)
(* ================================================================== *)

Lemma fold_left_Rplus_acc (l : list R) (acc : R) :
  fold_left Rplus l acc = acc + total l.
Proof.
  unfold total; revert acc; induction l as [|h t IH]; intros acc; simpl.
  - lra.
  - rewrite IH, (IH (0 + h)); lra.
Qed.

Lemma total_cons (h : R) (t : list R) : total (h :: t) = h + total t.
Proof. unfold total at 1; simpl; rewrite fold_left_Rplus_acc; lra. Qed.

Lemma total_affine (c d : R) (l : list R) :
  total (map (fun w => w * c - d) l) = total l * c - INR (length l) * d.
Proof.
  induction l as [|h t IH].
  - unfold total; simpl; lra.
  - cbn [map]. rewrite !total_cons, IH.
    change (length (h :: t)) with (S (length t)). rewrite S_INR. lra.
Qed.

Lemma total_nonneg (l : list R) : Forall (fun w => 0 <= w) l -> 0 <= total l.
Proof.
  induction 1 as [|h t Hh _ IH].
  - unfold total; simpl; lra.
  - rewrite total_cons; lra.
Qed.

Lemma raw_utilities_nonneg (lam : nat) :
  Forall (fun w => 0 <= w) (raw_utilities lam).
Proof.
  unfold raw_utilities. apply Forall_forall. intros w Hw.
  apply in_map_iff in Hw. destruct Hw as [i [<- _]]. apply Rmax_l.
Qed.

Lemma raw_utilities_length (lam : nat) : length (raw_utilities lam) = lam.
Proof. unfold raw_utilities. now rewrite length_map, length_seq. Qed.

(** The best rank has a positive raw weight, so the normalising sum is
    positive. *)
Lemma raw_utilities_total_pos (lam : nat) :
  (1 <= lam)%nat -> 0 < total (raw_utilities lam).
Proof.
  intros Hlam. destruct lam as [|n]; [lia|].
  unfold raw_utilities. rewrite <- cons_seq. cbn [map].
  rewrite total_cons.
  assert (Hrest : 0 <= total (map (fun i : nat =>
             Rmax 0 (ln (INR (S n) / 2 + 1) - ln (INR (i + 1)))) (seq 1 n))).
  { apply total_nonneg. apply Forall_forall. intros w Hw.
    apply in_map_iff in Hw. destruct Hw as [i [<- _]]. apply Rmax_l. }
  assert (Hpos : 0 < INR (S n)) by (apply lt_0_INR; lia).
  assert (Hln : 0 < ln (INR (S n) / 2 + 1)).
  { rewrite <- ln_1. apply ln_increasing; lra. }
  change (INR (0 + 1)) with 1. rewrite ln_1.
  pose proof (Rmax_r 0 (ln (INR (S n) / 2 + 1) - 0)). lra.
Qed.

Lemma utilities_total_zero (lam : nat) :
  (1 <= lam)%nat -> total (utilities lam) = 0.
Proof.
  intros Hlam. unfold utilities.
  fold (total (raw_utilities lam)).
  pose proof (raw_utilities_total_pos lam Hlam) as HS.
  assert (HL : 0 < INR lam) by (apply lt_0_INR; lia).
  rewrite (map_ext _ (fun w => w * / total (raw_utilities lam) - 1 / INR lam))
    by (intros w; unfold Rdiv; reflexivity).
  rewrite total_affine, raw_utilities_length. field. split; lra.
Qed.

(** C7.  For every population size [lam >= 5] the utility weights, the raw
    weights [max(0, ln(lam/2 + 1) - ln(i + 1))] divided by their sum minus
    [1/lam], sum to zero (in exact real arithmetic). *)
Theorem utilities_sum_to_zero (lam : nat) :
  (5 <= lam)%nat ->
  utilities lam =
    map (fun i => Rmax 0 (ln (INR lam / 2 + 1) - ln (INR (i + 1)))
                  / total (raw_utilities lam) - 1 / INR lam) (seq 0 lam)
  /\ total (utilities lam) = 0.
Proof.
  intros Hlam. split.
  - change (utilities lam)
      with (map (fun w => w / total (raw_utilities lam) - 1 / INR lam)
                (raw_utilities lam)).
    set (S := total (raw_utilities lam)).
    unfold raw_utilities. rewrite map_map. reflexivity.
  - apply utilities_total_zero; lia.
Qed.

Lemma utilities_sum_to_zero_witness :
  (5 <= 5)%nat /\ total (utilities 5) = 0.
Proof.
  split; [lia | apply (utilities_sum_to_zero 5); lia].
Defined.

(* ================================================================== *)
(** ** The evolve call: preamble, learning rates and exits *)
(* ================================================================== *)

Section Driver.

Context {RE : RandomEngine}.

Lemma Rltb_true (x y : R) : Rltb x y = true <-> x < y.
Proof. unfold Rltb; destruct (Rlt_dec x y); split; intros; congruence || auto. Qed.

Lemma Rltb_false (x y : R) : Rltb x y = false <-> ~ x < y.
Proof.
  unfold Rltb; destruct (Rlt_dec x y); split; intros; try congruence; tauto.
Qed.

Lemma truthy_minus_one : truthy (-1) = true.
Proof. unfold truthy. destruct (Req_dec_T (-1) 0); [lra | reflexivity]. Qed.

(** C1.  What the code does with the learning rates: the three conditions
    [if (eta = -1)] assign the sentinel before testing it, so whatever
    rates the instance was constructed with, every evolve call runs with
    [eta_mu = 1] and [eta_sigma = eta_b = 0.6 (3 + ln D) / (D sqrt D)]; a
    fixed rate of the configuration is never used. *)
Theorem learning_rates_ignore_configuration (a : xnes) (dim : nat) :
  learning_rates a dim =
    (1,
     0.6 * (3 + ln (INR dim)) / (INR dim * sqrt (INR dim)),
     0.6 * (3 + ln (INR dim)) / (INR dim * sqrt (INR dim))).
Proof.
  unfold learning_rates. cbv zeta. rewrite truthy_minus_one. reflexivity.
Qed.

(** *** The preamble *)

Lemma check_problem_none (pop : population) :
  check_problem pop = None <->
  get_nc (get_problem pop) = O /\ get_nf (get_problem pop) = 1%nat /\
  (4 <= size pop)%nat.
Proof.
  unfold check_problem.
  destruct (Nat.eqb_spec (get_nc (get_problem pop)) 0) as [Hc|Hc]; simpl.
  2: { split; [discriminate | intros [? _]; contradiction]. }
  destruct (Nat.eqb_spec (get_nf (get_problem pop)) 1) as [Hf|Hf]; simpl.
  2: { split; [discriminate | intros [_ [? _]]; contradiction]. }
  destruct (Nat.ltb_spec (size pop) 4) as [Hl|Hl].
  - split; [discriminate | intros [_ [_ ?]]; lia].
  - split; auto.
Qed.

Lemma evolve_run_rejected (a : xnes) (pop : population) (ex : exn) :
  check_problem pop = Some ex -> evolve_run a pop = (a, inl ex).
Proof. intros H. unfold evolve_run. now rewrite H. Qed.

Lemma evolve_run_nothing_to_do (a : xnes) (pop : population) :
  check_problem pop = None -> m_gen a = O ->
  evolve_run a pop = (a, inr (exit_generations, pop)).
Proof. intros H Hg. unfold evolve_run. now rewrite H, Hg. Qed.

Lemma reset_or_retain_m_gen (a : xnes) (pop : population) :
  m_gen (reset_or_retain a pop) = m_gen a.
Proof.
  unfold reset_or_retain.
  destruct (negb _ || eqb _ _); reflexivity.
Qed.

Lemma evolve_run_accepted (a : xnes) (pop : population) :
  check_problem pop = None -> m_gen a <> O ->
  evolve_run a pop =
    (snd (fst (evolve_loop a pop)),
     inr (fst (fst (evolve_loop a pop)), snd (evolve_loop a pop))).
Proof.
  intros H Hg. unfold evolve_run, evolve_loop. rewrite H.
  destruct (Nat.eqb_spec (m_gen a) 0) as [?|_]; [contradiction|].
  cbv zeta. rewrite reset_or_retain_m_gen.
  change (m_gen (set_log [] a)) with (m_gen a).
  change (learning_rates (set_log [] a)) with (learning_rates a).
  destruct (generations _ _ _ _ _ _ _ _ _ _ _) as [[how a'] pop'].
  reflexivity.
Qed.

Lemma evolve_of_run (a : xnes) (pop : population) :
  evolve a pop =
    (fst (evolve_run a pop),
     match snd (evolve_run a pop) with
     | inl ex => inl ex
     | inr (_, pop') => inr pop'
     end).
Proof.
  unfold evolve. destruct (evolve_run a pop) as [a' [ex | [how pop']]];
    reflexivity.
Qed.

(** C2 (as the code has it).  The preamble rejects a population with the
    test [lam < 4u]: a population of exactly four individuals on an
    unconstrained single-objective problem passes it, and evolve returns a
    population instead of raising the error that the message "needs at
    least 5 individuals" announces. *)
Theorem evolve_accepts_four_individuals (a : xnes) (pop : population) :
  get_nc (get_problem pop) = O ->
  get_nf (get_problem pop) = 1%nat ->
  size pop = 4%nat ->
  check_problem pop = None /\
  exists pop', snd (evolve a pop) = inr pop'.
Proof.
  intros Hc Hf Hl.
  assert (H : check_problem pop = None)
    by (apply check_problem_none; repeat split; auto; lia).
  split; [exact H|].
  rewrite evolve_of_run.
  destruct (Nat.eq_dec (m_gen a) 0) as [Hg|Hg].
  - rewrite (evolve_run_nothing_to_do a pop H Hg). simpl. eauto.
  - rewrite (evolve_run_accepted a pop H Hg). simpl. eauto.
Qed.

(** The part of C2 the code does implement: a constrained or
    multi-objective problem, or fewer than four individuals, raises
    [invalid_argument], and the instance is as before the call. *)
Lemma evolve_rejects (a : xnes) (pop : population) :
  get_nc (get_problem pop) <> O \/ get_nf (get_problem pop) <> 1%nat \/
  (size pop < 4)%nat ->
  exists what, evolve a pop = (a, inl (invalid_argument what)).
Proof.
  intros H.
  destruct (check_problem pop) as [[what]|] eqn:E.
  - exists what. rewrite evolve_of_run, (evolve_run_rejected a pop _ E).
    reflexivity.
  - apply check_problem_none in E. destruct E as [Hc [Hf Hl]].
    destruct H as [H | [H | H]]; [contradiction | contradiction | lia].
Qed.

(** C9.  With a generation budget of zero, a call that passes the checks
    on the problem returns the input population itself, so all its
    decision and fitness vectors are those of the input; the instance is
    not touched either. *)
Theorem evolve_zero_generations (a : xnes) (pop : population) :
  m_gen a = O ->
  (check_problem pop = None -> evolve a pop = (a, inr pop)) /\
  (forall pop', snd (evolve a pop) = inr pop' -> pop' = pop).
Proof.
  intros Hg. split.
  - intros H.
    rewrite evolve_of_run, (evolve_run_nothing_to_do a pop H Hg).
    reflexivity.
  - intros pop' H. rewrite evolve_of_run in H.
    destruct (check_problem pop) as [ex|] eqn:E.
    + rewrite (evolve_run_rejected a pop ex E) in H. discriminate.
    + rewrite (evolve_run_nothing_to_do a pop E Hg) in H. simpl in H.
      congruence.
Qed.

End Driver.

(* ================================================================== *)
(** ** Early exits of the generation loop *)
(* ================================================================== *)

Section Exits.

Context {RE : RandomEngine}.

Variables (dim lam : nat) (lb ub : vec) (u : list R) (rates : R * R * R)
          (fevals0 : nat).

Lemma check_exit_some (a : xnes) (gen : nat) (z : list vec) (pop : population) :
  check_exit a gen z pop <> None <->
  (gen mod 10 = 0)%nat /\
  (flatness_x (A a) z < m_xtol a \/ flatness_f pop < m_ftol a).
Proof.
  unfold check_exit.
  destruct (Nat.eqb_spec (gen mod 10) 0) as [Hm|Hm].
  - destruct (Rltb (flatness_x (A a) z) (m_xtol a)) eqn:Ex.
    + apply Rltb_true in Ex. split; [auto | discriminate].
    + apply Rltb_false in Ex.
      destruct (Rltb (flatness_f pop) (m_ftol a)) eqn:Ef.
      * apply Rltb_true in Ef. split; [auto | discriminate].
      * apply Rltb_false in Ef. split; [congruence | ].
        intros [_ [H | H]]; contradiction.
  - split; [congruence | intros [H _]; contradiction].
Qed.

Lemma generation_stops_iff (gen : nat) (a : xnes) (pop : population) :
  fst (fst (generation dim lam lb ub u rates fevals0 gen a pop)) <> None <->
  converged_at dim lam lb ub gen a pop.
Proof.
  unfold generation, converged_at.
  destruct (sampled dim lam lb ub a pop) as [[z pop1] e1]. cbn [fst snd].
  rewrite <- (check_exit_some (set_engine e1 a) gen z pop1).
  destruct (check_exit (set_engine e1 a) gen z pop1); cbn [fst];
    split; congruence.
Qed.

Lemma loop_reaches_le (g : nat) (a : xnes) (pop : population)
      (g' : nat) (a' : xnes) (pop' : population) :
  loop_reaches dim lam lb ub u rates fevals0 g a pop g' a' pop' ->
  (g <= g')%nat.
Proof. induction 1; lia. Qed.

Lemma generations_exit (n gen : nat) (a : xnes) (pop : population) :
  fst (fst (generations n dim lam lb ub u rates fevals0 gen a pop))
    <> exit_generations <->
  exists g ag popg,
    (gen <= g < gen + n)%nat /\
    loop_reaches dim lam lb ub u rates fevals0 gen a pop g ag popg /\
    converged_at dim lam lb ub g ag popg.
Proof.
  revert gen a pop. induction n as [|n IH]; intros gen a pop.
  - cbn. split; [congruence | intros (g & _ & _ & Hg & _); lia].
  - cbn [generations].
    pose proof (generation_stops_iff gen a pop) as Hstop.
    destruct (generation dim lam lb ub u rates fevals0 gen a pop)
      as [[[why|] a1] pop1] eqn:Egen; cbn [fst] in Hstop.
    + assert (Hc : converged_at dim lam lb ub gen a pop) by (apply Hstop; discriminate).
      split.
      * intros _. exists gen, a, pop. split; [lia|]. split; [constructor|auto].
      * intros _. destruct why; cbn; discriminate.
    + rewrite IH. split.
      * intros (g & ag & popg & Hg & Hr & Hc).
        exists g, ag, popg. split; [lia|]. split; [|exact Hc].
        eapply reaches_next; eauto.
      * intros (g & ag & popg & Hg & Hr & Hc).
        inversion Hr; subst.
        -- exfalso. apply Hstop in Hc. congruence.
        -- match goal with
           | H1 : generation _ _ _ _ _ _ _ _ _ _ = _ |- _ =>
               rewrite Egen in H1; inversion H1; subst
           end.
           exists g, ag, popg. split; [|split; auto].
           match goal with
           | H2 : loop_reaches _ _ _ _ _ _ _ (S gen) _ _ _ _ _ |- _ =>
               apply loop_reaches_le in H2
           end. lia.
Qed.

Lemma generations_exit_generation (n gen : nat) (a : xnes) (pop : population)
      (g : nat) :
  fst (fst (generations n dim lam lb ub u rates fevals0 gen a pop))
    = exit_xtol g \/
  fst (fst (generations n dim lam lb ub u rates fevals0 gen a pop))
    = exit_ftol g ->
  (g mod 10 = 0)%nat /\ (gen <= g < gen + n)%nat.
Proof.
  revert gen a pop. induction n as [|n IH]; intros gen a pop.
  - cbn. intros [H | H]; discriminate.
  - cbn [generations].
    pose proof (generation_stops_iff gen a pop) as Hstop.
    destruct (generation dim lam lb ub u rates fevals0 gen a pop)
      as [[[why|] a1] pop1] eqn:Egen; cbn [fst] in Hstop.
    + assert (Hc : converged_at dim lam lb ub gen a pop) by (apply Hstop; discriminate).
      destruct Hc as [Hm _].
      destruct why; cbn; intros [H | H]; inversion H; subst; split; auto; lia.
    + intros H. apply IH in H. destruct H as [Hm Hr]. split; [auto | lia].
Qed.

End Exits.

Section ExitsOfEvolve.

Context {RE : RandomEngine}.

(** C8.  A call that enters the loop returns before its budget is
    exhausted exactly when the loop reaches a generation [g] that is a
    multiple of ten and at which the norm of [A z_0] is below [xtol] or
    the gap between best and worst fitness is below [ftol]; the generation
    at which any early exit happens is a multiple of ten within the
    budget. *)
Theorem early_exit_only_every_ten_generations (a : xnes) (pop : population) :
  check_problem pop = None -> m_gen a <> O ->
  let prob := get_problem pop in
  let dim := get_nx prob in
  let lam := size pop in
  let lb := get_lb prob in
  let ub := get_ub prob in
  let how := fst (fst (evolve_loop a pop)) in
  snd (evolve_run a pop) = inr (how, snd (evolve_loop a pop)) /\
  (how <> exit_generations <->
   exists g ag popg,
     (1 <= g <= m_gen a)%nat /\
     loop_reaches dim lam lb ub (utilities lam) (learning_rates a dim)
                  (get_fevals prob) 1
                  (reset_or_retain (set_log [] a) pop) pop g ag popg /\
     (g mod 10 = 0)%nat /\
     (flatness_x (A ag) (fst (fst (sampled dim lam lb ub ag popg)))
        < m_xtol ag \/
      flatness_f (snd (fst (sampled dim lam lb ub ag popg))) < m_ftol ag)) /\
  (forall g, how = exit_xtol g \/ how = exit_ftol g ->
             (g mod 10 = 0)%nat /\ (1 <= g <= m_gen a)%nat).
Proof.
  intros Hchk Hgen prob dim lam lb ub how.
  split; [|split].
  - rewrite (evolve_run_accepted a pop Hchk Hgen). reflexivity.
  - unfold how, evolve_loop. fold prob dim lam lb ub.
    rewrite generations_exit. unfold converged_at.
    split; intros (g & ag & popg & Hg & Hr & Hc);
      exists g, ag, popg; (split; [lia|]); tauto.
  - intros g H. unfold how, evolve_loop in H.
    apply generations_exit_generation in H. destruct H; split; auto; lia.
Qed.

End ExitsOfEvolve.

Lemma early_exit_only_every_ten_generations_witness :
  let a := default_xnes 20 false in
  let pop := population_of (sphere 1) five_points in
  check_problem pop = None /\ m_gen a <> O /\
  forall g,
    fst (fst (evolve_loop a pop)) = exit_xtol g \/
    fst (fst (evolve_loop a pop)) = exit_ftol g ->
    (g mod 10 = 0)%nat /\ (1 <= g <= 20)%nat.
Proof.
  intros a pop.
  assert (Hc : check_problem pop = None) by reflexivity.
  assert (Hg : m_gen a <> O) by discriminate.
  split; [exact Hc|]. split; [exact Hg|].
  exact (proj2 (proj2 (early_exit_only_every_ten_generations a pop Hc Hg))).
Defined.

Lemma evolve_zero_generations_witness :
  let a := default_xnes 0 false in
  let pop := population_of (sphere 1) five_points in
  m_gen a = O /\ check_problem pop = None /\ evolve a pop = (a, inr pop).
Proof.
  intros a pop.
  assert (Hg : m_gen a = O) by reflexivity.
  assert (Hc : check_problem pop = None) by reflexivity.
  split; [exact Hg|]. split; [exact Hc|].
  exact (proj1 (evolve_zero_generations a pop Hg) Hc).
Defined.

Lemma evolve_accepts_four_individuals_witness :
  let a := default_xnes 1 false in
  let pop := population_of (sphere 1) four_points in
  get_nc (get_problem pop) = O /\ get_nf (get_problem pop) = 1%nat /\
  size pop = 4%nat /\
  exists pop', snd (evolve a pop) = inr pop'.
Proof.
  intros a pop.
  split; [reflexivity|]. split; [reflexivity|]. split; [reflexivity|].
  exact (proj2 (evolve_accepts_four_individuals a pop
                  eq_refl eq_refl eq_refl)).
Defined.

(* ================================================================== *)
(** ** The memory of the instance *)
(* ================================================================== *)

Section Memory.

Context {RE : RandomEngine}.

Lemma out_of_range_sentinel : out_of_range (-1) = false.
Proof.
  unfold out_of_range.
  destruct (Req_dec_T (-1) (-1)) as [_|H]; [|congruence].
  apply andb_false_r.
Qed.

Lemma out_of_range_false (v : R) :
  out_of_range v = false <-> (0 < v <= 1) \/ v = -1.
Proof.
  unfold out_of_range.
  destruct (Rle_dec v 0), (Rgt_dec v 1), (Req_dec_T v (-1)); simpl;
    split; intros H; try discriminate; try reflexivity;
    try (right; assumption); try (left; lra);
    destruct H as [H | H]; lra.
Qed.

(** What a successful construction returns. *)
Lemma construct_inr (gen : nat) (eta_mu eta_sigma eta_b sigma0 ftol xtol : R)
      (memory : bool) (seed : nat) (a : xnes) :
  construct gen eta_mu eta_sigma eta_b sigma0 ftol xtol memory seed = inr a ->
  a = {| m_gen := gen; m_eta_mu := eta_mu; m_eta_sigma := eta_sigma;
         m_eta_b := eta_b; m_sigma0 := sigma0; m_ftol := ftol;
         m_xtol := xtol; m_memory := memory;
         sigma := sigma0; mean := [0]; A := [[1]];
         m_e := engine_seed seed; m_seed := seed; m_verbosity := O;
         m_log := [] |}.
Proof.
  unfold construct.
  destruct (out_of_range eta_mu); [discriminate|].
  destruct (out_of_range eta_sigma); [discriminate|].
  destruct (out_of_range eta_b); [discriminate|].
  destruct (out_of_range sigma0); [discriminate|].
  intros H. inversion H. reflexivity.
Qed.

Lemma construct_sentinels (gen : nat) (ftol xtol : R) (memory : bool)
      (seed : nat) :
  exists a,
    construct gen (-1) (-1) (-1) (-1) ftol xtol memory seed = inr a.
Proof.
  unfold construct. rewrite out_of_range_sentinel. eauto.
Qed.

(** C10.  A constructed instance holds [mean = (0)], [A = (1)] and
    [sigma = sigma0], sentinel included.  With memory retention enabled
    and a problem of dimension one, the stored mean has the dimension of
    the problem, so the first call keeps this state: nothing is taken from
    the bounds or the best individual, and the loop starts from it. *)
Theorem first_call_keeps_constructor_state
        (gen : nat) (eta_mu eta_sigma eta_b sigma0 ftol xtol : R)
        (seed : nat) (a : xnes) :
  construct gen eta_mu eta_sigma eta_b sigma0 ftol xtol true seed = inr a ->
  (mean a = [0] /\ A a = [[1]] /\ sigma a = sigma0) /\
  forall pop,
    get_nx (get_problem pop) = 1%nat ->
    let prob := get_problem pop in
    let a0 := reset_or_retain (set_log [] a) pop in
    (mean a0 = [0] /\ A a0 = [[1]] /\ sigma a0 = sigma0) /\
    (check_problem pop = None -> gen <> O ->
     evolve_loop a pop =
       generations gen 1 (size pop) (get_lb prob) (get_ub prob)
                   (utilities (size pop)) (learning_rates a 1)
                   (get_fevals prob) 1 a pop /\
     evolve_run a pop =
       (snd (fst (evolve_loop a pop)),
        inr (fst (fst (evolve_loop a pop)), snd (evolve_loop a pop)))).
Proof.
  intros Hc. apply construct_inr in Hc. subst a.
  split; [cbn [mean A sigma]; auto|].
  intros pop Hdim prob a0. subst prob.
  assert (Ha0 : a0 = set_log [] {| m_gen := gen; m_eta_mu := eta_mu;
         m_eta_sigma := eta_sigma;
         m_eta_b := eta_b; m_sigma0 := sigma0; m_ftol := ftol;
         m_xtol := xtol; m_memory := true;
         sigma := sigma0; mean := [0]; A := [[1]];
         m_e := engine_seed seed; m_seed := seed; m_verbosity := O;
         m_log := [] |}).
  { unfold a0, reset_or_retain. cbv zeta. rewrite Hdim. reflexivity. }
  split; [rewrite Ha0; auto|].
  intros Hchk Hgen. split.
  - unfold evolve_loop. fold a0. rewrite Ha0, Hdim. reflexivity.
  - apply evolve_run_accepted; auto.
Qed.

End Memory.

Lemma first_call_keeps_constructor_state_witness :
  let pop := population_of (sphere 1) five_points in
  construct 1 (-1) (-1) (-1) (-1) 1e-6 1e-6 true 0
    = inr (default_xnes 1 true) /\
  sigma (reset_or_retain (set_log [] (default_xnes 1 true)) pop) = -1.
Proof.
  intros pop.
  assert (Hc : construct 1 (-1) (-1) (-1) (-1) 1e-6 1e-6 true 0
               = inr (default_xnes 1 true)).
  { unfold construct. rewrite out_of_range_sentinel. reflexivity. }
  split; [exact Hc|].
  exact (proj2 (proj2 (proj1 (proj2
           (first_call_keeps_constructor_state 1 (-1) (-1) (-1) (-1)
              1e-6 1e-6 0 (default_xnes 1 true) Hc) pop eq_refl)))).
Defined.

(* ================================================================== *)
(** ** Shapes and entries of vectors and matrices *)
(* ================================================================== *)

Lemma nth_map_seq {T : Type} (f : nat -> T) (n i : nat) (d : T) :
  (i < n)%nat -> nth i (map f (seq 0 n)) d = f i.
Proof.
  intros Hi. rewrite (nth_indep _ d (f O)) by (now rewrite length_map, length_seq).
  rewrite (map_nth f (seq 0 n) O i), seq_nth by assumption. reflexivity.
Qed.

Lemma map_nth_seq_id (x : vec) :
  map (fun i => nth i x 0) (seq 0 (length x)) = x.
Proof.
  apply (nth_ext _ _ 0 0).
  - now rewrite length_map, length_seq.
  - intros i Hi. rewrite length_map, length_seq in Hi.
    now rewrite nth_map_seq.
Qed.

Lemma identity_is_matrix (n : nat) : is_matrix n n (identity n).
Proof.
  unfold is_matrix, identity. split.
  - now rewrite length_map, length_seq.
  - apply Forall_forall. intros r Hr. apply in_map_iff in Hr.
    destruct Hr as [i [<- _]]. now rewrite length_map, length_seq.
Qed.

Lemma mat_get_identity (n i j : nat) :
  (i < n)%nat -> (j < n)%nat ->
  mat_get i j (identity n) = if (i =? j)%nat then 1 else 0.
Proof.
  intros Hi Hj. unfold mat_get, identity.
  rewrite (nth_map_seq _ n i []) by assumption.
  now rewrite nth_map_seq.
Qed.

Lemma is_matrix_row (n m : nat) (M : mat) (i : nat) :
  is_matrix n m M -> (i < n)%nat -> length (nth i M []) = m.
Proof.
  intros [Hl Hr] Hi. rewrite Forall_forall in Hr. apply Hr, nth_In. lia.
Qed.

Lemma Forall_upd {T : Type} (P : T -> Prop) (i : nat) (v : T) (l : list T) :
  Forall P l -> ((i < length l)%nat -> P v) -> Forall P (upd i v l).
Proof.
  intros Hl. revert i. induction Hl as [|h t Hh Ht IH]; intros [|i] Hv; simpl;
    constructor; auto.
  - apply Hv. simpl. lia.
  - apply IH. intros Hi. apply Hv. simpl. lia.
Qed.

Lemma mat_set_is_matrix (n m i j : nat) (v : R) (M : mat) :
  is_matrix n m M -> is_matrix n m (mat_set i j v M).
Proof.
  intros HM. pose proof HM as [Hl Hr]. unfold is_matrix, mat_set. split.
  - now rewrite upd_length.
  - apply Forall_upd; auto. intros Hi. rewrite upd_length.
    apply (is_matrix_row n m M i HM). lia.
Qed.

Lemma mat_get_mat_set_same (n m i j : nat) (v : R) (M : mat) :
  is_matrix n m M -> (i < n)%nat -> (j < m)%nat ->
  mat_get i j (mat_set i j v M) = v.
Proof.
  intros HM Hi Hj. pose proof HM as [Hl _]. unfold mat_get, mat_set.
  rewrite nth_upd_same by lia.
  apply nth_upd_same. rewrite (is_matrix_row n m M i HM Hi). exact Hj.
Qed.

Lemma mat_get_mat_set_other (i j i' j' : nat) (v : R) (M : mat) :
  i' <> i \/ j' <> j ->
  mat_get i' j' (mat_set i j v M) = mat_get i' j' M.
Proof.
  intros H. unfold mat_get, mat_set.
  destruct (Nat.eq_dec i' i) as [->|Hi].
  - destruct H as [H|H]; [congruence|].
    destruct (Nat.lt_ge_cases i (length M)) as [Hl|Hl].
    + rewrite nth_upd_same by assumption. apply nth_upd_other. congruence.
    + rewrite !(nth_overflow _ _ Hl).
      rewrite (nth_overflow (upd _ _ _)) by (now rewrite upd_length).
      reflexivity.
  - rewrite nth_upd_other by congruence. reflexivity.
Qed.

(** The diagonal written by the loop over [j] of the reset. *)
Lemma fold_diag_is_matrix (g : nat -> R) (n : nat) (js : list nat) (M : mat) :
  is_matrix n n M ->
  is_matrix n n (fold_left (fun M j => mat_set j j (g j) M) js M).
Proof.
  revert M. induction js as [|j js IH]; intros M HM; simpl; auto.
  apply IH, mat_set_is_matrix, HM.
Qed.

Lemma fold_diag_off (g : nat -> R) (js : list nat) (M : mat) (i k : nat) :
  i <> k \/ ~ In i js ->
  mat_get i k (fold_left (fun M j => mat_set j j (g j) M) js M) = mat_get i k M.
Proof.
  revert M. induction js as [|j js IH]; intros M H; simpl; auto.
  rewrite IH.
  - apply mat_get_mat_set_other.
    destruct H as [H|H]; [|left; intros ->; apply H; now left].
    destruct (Nat.eq_dec i j) as [->|]; [right; congruence | now left].
  - destruct H as [H|H]; [now left | right; intros Hin; apply H; now right].
Qed.

Lemma fold_diag_on (g : nat -> R) (n : nat) (js : list nat) (M : mat) (i : nat) :
  is_matrix n n M -> (i < n)%nat -> In i js ->
  mat_get i i (fold_left (fun M j => mat_set j j (g j) M) js M) = g i.
Proof.
  revert M. induction js as [|j js IH]; intros M HM Hi Hin; simpl.
  - contradiction.
  - destruct (in_dec Nat.eq_dec i js) as [Hjs|Hjs].
    + apply IH; auto. now apply mat_set_is_matrix.
    + destruct Hin as [->|Hin]; [|contradiction].
      rewrite fold_diag_off by (now right).
      now apply (mat_get_mat_set_same n n).
Qed.

Lemma initial_A_is_matrix (dim : nat) (lb ub : vec) (s : R) :
  is_matrix dim dim (initial_A dim lb ub s).
Proof. apply fold_diag_is_matrix, identity_is_matrix. Qed.

Lemma initial_A_entries (dim : nat) (lb ub : vec) (s : R) (i j : nat) :
  (i < dim)%nat -> (j < dim)%nat ->
  mat_get i j (initial_A dim lb ub s) =
    if (i =? j)%nat then Rmax (nth j ub 0 - nth j lb 0) 1e-6 * s else 0.
Proof.
  intros Hi Hj. unfold initial_A.
  destruct (Nat.eqb_spec i j) as [->|Hij].
  - apply (fold_diag_on (fun j => Rmax (nth j ub 0 - nth j lb 0) 1e-6 * s) dim).
    + apply identity_is_matrix.
    + exact Hj.
    + apply in_seq. lia.
  - rewrite fold_diag_off by (now left).
    rewrite mat_get_identity by assumption.
    destruct (Nat.eqb_spec i j); [contradiction | reflexivity].
Qed.

(** The best and worst indices are indices of the population. *)
Lemma select_idx_bound (better : R -> R -> bool) (vals : list R)
      (i bi : nat) (bv : R) :
  (bi < i)%nat -> (select_idx better vals i bi bv < i + length vals)%nat.
Proof.
  revert i bi bv. induction vals as [|v vals IH]; intros i bi bv Hb; simpl.
  - lia.
  - destruct (better v bv).
    + specialize (IH (S i) i v). lia.
    + specialize (IH (S i) bi bv). lia.
Qed.

Lemma best_idx_bound (pop : population) :
  (0 < length (get_f pop))%nat -> (best_idx pop < length (get_f pop))%nat.
Proof.
  intros H. unfold best_idx.
  pose proof (length_map (fun f => nth 0 f 0) (get_f pop)) as Hl.
  destruct (map (fun f => nth 0 f 0) (get_f pop)) as [|v vals];
    simpl in *; [lia|].
  pose proof (select_idx_bound Rltb vals 1 0 v Nat.lt_0_1) as Hb.
  rewrite <- Hl. exact Hb.
Qed.

Lemma worst_idx_bound (pop : population) :
  (0 < length (get_f pop))%nat -> (worst_idx pop < length (get_f pop))%nat.
Proof.
  intros H. unfold worst_idx.
  pose proof (length_map (fun f => nth 0 f 0) (get_f pop)) as Hl.
  destruct (map (fun f => nth 0 f 0) (get_f pop)) as [|v vals];
    simpl in *; [lia|].
  pose proof (select_idx_bound (fun x y => Rltb y x) vals 1 0 v Nat.lt_0_1)
    as Hb.
  rewrite <- Hl. exact Hb.
Qed.

(** The limit operator returns the limit of a convergent sequence, and
    the matrix exponential of a [1 x 1] matrix is the exponential of its
    entry. *)
Lemma lim_seq_unique (u : nat -> R) (l : R) : Un_cv u l -> lim_seq u = l.
Proof.
  intros H. unfold lim_seq. apply (UL_sequence u); [|exact H].
  apply epsilon_spec. exists l. exact H.
Qed.

Lemma mpow_1x1 (x : R) (k : nat) : mpow [[x]] k = [[x ^ k]].
Proof.
  induction k as [|k IH].
  - reflexivity.
  - cbn [mpow]. rewrite IH. unfold mat_mul, ncols, col. cbn.
    now rewrite Rplus_0_r.
Qed.

Lemma mexp_1x1 (x : R) : mexp [[x]] = [[exp x]].
Proof.
  unfold mexp. cbn [length seq map]. do 2 f_equal.
  apply lim_seq_unique.
  assert (H : exp_in x (exp x)) by (unfold exp; apply proj2_sig).
  intros eps Heps. destruct (H eps Heps) as [N HN]. exists N.
  intros n Hn. unfold mexp_partial.
  rewrite (sum_eq _ (fun i => / INR (fact i) * x ^ i)).
  - now apply HN.
  - intros i _. now rewrite mpow_1x1.
Qed.

(* ================================================================== *)
(** ** Erasing or keeping the memory at the start of a call *)
(* ================================================================== *)

Section Reset.

Context {RE : RandomEngine}.

Lemma reset_or_retain_erases (a : xnes) (pop : population) :
  m_memory a = false \/ length (mean a) <> get_nx (get_problem pop) ->
  let prob := get_problem pop in
  let s := if Req_dec_T (m_sigma0 a) (-1) then 1 else m_sigma0 a in
  reset_or_retain a pop =
    set_memory s
      (map (fun i => nth i (nth (best_idx pop) (get_x pop) []) 0)
           (seq 0 (get_nx prob)))
      (initial_A (get_nx prob) (get_lb prob) (get_ub prob) s) a.
Proof.
  intros H. unfold reset_or_retain. cbv zeta.
  destruct H as [H|H].
  - rewrite H. rewrite orb_true_r. reflexivity.
  - apply Nat.eqb_neq in H. rewrite H. reflexivity.
Qed.

Lemma reset_or_retain_keeps (a : xnes) (pop : population) :
  m_memory a = true -> length (mean a) = get_nx (get_problem pop) ->
  reset_or_retain a pop = a.
Proof.
  intros Hm Hd. unfold reset_or_retain. cbv zeta.
  apply Nat.eqb_eq in Hd. rewrite Hd, Hm. reflexivity.
Qed.

(** C5.  A call that passes the preamble with a nonzero budget enters the
    loop with the memory [reset_or_retain] leaves.  If retention is
    disabled or the stored mean has not the dimension [D] of the problem,
    then [sigma] is [sigma0], or [1] for the sentinel, [A] is the [D x D]
    diagonal matrix with [A_jj = max(ub_j - lb_j, 1e-6) * sigma], and
    [mean] is the decision vector of the best individual.  Otherwise
    [mean], [A] and [sigma] are those the instance holds from the previous
    call. *)
Theorem evolve_initial_memory (a : xnes) (pop : population) :
  population_wf pop ->
  check_problem pop = None -> m_gen a <> O ->
  let prob := get_problem pop in
  let dim := get_nx prob in
  let a0 := reset_or_retain (set_log [] a) pop in
  evolve_loop a pop =
    generations (m_gen a) dim (size pop) (get_lb prob) (get_ub prob)
                (utilities (size pop)) (learning_rates a dim)
                (get_fevals prob) 1 a0 pop /\
  evolve_run a pop =
    (snd (fst (evolve_loop a pop)),
     inr (fst (fst (evolve_loop a pop)), snd (evolve_loop a pop))) /\
  (m_memory a = false \/ length (mean a) <> dim ->
   sigma a0 = (if Req_dec_T (m_sigma0 a) (-1) then 1 else m_sigma0 a) /\
   is_matrix dim dim (A a0) /\
   (forall i j, (i < dim)%nat -> (j < dim)%nat ->
      mat_get i j (A a0) =
        if (i =? j)%nat
        then Rmax (nth j (get_ub prob) 0 - nth j (get_lb prob) 0) 1e-6
             * sigma a0
        else 0) /\
   mean a0 = nth (best_idx pop) (get_x pop) []) /\
  (m_memory a = true /\ length (mean a) = dim ->
   mean a0 = mean a /\ A a0 = A a /\ sigma a0 = sigma a).
Proof.
  intros [Hfx Hx] Hchk Hgen prob dim a0.
  split; [reflexivity|].
  split; [apply evolve_run_accepted; assumption|].
  split.
  - intros H. unfold a0.
    rewrite (reset_or_retain_erases (set_log [] a) pop H). cbv zeta.
    cbn [sigma A mean set_memory set_log m_sigma0].
    split; [reflexivity|].
    split; [apply initial_A_is_matrix|].
    split; [intros i j Hi Hj; now apply initial_A_entries|].
    apply check_problem_none in Hchk. destruct Hchk as [_ [_ Hsz]].
    unfold size in Hsz.
    assert (Hb : (best_idx pop < length (get_x pop))%nat).
    { rewrite <- Hfx. apply best_idx_bound. lia. }
    rewrite Forall_forall in Hx.
    rewrite <- (Hx (nth (best_idx pop) (get_x pop) [])) by (now apply nth_In).
    apply map_nth_seq_id.
  - intros [Hm Hd]. unfold a0.
    rewrite (reset_or_retain_keeps (set_log [] a) pop Hm Hd).
    auto.
Qed.

End Reset.

Lemma five_points_wf : population_wf (population_of (sphere 1) five_points).
Proof.
  split; [reflexivity|]. unfold five_points. simpl.
  repeat constructor.
Qed.

Lemma evolve_initial_memory_witness :
  let a := default_xnes 1 false in
  let pop := population_of (sphere 1) five_points in
  population_wf pop /\ check_problem pop = None /\ m_gen a <> O /\
  sigma (reset_or_retain (set_log [] a) pop) = 1.
Proof.
  intros a pop.
  assert (Hc : check_problem pop = None) by reflexivity.
  assert (Hg : m_gen a <> O) by discriminate.
  split; [exact five_points_wf|]. split; [exact Hc|]. split; [exact Hg|].
  pose proof (evolve_initial_memory a pop five_points_wf Hc Hg) as H.
  cbv zeta in H. destruct H as [_ [_ [H _]]].
  destruct (H (or_introl eq_refl)) as [Hs _].
  rewrite Hs. cbn [m_sigma0 a default_xnes].
  destruct (Req_dec_T (-1) (-1)); [reflexivity | congruence].
Defined.

(* ================================================================== *)
(** ** Sampling and the bound fix *)
(* ================================================================== *)

Section Sampling.

Context {RE : RandomEngine}.

Lemma draw_normals_length (dim : nat) (e : engine) :
  length (fst (draw_normals dim e)) = dim.
Proof.
  revert e. induction dim as [|n IH]; intros e; simpl; auto.
  destruct (normal_draw e) as [v e1].
  specialize (IH e1). destruct (draw_normals n e1) as [vs e2].
  simpl in *. now rewrite IH.
Qed.

Lemma vadd_length (u v : list R) :
  length (vadd u v) = Nat.min (length u) (length v).
Proof.
  revert v. induction u as [|a u IH]; intros [|b v]; simpl; auto.
Qed.

Lemma mat_vec_length (M : list (list R)) (v : list R) :
  length (mat_vec M v) = length M.
Proof. unfold mat_vec. apply length_map. Qed.

Variables (lb ub : list R).

Lemma fix_bounds_spec (js : list nat) (x : list R) (e : engine) :
  length (fst (fix_bounds js lb ub x e)) = length x /\
  forall j, (j < length x)%nat -> nth j lb 0 <= nth j ub 0 ->
            In j js \/ in_box lb ub j x ->
            in_box lb ub j (fst (fix_bounds js lb ub x e)).
Proof.
  revert x e. induction js as [|j0 js IH]; intros x e; simpl.
  - split; [reflexivity|]. intros j _ _ [[]|H]. exact H.
  - destruct (Rltb (nth j0 x 0) (nth j0 lb 0)
              || Rltb (nth j0 ub 0) (nth j0 x 0)) eqn:Eout.
    + pose proof (uniform_draw_range e) as Hr.
      destruct (uniform_draw e) as [r e1]. simpl in Hr.
      set (v := nth j0 lb 0 + r * (nth j0 ub 0 - nth j0 lb 0)).
      destruct (IH (upd j0 v x) e1) as [Hlen Hbox].
      rewrite upd_length in Hlen, Hbox.
      split; [exact Hlen|].
      intros j Hj Hord Hin. apply Hbox; auto.
      destruct (Nat.eq_dec j0 j) as [->|Hne].
      * right. unfold in_box. rewrite nth_upd_same by assumption.
        unfold v. split; nra.
      * destruct Hin as [[Heq|Hin]|Hin]; [contradiction | now left |].
        right. unfold in_box. rewrite nth_upd_other by assumption. exact Hin.
    + apply orb_false_iff in Eout. destruct Eout as [E1 E2].
      apply Rltb_false in E1. apply Rltb_false in E2.
      destruct (IH x e) as [Hlen Hbox].
      split; [exact Hlen|].
      intros j Hj Hord Hin. apply Hbox; auto.
      destruct Hin as [[Heq|Hin]|Hin]; [|now left|now right].
      subst j0. right. unfold in_box. lra.
Qed.

Lemma fix_bounds_untouched (js : list nat) (x : list R) (e : engine)
      (j : nat) :
  ~ In j js -> nth j (fst (fix_bounds js lb ub x e)) 0 = nth j x 0.
Proof.
  revert x e. induction js as [|j0 js IH]; intros x e Hj; simpl; auto.
  destruct (Rltb (nth j0 x 0) (nth j0 lb 0)
            || Rltb (nth j0 ub 0) (nth j0 x 0)).
  - destruct (uniform_draw e) as [r e1].
    rewrite IH by (intros H; apply Hj; now right).
    apply nth_upd_other. intros ->. apply Hj. now left.
  - apply IH. intros H. apply Hj. now right.
Qed.

(** What the fix does to a coordinate: one inside the box is kept, one
    outside is replaced by [lb_j + r (ub_j - lb_j)] for a uniform draw
    [r] of [[0, 1)]. *)
Lemma fix_bounds_coordinate (js : list nat) (x : list R) (e : engine)
      (j : nat) :
  NoDup js -> In j js -> (j < length x)%nat ->
  (in_box lb ub j x /\ nth j (fst (fix_bounds js lb ub x e)) 0 = nth j x 0) \/
  (~ in_box lb ub j x /\
   exists r, 0 <= r < 1 /\
     nth j (fst (fix_bounds js lb ub x e)) 0
     = nth j lb 0 + r * (nth j ub 0 - nth j lb 0)).
Proof.
  revert x e. induction js as [|j0 js IH]; intros x e Hnd Hin Hj.
  - contradiction.
  - inversion Hnd as [|? ? Hni Hnd']; subst. cbn [fix_bounds].
    destruct (Nat.eq_dec j0 j) as [->|Hne].
    + destruct (Rltb (nth j x 0) (nth j lb 0)
                || Rltb (nth j ub 0) (nth j x 0)) eqn:Eout.
      * pose proof (uniform_draw_range e) as Hr.
        destruct (uniform_draw e) as [r e1]. simpl in Hr.
        right. split.
        -- unfold in_box. apply orb_true_iff in Eout.
           destruct Eout as [E|E]; apply Rltb_true in E; lra.
        -- exists r. split; [exact Hr|].
           rewrite fix_bounds_untouched by assumption.
           now apply nth_upd_same.
      * left. apply orb_false_iff in Eout. destruct Eout as [E1 E2].
        apply Rltb_false in E1. apply Rltb_false in E2.
        split; [unfold in_box; lra|].
        now apply fix_bounds_untouched.
    + destruct Hin as [Heq|Hin]; [contradiction|].
      destruct (Rltb (nth j0 x 0) (nth j0 lb 0)
                || Rltb (nth j0 ub 0) (nth j0 x 0)).
      * destruct (uniform_draw e) as [r e1].
        set (x1 := upd j0 (nth j0 lb 0 + r * (nth j0 ub 0 - nth j0 lb 0)) x).
        assert (Hx1 : nth j x1 0 = nth j x 0)
          by (unfold x1; now apply nth_upd_other).
        destruct (IH x1 e1 Hnd' Hin) as [[Hb He]|[Hb He]].
        -- unfold x1. now rewrite upd_length.
        -- left. unfold in_box in *. rewrite Hx1 in Hb, He. auto.
        -- right. unfold in_box in *. rewrite Hx1 in Hb. auto.
      * now apply IH.
Qed.

(** The candidate is inside the box in every coordinate. *)
Lemma candidate_within_bounds (dim : nat) (mu : list R) (M : list (list R))
      (zi : list R) (e : engine) :
  bounds_ordered dim lb ub -> length mu = dim -> length M = dim ->
  length (fst (candidate dim lb ub mu M zi e)) = dim /\
  forall j, (j < dim)%nat ->
            nth j lb 0 <= nth j (fst (candidate dim lb ub mu M zi e)) 0
                       <= nth j ub 0.
Proof.
  intros Hord Hmu HM. unfold candidate.
  pose proof (fix_bounds_spec (seq 0 dim) (vadd mu (mat_vec M zi)) e)
    as [Hlen Hbox].
  destruct (fix_bounds (seq 0 dim) lb ub (vadd mu (mat_vec M zi)) e)
    as [x' e'].
  cbn [fst] in *.
  rewrite vadd_length, mat_vec_length, Hmu, HM, Nat.min_id in Hlen, Hbox.
  split; [now rewrite length_map, length_seq|].
  intros j Hj. rewrite nth_map_seq by assumption.
  apply Hbox; auto. left. apply in_seq. lia.
Qed.

Lemma candidate_coordinate (dim : nat) (mu : list R) (M : list (list R))
      (zi : list R) (e : engine) (j : nat) :
  length mu = dim -> length M = dim -> (j < dim)%nat ->
  let x0 := vadd mu (mat_vec M zi) in
  let c := fst (candidate dim lb ub mu M zi e) in
  (in_box lb ub j x0 /\ nth j c 0 = nth j x0 0) \/
  (~ in_box lb ub j x0 /\
   exists r, 0 <= r < 1 /\
     nth j c 0 = nth j lb 0 + r * (nth j ub 0 - nth j lb 0)).
Proof.
  intros Hmu HM Hj. cbv zeta. unfold candidate.
  pose proof (fix_bounds_coordinate (seq 0 dim) (vadd mu (mat_vec M zi)) e j
                (seq_NoDup _ _)) as H.
  destruct (fix_bounds (seq 0 dim) lb ub (vadd mu (mat_vec M zi)) e)
    as [x' e'].
  cbn [fst] in *. rewrite nth_map_seq by assumption.
  apply H.
  - apply in_seq. lia.
  - rewrite vadd_length, mat_vec_length, Hmu, HM, Nat.min_id. exact Hj.
Qed.

Lemma sample_individual_spec (dim : nat) (mu : list R) (M : list (list R))
      (i : nat) (pop : population) (e : engine) :
  let zi := fst (draw_normals dim e) in
  let e1 := snd (draw_normals dim e) in
  sample_individual dim lb ub mu M i pop e =
    (zi, set_x i (fst (candidate dim lb ub mu M zi e1)) pop,
     snd (candidate dim lb ub mu M zi e1)).
Proof.
  unfold sample_individual.
  destruct (draw_normals dim e) as [zi e1]. cbn [fst snd].
  destruct (candidate dim lb ub mu M zi e1) as [dumb e2]. reflexivity.
Qed.

Lemma set_x_size (i : nat) (x : list R) (pop : population) :
  size (set_x i x pop) = size pop.
Proof. unfold size, set_x. cbn. apply upd_length. Qed.

(** After the loop over [ids]: every listed individual holds the candidate
    made from its noise vector, the noise vector is the plain normal draw,
    and the individuals not listed are as before. *)
Lemma sample_population_spec (dim : nat) (mu : list R) (M : list (list R))
      (ids : list nat) (pop : population) (e : engine) :
  NoDup ids -> (forall i, In i ids -> (i < size pop)%nat) ->
  let r := sample_population ids dim lb ub mu M pop e in
  size (snd (fst r)) = size pop /\
  length (fst (fst r)) = length ids /\
  (forall i, ~ In i ids ->
             nth i (get_x (snd (fst r))) [] = nth i (get_x pop) []) /\
  (forall k, (k < length ids)%nat ->
     exists e0,
       nth k (fst (fst r)) [] = fst (draw_normals dim e0) /\
       nth (nth k ids O) (get_x (snd (fst r))) [] =
         fst (candidate dim lb ub mu M (nth k (fst (fst r)) [])
                        (snd (draw_normals dim e0)))).
Proof.
  revert pop e. induction ids as [|i ids IH]; intros pop e Hnd Hin; cbn zeta.
  - simpl. repeat split; auto. intros k Hk. lia.
  - cbn [sample_population].
    rewrite sample_individual_spec. cbv zeta.
    set (zi := fst (draw_normals dim e)).
    set (e1 := snd (draw_normals dim e)).
    set (pop1 := set_x i (fst (candidate dim lb ub mu M zi e1)) pop).
    set (e2 := snd (candidate dim lb ub mu M zi e1)).
    inversion Hnd as [|? ? Hni Hnd']; subst.
    assert (Hin' : forall i0, In i0 ids -> (i0 < size pop1)%nat).
    { intros i0 Hi0. unfold pop1. rewrite set_x_size. apply Hin. now right. }
    specialize (IH pop1 e2 Hnd' Hin'). cbv zeta in IH.
    destruct (sample_population ids dim lb ub mu M pop1 e2) as [[zs pop2] e3].
    cbn [fst snd] in *.
    destruct IH as (Hsz & Hlen & Hout & Hk).
    assert (Hi : (i < length (get_x pop))%nat) by (apply Hin; now left).
    split; [rewrite Hsz; apply set_x_size|].
    split; [simpl; now rewrite Hlen|].
    split.
    + intros i0 Hi0. rewrite Hout by (intros ?; apply Hi0; now right).
      unfold pop1, set_x. cbn [get_x]. apply nth_upd_other.
      intros ->. apply Hi0. now left.
    + intros [|k] Hlt.
      * exists e. cbn [nth]. split; [reflexivity|].
        rewrite Hout by assumption.
        unfold pop1, set_x. cbn [get_x]. now apply nth_upd_same.
      * cbn [nth]. apply Hk. simpl in Hlt. lia.
Qed.

(** Steps 0 and 1 of a generation, for every individual. *)
Lemma sampled_spec (dim : nat) (a : xnes) (pop : population) :
  bounds_ordered dim lb ub ->
  length (mean a) = dim -> length (A a) = dim ->
  let zs := fst (fst (sampled dim (size pop) lb ub a pop)) in
  let pop' := snd (fst (sampled dim (size pop) lb ub a pop)) in
  size pop' = size pop /\
  forall i, (i < size pop)%nat ->
    (forall j, (j < dim)%nat ->
       nth j lb 0 <= nth j (nth i (get_x pop') []) 0 <= nth j ub 0) /\
    exists e0,
      nth i zs [] = fst (draw_normals dim e0) /\
      nth i (get_x pop') [] =
        fst (candidate dim lb ub (mean a) (A a) (nth i zs [])
                       (snd (draw_normals dim e0))) /\
      forall j, (j < dim)%nat ->
        let x0 := vadd (mean a) (mat_vec (A a) (nth i zs [])) in
        (in_box lb ub j x0 /\
         nth j (nth i (get_x pop') []) 0 = nth j x0 0) \/
        (~ in_box lb ub j x0 /\
         exists r, 0 <= r < 1 /\
           nth j (nth i (get_x pop') []) 0
           = nth j lb 0 + r * (nth j ub 0 - nth j lb 0)).
Proof.
  intros Hord Hmu HA. unfold sampled.
  assert (Hrs : size (fst (reseed pop (m_e a))) = size pop).
  { unfold reseed. destruct (is_stochastic (get_problem pop)); [|reflexivity].
    destruct (uniform_int_draw (m_e a)). reflexivity. }
  destruct (reseed pop (m_e a)) as [pop0 e0]. cbn [fst] in Hrs.
  rewrite <- Hrs.
  pose proof (sample_population_spec dim (mean a) (A a) (seq 0 (size pop0))
                pop0 e0 (seq_NoDup _ _)) as H.
  cbv zeta in H.
  destruct H as (Hsz & Hlen & _ & Hk).
  { intros i Hi. apply in_seq in Hi. lia. }
  cbv zeta. split; [exact Hsz|].
  intros i Hi.
  destruct (Hk i) as [e1 [Hz Hx]]; [now rewrite length_seq|].
  rewrite seq_nth in Hx by assumption. cbn [Nat.add] in Hx.
  split.
  - intros j Hj. rewrite Hx.
    now apply candidate_within_bounds.
  - exists e1. split; [exact Hz|]. split; [exact Hx|].
    intros j Hj. rewrite Hx. now apply candidate_coordinate.
Qed.

(** C6.  In every generation, for every individual [i]: after the bound
    fix each coordinate [j] of the candidate lies in [[lb_j, ub_j]]; the
    noise vector [z_i] kept for the update is the plain normal draw, which
    the fix does not touch; the fixed candidate, made from
    [mean + A z_i], is the new decision vector of individual [i]; and a
    coordinate of [mean + A z_i] inside the box is kept while one outside
    is overwritten with [lb_j + r (ub_j - lb_j)], [r] uniform in [[0, 1)]. *)
Theorem sampled_candidates_within_bounds
        (dim : nat) (a : xnes) (pop : population) :
  bounds_ordered dim lb ub ->
  length (mean a) = dim -> length (A a) = dim ->
  let zs := fst (fst (sampled dim (size pop) lb ub a pop)) in
  let pop' := snd (fst (sampled dim (size pop) lb ub a pop)) in
  size pop' = size pop /\
  forall i, (i < size pop)%nat ->
    (forall j, (j < dim)%nat ->
       nth j lb 0 <= nth j (nth i (get_x pop') []) 0 <= nth j ub 0) /\
    exists e0,
      nth i zs [] = fst (draw_normals dim e0) /\
      nth i (get_x pop') [] =
        fst (candidate dim lb ub (mean a) (A a) (nth i zs [])
                       (snd (draw_normals dim e0))) /\
      forall j, (j < dim)%nat ->
        let x0 := vadd (mean a) (mat_vec (A a) (nth i zs [])) in
        (in_box lb ub j x0 /\
         nth j (nth i (get_x pop') []) 0 = nth j x0 0) \/
        (~ in_box lb ub j x0 /\
         exists r, 0 <= r < 1 /\
           nth j (nth i (get_x pop') []) 0
           = nth j lb 0 + r * (nth j ub 0 - nth j lb 0)).
Proof. exact (sampled_spec dim a pop). Qed.

End Sampling.

Lemma sphere_bounds_ordered (D : nat) :
  bounds_ordered D (get_lb (sphere D)) (get_ub (sphere D)).
Proof.
  intros j Hj. cbn [get_lb get_ub sphere].
  rewrite !nth_repeat_lt by assumption. lra.
Qed.

Lemma sampled_candidates_within_bounds_witness :
  let a := default_xnes 1 false in
  let pop := population_of (sphere 1) five_points in
  let pop' := snd (fst (sampled 1 (size pop) [-5] [5] a pop)) in
  bounds_ordered 1 [-5] [5] /\
  length (mean a) = 1%nat /\ length (A a) = 1%nat /\
  size pop' = 5%nat /\
  forall i, (i < 5)%nat -> -5 <= nth 0 (nth i (get_x pop') []) 0 <= 5.
Proof.
  intros a pop pop'.
  assert (Hb : bounds_ordered 1 [-5] [5]) by exact (sphere_bounds_ordered 1).
  split; [exact Hb|]. split; [reflexivity|]. split; [reflexivity|].
  pose proof (sampled_candidates_within_bounds [-5] [5] 1 a pop
                Hb eq_refl eq_refl) as H.
  cbv zeta in H. destruct H as [Hs Hi].
  split; [exact Hs|].
  intros i Hlt. exact (proj1 (Hi i Hlt) O Nat.lt_0_1).
Defined.

(* ================================================================== *)
(** ** The log *)
(* ================================================================== *)

Section Log.

Context {RE : RandomEngine}.

Variables (dim lam : nat) (lb ub : list R) (u : list R) (rates : R * R * R)
          (fevals0 : nat).

Lemma update_distribution_log (z : list (list R)) (s_idx : list nat)
      (a : xnes) :
  m_log (update_distribution dim u rates z s_idx a) = m_log a /\
  m_verbosity (update_distribution dim u rates z s_idx a) = m_verbosity a.
Proof. destruct rates as [[eta_mu eta_sigma] eta_b]. split; reflexivity. Qed.

Lemma log_generation_verbosity (a : xnes) (gen : nat) (z : list (list R))
      (pop : population) :
  m_verbosity (log_generation a fevals0 gen z pop) = m_verbosity a.
Proof.
  unfold log_generation.
  destruct (0 <? m_verbosity a)%nat; [|reflexivity].
  destruct ((gen mod m_verbosity a =? 1)%nat || (m_verbosity a =? 1)%nat);
    reflexivity.
Qed.

Lemma log_generation_log (a : xnes) (gen : nat) (z : list (list R))
      (pop : population) :
  exists l, m_log (log_generation a fevals0 gen z pop) = m_log a ++ l /\
            (m_verbosity a = O -> l = []) /\
            Forall (fun line => log_gen line = gen) l.
Proof.
  unfold log_generation.
  destruct (Nat.ltb_spec 0 (m_verbosity a)) as [Hv|Hv].
  - destruct ((gen mod m_verbosity a =? 1)%nat || (m_verbosity a =? 1)%nat).
    + eexists. cbn [m_log set_log]. split; [reflexivity|].
      split; [intros; lia|]. repeat constructor.
    + exists []. rewrite app_nil_r. auto.
  - exists []. rewrite app_nil_r. auto.
Qed.

(** The first generation of a verbose call writes a line. *)
Lemma log_generation_first (a : xnes) (z : list (list R)) (pop : population) :
  (0 < m_verbosity a)%nat ->
  exists line, m_log (log_generation a fevals0 1 z pop) = m_log a ++ [line].
Proof.
  intros Hv. unfold log_generation.
  destruct (Nat.ltb_spec 0 (m_verbosity a)) as [_|]; [|lia].
  assert (Hc : (1 mod m_verbosity a =? 1)%nat || (m_verbosity a =? 1)%nat
               = true).
  { destruct (Nat.eq_dec (m_verbosity a) 1) as [->|Hne].
    - reflexivity.
    - rewrite Nat.mod_small by lia. reflexivity. }
  rewrite Hc. eexists. reflexivity.
Qed.

Lemma generation_log (gen : nat) (a : xnes) (pop : population) :
  let a' := snd (fst (generation dim lam lb ub u rates fevals0 gen a pop)) in
  m_verbosity a' = m_verbosity a /\
  exists l, m_log a' = m_log a ++ l /\
            (m_verbosity a = O -> l = []) /\
            Forall (fun line => log_gen line = gen) l.
Proof.
  unfold generation.
  destruct (sampled dim lam lb ub a pop) as [[z pop1] e1].
  destruct (check_exit (set_engine e1 a) gen z pop1).
  - cbn. split; [reflexivity|]. exists []. rewrite app_nil_r. auto.
  - cbn [fst snd].
    destruct (update_distribution_log z (sort_indices pop1 lam)
                (log_generation (set_engine e1 a) fevals0 gen z pop1))
      as [-> ->].
    rewrite log_generation_verbosity. split; [reflexivity|].
    apply (log_generation_log (set_engine e1 a)).
Qed.

Lemma generation_first_log (a : xnes) (pop : population) :
  (0 < m_verbosity a)%nat ->
  let r := generation dim lam lb ub u rates fevals0 1 a pop in
  fst (fst r) = None /\ exists line, m_log (snd (fst r)) = m_log a ++ [line].
Proof.
  intros Hv. unfold generation.
  destruct (sampled dim lam lb ub a pop) as [[z pop1] e1].
  unfold check_exit. cbn [Nat.modulo Nat.divmod fst snd Nat.sub Nat.eqb].
  split; [reflexivity|].
  destruct (update_distribution_log z (sort_indices pop1 lam)
              (log_generation (set_engine e1 a) fevals0 1 z pop1))
    as [-> _].
  apply (log_generation_first (set_engine e1 a)). exact Hv.
Qed.

Lemma generations_log (n gen : nat) (a : xnes) (pop : population) :
  let a' := snd (fst (generations n dim lam lb ub u rates fevals0 gen a pop)) in
  m_verbosity a' = m_verbosity a /\
  exists l, m_log a' = m_log a ++ l /\
            (m_verbosity a = O -> l = []) /\
            Forall (fun line => (gen <= log_gen line < gen + n)%nat) l.
Proof.
  revert gen a pop. induction n as [|n IH]; intros gen a pop; cbv zeta.
  - cbn. split; [reflexivity|]. exists []. rewrite app_nil_r. auto.
  - cbn [generations].
    pose proof (generation_log gen a pop) as Hg. cbv zeta in Hg.
    destruct (generation dim lam lb ub u rates fevals0 gen a pop)
      as [[[why|] a1] pop1]; cbn [fst snd] in Hg.
    + destruct Hg as [Hv (l & Hl & H0 & Hgen)].
      assert (Hr : Forall (fun line => (gen <= log_gen line < gen + S n)%nat) l).
      { eapply Forall_impl; [|exact Hgen]. cbv beta. intros; lia. }
      destruct why; cbn [fst snd]; (split; [exact Hv|]);
        exists l; auto.
    + destruct Hg as [Hv (l & Hl & H0 & Hgen)].
      specialize (IH (S gen) a1 pop1). cbv zeta in IH.
      destruct IH as [Hv' (l' & Hl' & H0' & Hgen')].
      split; [congruence|].
      exists (l ++ l'). split; [rewrite Hl', Hl; symmetry; apply app_assoc|].
      split.
      * intros Hz. rewrite H0 by assumption. rewrite H0' by congruence.
        reflexivity.
      * apply Forall_app. split.
        -- eapply Forall_impl; [|exact Hgen]. cbv beta. intros; lia.
        -- eapply Forall_impl; [|exact Hgen']. cbv beta. intros; lia.
Qed.

End Log.

Section LogOfEvolve.

Context {RE : RandomEngine}.

Lemma reset_or_retain_log (a : xnes) (pop : population) :
  m_log (reset_or_retain a pop) = m_log a /\
  m_verbosity (reset_or_retain a pop) = m_verbosity a.
Proof.
  unfold reset_or_retain. cbv zeta.
  destruct (negb _ || eqb _ _); split; reflexivity.
Qed.

Lemma evolve_loop_log (a : xnes) (pop : population) :
  let a' := snd (fst (evolve_loop a pop)) in
  m_verbosity a' = m_verbosity a /\
  Forall (fun line => (1 <= log_gen line <= m_gen a)%nat) (m_log a') /\
  (m_verbosity a = O -> m_log a' = []).
Proof.
  unfold evolve_loop. cbv zeta.
  match goal with
  | |- context [generations ?n ?d ?l ?lb ?ub ?u ?r ?f ?g ?a0 ?p] =>
      pose proof (generations_log d l lb ub u r f n g a0 p) as H
  end.
  cbv zeta in H. destruct H as [Hv (l & Hl & H0 & Hgen)].
  destruct (reset_or_retain_log (set_log [] a) pop) as [Hrl Hrv].
  rewrite Hrl in Hl. rewrite Hrv in Hv, H0. cbn in Hl, Hv, H0.
  rewrite Hl, Hv. split; [reflexivity|]. split.
  - eapply Forall_impl; [|exact Hgen]. cbv beta. intros; lia.
  - exact H0.
Qed.

Lemma evolve_loop_forgets_log (a : xnes) (pop : population) (l : log_type) :
  evolve_loop (set_log l a) pop = evolve_loop a pop.
Proof. reflexivity. Qed.

(** A verbose call that enters the loop leaves a log that is not empty:
    the first generation writes a line. *)
Lemma evolve_verbose_logs (a : xnes) (pop : population) :
  check_problem pop = None -> m_gen a <> O -> (0 < m_verbosity a)%nat ->
  m_log (fst (evolve a pop)) <> [].
Proof.
  intros Hc Hg Hv.
  rewrite evolve_of_run, (evolve_run_accepted a pop Hc Hg). cbn [fst].
  unfold evolve_loop. cbv zeta.
  destruct (m_gen a) as [|n]; [congruence|]. cbn [generations].
  destruct (reset_or_retain_log (set_log [] a) pop) as [_ Hrv].
  match goal with
  | |- context [generation ?d ?l ?lb ?ub ?u ?r ?f 1 ?a0 ?p] =>
      pose proof (generation_first_log d l lb ub u r f a0 p) as H;
      destruct (generation d l lb ub u r f 1 a0 p) as [[why a1] pop1]
  end.
  cbv zeta in H. cbn [fst snd] in H.
  destruct H as [-> [line Hline]]; [rewrite Hrv; exact Hv|].
  match goal with
  | |- context [generations ?n ?d ?l ?lb ?ub ?u ?r ?f ?g ?a0 ?p] =>
      pose proof (generations_log d l lb ub u r f n g a0 p) as H
  end.
  cbv zeta in H. destruct H as [_ (l' & Hl' & _)].
  rewrite Hl', Hline. intros Habs.
  apply app_eq_nil in Habs. destruct Habs as [Habs _].
  apply app_eq_nil in Habs. destruct Habs as [_ Habs]. discriminate.
Qed.

End LogOfEvolve.

(* ================================================================== *)
(** ** Ranking the population *)
(* ================================================================== *)

Section Ranking.

Variable key : nat -> R.

Lemma insert_idx_perm (i : nat) (l : list nat) :
  Permutation (insert_idx key i l) (i :: l).
Proof.
  induction l as [|h t IH]; simpl.
  - apply Permutation_refl.
  - destruct (Rltb (key h) (key i)).
    + eapply perm_trans; [apply perm_skip, IH | apply perm_swap].
    + apply Permutation_refl.
Qed.

Lemma insert_idx_sorted (i : nat) (l : list nat) :
  StronglySorted (fun a b => key a <= key b) l ->
  StronglySorted (fun a b => key a <= key b) (insert_idx key i l).
Proof.
  induction 1 as [|h t Ht IH Hh]; simpl.
  - repeat constructor.
  - destruct (Rltb (key h) (key i)) eqn:E.
    + apply Rltb_true in E. constructor; [exact IH|].
      eapply Permutation_Forall; [symmetry; apply insert_idx_perm|].
      constructor; [lra | exact Hh].
    + apply Rltb_false in E. constructor.
      * constructor; assumption.
      * constructor; [lra|].
        eapply Forall_impl; [|exact Hh]. cbv beta. intros; lra.
Qed.

End Ranking.

Lemma sort_indices_perm (pop : population) (lam : nat) :
  Permutation (sort_indices pop lam) (seq 0 lam).
Proof.
  unfold sort_indices. induction (seq 0 lam) as [|i l IH]; simpl.
  - constructor.
  - eapply perm_trans; [apply insert_idx_perm | now apply perm_skip].
Qed.

Lemma sort_indices_sorted (pop : population) (lam : nat) :
  StronglySorted (fun a b => f0 pop a <= f0 pop b) (sort_indices pop lam).
Proof.
  unfold sort_indices. induction (seq 0 lam) as [|i l IH]; simpl.
  - constructor.
  - now apply insert_idx_sorted.
Qed.

Lemma sort_indices_length (pop : population) (lam : nat) :
  length (sort_indices pop lam) = lam.
Proof.
  rewrite (Permutation_length (sort_indices_perm pop lam)).
  apply length_seq.
Qed.

Lemma sort_indices_range (pop : population) (lam i : nat) :
  (i < lam)%nat -> (nth i (sort_indices pop lam) O < lam)%nat.
Proof.
  intros Hi.
  assert (Hin : In (nth i (sort_indices pop lam) O) (sort_indices pop lam))
    by (apply nth_In; now rewrite sort_indices_length).
  apply (Permutation_in _ (sort_indices_perm pop lam)) in Hin.
  apply in_seq in Hin. lia.
Qed.

(* ================================================================== *)
(** ** The source's update against the specified update *)
(* ================================================================== *)

Lemma vscale_length (c : R) (v : list R) : length (vscale c v) = length v.
Proof. apply length_map. Qed.

Lemma vsub_length (u v : list R) :
  length (vsub u v) = Nat.min (length u) (length v).
Proof.
  revert v. induction u as [|a u IH]; intros [|b v]; simpl; auto.
Qed.

Lemma vadd_vzero_l (D : nat) (t : list R) :
  length t = D -> vadd (vzero D) t = t.
Proof.
  revert D. induction t as [|x t IH]; intros [|D] H; simpl in *;
    try discriminate; auto.
  rewrite Rplus_0_l. f_equal. apply IH. lia.
Qed.

Lemma madd_zero_rows_l (n m : nat) (T : list (list R)) :
  is_matrix n m T -> madd (repeat (vzero m) n) T = T.
Proof.
  intros [Hl Hr]. revert n Hl.
  induction Hr as [|r T Hrow _ IH]; intros [|n] Hl; simpl in *;
    try discriminate; auto.
  rewrite vadd_vzero_l by assumption. f_equal. apply IH. lia.
Qed.

Lemma outer_is_matrix (u v : list R) :
  is_matrix (length u) (length v) (outer u v).
Proof.
  unfold is_matrix, outer. split; [apply length_map|].
  apply Forall_forall. intros r Hr. apply in_map_iff in Hr.
  destruct Hr as [x [<- _]]. apply vscale_length.
Qed.

Lemma msub_is_matrix (n m : nat) (M N : list (list R)) :
  is_matrix n m M -> is_matrix n m N -> is_matrix n m (msub M N).
Proof.
  intros [HlM HrM] [HlN HrN]. subst n. revert N HlN HrN.
  induction HrM as [|r M Hrow _ IH]; intros [|s N] HlN HrN; simpl in *;
    try discriminate.
  - split; auto.
  - inversion HrN; subst.
    destruct (IH N) as [Hl Hr]; [lia | assumption |].
    split; [simpl; lia|].
    constructor; [|exact Hr]. rewrite vsub_length. lia.
Qed.

Lemma mscale_is_matrix (n m : nat) (c : R) (M : list (list R)) :
  is_matrix n m M -> is_matrix n m (mscale c M).
Proof.
  intros [Hl Hr]. unfold is_matrix, mscale. split; [now rewrite length_map|].
  apply Forall_forall. intros r Hin. apply in_map_iff in Hin.
  destruct Hin as [x [<- Hx]]. rewrite vscale_length.
  rewrite Forall_forall in Hr. now apply Hr.
Qed.

Lemma dot_vscale_l (c : R) (r v : list R) :
  dot (vscale c r) v = c * dot r v.
Proof.
  revert v. induction r as [|a r IH]; intros [|b v]; simpl; try lra.
  unfold vscale in IH. rewrite IH. lra.
Qed.

Lemma mat_vec_mscale (c : R) (M : list (list R)) (v : list R) :
  mat_vec (mscale c M) v = vscale c (mat_vec M v).
Proof.
  unfold mat_vec, mscale, vscale. rewrite !map_map.
  apply map_ext. intros r. apply dot_vscale_l.
Qed.

Lemma fold_left_terms {T : Type} (op : T -> T -> T) (f : nat -> T)
      (l : list nat) (acc : T) :
  fold_left (fun acc i => op acc (f i)) l acc = fold_left op (map f l) acc.
Proof.
  revert acc. induction l as [|i l IH]; intros acc; simpl; auto.
Qed.

Lemma nth_ranked (z : list (list R)) (s_idx : list nat) (i : nat) :
  (i < length s_idx)%nat ->
  nth i (Spec.ranked z s_idx) [] = nth (nth i s_idx O) z [].
Proof.
  intros Hi. unfold Spec.ranked.
  rewrite (nth_indep _ [] (nth O z [])) by (now rewrite length_map).
  apply (map_nth (fun k => nth k z [])).
Qed.

Section Refinement.

Variables (dim : nat) (u : list R) (z : list (list R)) (s_idx : list nat).

Hypothesis u_nonempty : (1 <= length u)%nat.
Hypothesis s_idx_length : length s_idx = length u.
Hypothesis best_noise_length : length (nth (nth 0 s_idx O) z []) = dim.

Lemma d_center_of_spec :
  d_center_of u z s_idx = Spec.d_center dim u (Spec.ranked z s_idx).
Proof.
  unfold d_center_of, Spec.d_center, Spec.vsum.
  destruct (length u) as [|n] eqn:Hu; [lia|].
  rewrite <- cons_seq. cbn [map fold_left]. rewrite Nat.sub_succ, Nat.sub_0_r.
  rewrite nth_ranked by lia.
  rewrite vadd_vzero_l by (now rewrite vscale_length).
  rewrite fold_left_terms. f_equal.
  apply map_ext_in. intros i Hi. apply in_seq in Hi.
  rewrite nth_ranked by lia. reflexivity.
Qed.

Lemma cov_term_is_matrix :
  is_matrix dim dim (cov_term (identity dim) u z s_idx 0).
Proof.
  unfold cov_term. apply mscale_is_matrix, msub_is_matrix.
  - rewrite <- best_noise_length at 1 2. apply outer_is_matrix.
  - apply identity_is_matrix.
Qed.

Lemma cov_grad_of_spec :
  cov_grad_of (identity dim) u z s_idx
  = Spec.cov_grad dim u (Spec.ranked z s_idx).
Proof.
  unfold cov_grad_of, Spec.cov_grad, Spec.msum, Spec.mzero.
  pose proof cov_term_is_matrix as Hm. unfold cov_term in *.
  destruct (length u) as [|n] eqn:Hu; [lia|].
  rewrite <- cons_seq. cbn [map fold_left]. rewrite Nat.sub_succ, Nat.sub_0_r.
  rewrite nth_ranked by lia.
  rewrite (madd_zero_rows_l dim dim) by exact Hm.
  rewrite fold_left_terms. f_equal.
  apply map_ext_in. intros i Hi. apply in_seq in Hi.
  rewrite nth_ranked by lia. reflexivity.
Qed.

End Refinement.

Section Update.

Context {RE : RandomEngine}.

Lemma update_distribution_spec (dim : nat) (u : list R)
      (eta_mu eta_sigma eta_b : R) (z : list (list R)) (s_idx : list nat)
      (a : xnes) :
  (1 <= length u)%nat ->
  length s_idx = length u ->
  length (nth (nth 0 s_idx O) z []) = dim ->
  let a' := update_distribution dim u (eta_mu, eta_sigma, eta_b) z s_idx a in
  (mean a', A a', sigma a') =
    Spec.update dim u (Spec.ranked z s_idx) eta_mu eta_sigma eta_b
                (mean a) (A a) (sigma a).
Proof.
  intros Hu Hs Hz. cbv zeta.
  unfold update_distribution, Spec.update, Spec.d_A.
  cbn [mean A sigma set_memory].
  rewrite (d_center_of_spec dim u z s_idx Hu Hs Hz).
  rewrite (cov_grad_of_spec dim u z s_idx Hu Hs Hz).
  rewrite mat_vec_mscale.
  set (tr := trace (Spec.cov_grad dim u (Spec.ranked z s_idx))).
  replace (eta_sigma * tr / INR dim) with (eta_sigma * (tr / INR dim))
    by (unfold Rdiv; ring).
  replace (eta_sigma / 2 * tr / INR dim) with (eta_sigma / 2 * (tr / INR dim))
    by (unfold Rdiv; ring).
  reflexivity.
Qed.

(** The noise vectors of a generation have the dimension of the problem. *)
Lemma sampled_noise_length (dim : nat) (lb ub : list R) (a : xnes)
      (pop : population) (i : nat) :
  (i < size pop)%nat ->
  length (nth i (fst (fst (sampled dim (size pop) lb ub a pop))) []) = dim.
Proof.
  intros Hi. unfold sampled.
  assert (Hrs : size (fst (reseed pop (m_e a))) = size pop).
  { unfold reseed. destruct (is_stochastic (get_problem pop)); [|reflexivity].
    destruct (uniform_int_draw (m_e a)). reflexivity. }
  destruct (reseed pop (m_e a)) as [pop0 e0]. cbn [fst] in Hrs.
  rewrite <- Hrs in *.
  pose proof (sample_population_spec lb ub dim (mean a) (A a)
                (seq 0 (size pop0)) pop0 e0 (seq_NoDup _ _)) as H.
  cbv zeta in H.
  destruct H as (_ & _ & _ & Hk).
  { intros k Hin. apply in_seq in Hin. lia. }
  destruct (Hk i) as [e1 [Hz _]]; [now rewrite length_seq|].
  rewrite Hz. apply draw_normals_length.
Qed.

(** A generation that does not return ends with the update of step 4,
    applied to the noise of this generation ranked by the fitness of the
    re-evaluated population. *)
Lemma generation_continues (dim lam : nat) (lb ub : list R) (u : list R)
      (rates : R * R * R) (fevals0 gen : nat) (a : xnes) (pop : population) :
  let z := fst (fst (sampled dim lam lb ub a pop)) in
  let pop1 := snd (fst (sampled dim lam lb ub a pop)) in
  let e1 := snd (sampled dim lam lb ub a pop) in
  fst (fst (generation dim lam lb ub u rates fevals0 gen a pop)) = None ->
  generation dim lam lb ub u rates fevals0 gen a pop =
    (None,
     update_distribution dim u rates z (sort_indices pop1 lam)
       (log_generation (set_engine e1 a) fevals0 gen z pop1),
     pop1).
Proof.
  unfold generation.
  destruct (sampled dim lam lb ub a pop) as [[z pop1] e1]. cbn [fst snd].
  destruct (check_exit (set_engine e1 a) gen z pop1); cbn [fst].
  - discriminate.
  - reflexivity.
Qed.

Lemma log_generation_memory (a : xnes) (fevals0 gen : nat)
      (z : list (list R)) (pop : population) :
  mean (log_generation a fevals0 gen z pop) = mean a /\
  A (log_generation a fevals0 gen z pop) = A a /\
  sigma (log_generation a fevals0 gen z pop) = sigma a.
Proof.
  unfold log_generation.
  destruct (0 <? m_verbosity a)%nat; [|auto].
  destruct ((gen mod m_verbosity a =? 1)%nat || (m_verbosity a =? 1)%nat);
    auto.
Qed.

(** C4.  In a generation that goes on to the update, the indices are
    sorted by ascending fitness, the noise vectors are paired with the
    utility weights in that rank order, and the new [mean], [A] and
    [sigma] are those of the specified update: [d_center = sum_i u_i z_i],
    [cov_grad = sum_i u_i (z_i z_i^T - I)] with its trace [tr] taken out,
    [d_A = 0.5 (eta_sigma (tr/D) I + eta_b cov_grad)],
    [mean + eta_mu A d_center], [A exp(d_A)] and
    [sigma exp((eta_sigma/2) (tr/D))]. *)
Theorem natural_gradient_update_as_specified
        (dim : nat) (lb ub : list R) (eta_mu eta_sigma eta_b : R)
        (fevals0 gen : nat) (a : xnes) (pop : population) :
  (1 <= size pop)%nat ->
  let lam := size pop in
  let u := utilities lam in
  let r := generation dim lam lb ub u (eta_mu, eta_sigma, eta_b)
                      fevals0 gen a pop in
  let z := fst (fst (sampled dim lam lb ub a pop)) in
  let pop1 := snd (fst (sampled dim lam lb ub a pop)) in
  let s_idx := sort_indices pop1 lam in
  let a' := snd (fst r) in
  fst (fst r) = None ->
  Permutation s_idx (seq 0 lam) /\
  StronglySorted (fun i j => f0 pop1 i <= f0 pop1 j) s_idx /\
  (mean a', A a', sigma a') =
    Spec.update dim u (Spec.ranked z s_idx) eta_mu eta_sigma eta_b
                (mean a) (A a) (sigma a).
Proof.
  intros Hlam lam u r z pop1 s_idx a' Hgo.
  split; [apply sort_indices_perm|].
  split; [apply sort_indices_sorted|].
  unfold a', r. rewrite generation_continues by exact Hgo. cbn [fst snd].
  fold z pop1 s_idx.
  set (al := log_generation _ _ _ _ _).
  assert (Hu : length u = lam).
  { unfold u, utilities. cbv zeta. rewrite length_map.
    apply raw_utilities_length. }
  pose proof (update_distribution_spec dim u eta_mu eta_sigma eta_b z s_idx al)
    as H.
  cbv zeta in H. rewrite H.
  - unfold al.
    destruct (log_generation_memory
                (set_engine (snd (sampled dim lam lb ub a pop)) a)
                fevals0 gen z pop1) as [-> [-> ->]].
    reflexivity.
  - lia.
  - unfold s_idx. rewrite sort_indices_length. now rewrite Hu.
  - unfold z, lam. apply sampled_noise_length.
    apply sort_indices_range. exact Hlam.
Qed.

End Update.

Lemma natural_gradient_update_as_specified_witness :
  let a := default_xnes 1 false in
  let pop := population_of (sphere 1) five_points in
  let r := generation 1 5 [-5] [5] (utilities 5) (1, 1 / 2, 1 / 2) 0 1 a pop in
  (1 <= size pop)%nat /\ fst (fst r) = None /\
  Permutation
    (sort_indices (snd (fst (sampled 1 5 [-5] [5] a pop))) 5) (seq 0 5).
Proof.
  intros a pop r.
  assert (Hs : (1 <= size pop)%nat) by (cbn; lia).
  assert (Hgo : fst (fst r) = None).
  { destruct (fst (fst r)) as [why|] eqn:E; [|reflexivity].
    assert (Hne : fst (fst r) <> None) by (rewrite E; discriminate).
    apply generation_stops_iff in Hne. destruct Hne as [Hm _].
    discriminate Hm. }
  split; [exact Hs|]. split; [exact Hgo|].
  exact (proj1 (natural_gradient_update_as_specified
                  1 [-5] [5] 1 (1 / 2) (1 / 2) 0 1 a pop Hs Hgo)).
Defined.

(* ================================================================== *)
(** ** Invariants of the generation loop and of the instance *)
(* ================================================================== *)

Section Invariants.

Context {RE : RandomEngine}.

Variables (dim lam : nat) (lb ub : list R) (u : list R) (rates : R * R * R)
          (fevals0 : nat).

Lemma mat_mul_length (M N : list (list R)) : length (mat_mul M N) = length M.
Proof. unfold mat_mul. apply length_map. Qed.

Lemma update_distribution_shape (z : list (list R)) (s_idx : list nat)
      (a : xnes) :
  memory_shaped dim a ->
  memory_shaped dim (update_distribution dim u rates z s_idx a) /\
  m_gen (update_distribution dim u rates z s_idx a) = m_gen a.
Proof.
  intros [Hm HA]. destruct rates as [[eta_mu eta_sigma] eta_b].
  unfold memory_shaped, update_distribution. cbn [mean A m_gen set_memory].
  split; [|reflexivity]. split.
  - rewrite vadd_length, mat_vec_length. unfold mscale.
    rewrite length_map. lia.
  - now rewrite mat_mul_length.
Qed.

Lemma log_generation_m_gen (a : xnes) (gen : nat) (z : list (list R))
      (pop : population) :
  m_gen (log_generation a fevals0 gen z pop) = m_gen a.
Proof.
  unfold log_generation.
  destruct (0 <? m_verbosity a)%nat; [|reflexivity].
  destruct ((gen mod m_verbosity a =? 1)%nat || (m_verbosity a =? 1)%nat);
    reflexivity.
Qed.

Lemma generation_shape (gen : nat) (a : xnes) (pop : population) :
  memory_shaped dim a ->
  let r := generation dim lam lb ub u rates fevals0 gen a pop in
  memory_shaped dim (snd (fst r)) /\ m_gen (snd (fst r)) = m_gen a /\
  snd r = snd (fst (sampled dim lam lb ub a pop)).
Proof.
  intros Hs. unfold generation.
  destruct (sampled dim lam lb ub a pop) as [[z pop1] e1].
  destruct (check_exit (set_engine e1 a) gen z pop1); cbn [fst snd].
  - auto.
  - destruct (log_generation_memory (set_engine e1 a) fevals0 gen z pop1)
      as [Hm [HA _]].
    destruct (update_distribution_shape z (sort_indices pop1 lam)
                (log_generation (set_engine e1 a) fevals0 gen z pop1))
      as [Hshape Hgen].
    { unfold memory_shaped. rewrite Hm, HA. exact Hs. }
    rewrite Hgen, log_generation_m_gen. auto.
Qed.

Lemma generations_shape (n gen : nat) (a : xnes) (pop : population) :
  memory_shaped dim a ->
  let r := generations n dim lam lb ub u rates fevals0 gen a pop in
  memory_shaped dim (snd (fst r)) /\ m_gen (snd (fst r)) = m_gen a.
Proof.
  revert gen a pop. induction n as [|n IH]; intros gen a pop Hs; cbv zeta.
  - cbn. auto.
  - cbn [generations].
    pose proof (generation_shape gen a pop Hs) as Hg. cbv zeta in Hg.
    destruct (generation dim lam lb ub u rates fevals0 gen a pop)
      as [[[why|] a1] pop1]; cbn [fst snd] in Hg;
      destruct Hg as [Hs1 [Hg1 _]].
    + destruct why; cbn [fst snd]; auto.
    + destruct (IH (S gen) a1 pop1 Hs1) as [Hs2 Hg2].
      split; [exact Hs2 | congruence].
Qed.

(** Every generation leaves a population of the same size inside the box,
    so the population the loop ends with is inside the box as soon as one
    generation has run. *)
Lemma generations_within_bounds (n gen : nat) (a : xnes) (pop : population) :
  bounds_ordered dim lb ub -> memory_shaped dim a -> size pop = lam ->
  let r := generations n dim lam lb ub u rates fevals0 gen a pop in
  size (snd r) = lam /\
  (within_bounds dim lb ub pop \/ (1 <= n)%nat ->
   within_bounds dim lb ub (snd r)).
Proof.
  intros Hord. revert gen a pop.
  induction n as [|n IH]; intros gen a pop Hs Hsz; cbv zeta.
  - cbn. split; [exact Hsz|]. intros [H|H]; [exact H | lia].
  - cbn [generations].
    pose proof (generation_shape gen a pop Hs) as Hg. cbv zeta in Hg.
    destruct Hs as [Hm HA].
    pose proof (sampled_spec lb ub dim a pop Hord Hm HA) as Hsam.
    cbv zeta in Hsam. rewrite Hsz in Hsam. destruct Hsam as [Hsz1 Hin].
    assert (Hwb : within_bounds dim lb ub
                    (snd (fst (sampled dim lam lb ub a pop)))).
    { intros i j Hi Hj. rewrite Hsz1 in Hi.
      destruct (Hin i Hi) as [Hb _]. now apply Hb. }
    destruct (generation dim lam lb ub u rates fevals0 gen a pop)
      as [[[why|] a1] pop1]; cbn [fst snd] in Hg;
      destruct Hg as [Hs1 [_ Hpop]]; subst pop1.
    + destruct why; cbn [fst snd]; auto.
    + destruct (IH (S gen) a1 _ Hs1 Hsz1) as [Hsz2 Hwb2].
      split; [exact Hsz2|]. intros _. apply Hwb2. now left.
Qed.

End Invariants.

Section InvariantsOfEvolve.

Context {RE : RandomEngine}.

Lemma reset_or_retain_shape (a : xnes) (pop : population) :
  length (A a) = length (mean a) ->
  memory_shaped (get_nx (get_problem pop)) (reset_or_retain a pop).
Proof.
  intros Hinv. unfold reset_or_retain, memory_shaped. cbv zeta.
  destruct (Nat.eqb_spec (length (mean a)) (get_nx (get_problem pop)))
    as [Hd|Hd]; cbn [negb orb].
  - destruct (m_memory a); cbn [eqb].
    + split; congruence.
    + cbn [mean A set_memory]. split.
      * now rewrite length_map, length_seq.
      * apply initial_A_is_matrix.
  - cbn [mean A set_memory]. split.
    + now rewrite length_map, length_seq.
    + apply initial_A_is_matrix.
Qed.

(** An evolve call keeps the budget of the instance and leaves [A] with as
    many rows as [mean] has entries. *)
Lemma evolve_keeps_shape (a : xnes) (pop : population) :
  length (A a) = length (mean a) ->
  length (A (fst (evolve a pop))) = length (mean (fst (evolve a pop))) /\
  m_gen (fst (evolve a pop)) = m_gen a.
Proof.
  intros Hinv. rewrite evolve_of_run. cbn [fst].
  destruct (check_problem pop) as [ex|] eqn:Hc.
  - rewrite (evolve_run_rejected a pop ex Hc). auto.
  - destruct (Nat.eq_dec (m_gen a) 0) as [Hg|Hg].
    + rewrite (evolve_run_nothing_to_do a pop Hc Hg). auto.
    + rewrite (evolve_run_accepted a pop Hc Hg). cbn [fst].
      unfold evolve_loop.
      match goal with
      | |- context [generations ?n ?d ?l ?lb ?ub ?u ?r ?f ?g ?a0 ?p] =>
          pose proof (generations_shape d l lb ub u r f n g a0 p) as H
      end.
      cbv zeta in H. destruct H as [[Hm HA] Hgen].
      { apply reset_or_retain_shape. exact Hinv. }
      rewrite Hgen, reset_or_retain_m_gen. split; [congruence | reflexivity].
Qed.

Lemma reachable_shape (a : xnes) :
  reachable a -> length (A a) = length (mean a).
Proof.
  induction 1 as [? ? ? ? ? ? ? ? ? a Hc | | | a pop _ IH]; auto.
  - apply construct_inr in Hc. subst a. reflexivity.
  - now apply evolve_keeps_shape.
Qed.

(** An instance of budget zero never ran a generation: its log is the
    empty log of the constructor. *)
Lemma reachable_idle_log (a : xnes) :
  reachable a -> m_gen a = O -> m_log a = [].
Proof.
  induction 1 as [? ? ? ? ? ? ? ? ? a Hc | | | a pop Hr IH]; auto.
  - intros _. apply construct_inr in Hc. subst a. reflexivity.
  - intros Hg.
    destruct (evolve_keeps_shape a pop (reachable_shape a Hr)) as [_ Hgen].
    rewrite Hgen in Hg. specialize (IH Hg).
    rewrite evolve_of_run. cbn [fst].
    destruct (check_problem pop) as [ex|] eqn:Hc.
    + now rewrite (evolve_run_rejected a pop ex Hc).
    + now rewrite (evolve_run_nothing_to_do a pop Hc Hg).
Qed.

(** The population returned by a call that ran a generation is inside the
    box of the problem. *)
Lemma evolve_population_within_bounds (a : xnes) (pop : population) :
  let prob := get_problem pop in
  length (A a) = length (mean a) ->
  bounds_ordered (get_nx prob) (get_lb prob) (get_ub prob) ->
  check_problem pop = None -> m_gen a <> O ->
  exists pop',
    snd (evolve a pop) = inr pop' /\ size pop' = size pop /\
    within_bounds (get_nx prob) (get_lb prob) (get_ub prob) pop'.
Proof.
  intros prob Hinv Hord Hc Hg.
  rewrite evolve_of_run, (evolve_run_accepted a pop Hc Hg). cbn [snd].
  eexists. split; [reflexivity|].
  unfold evolve_loop. fold prob.
  match goal with
  | |- context [generations ?n ?d ?l ?lb ?ub ?u ?r ?f ?g ?a0 ?p] =>
      pose proof (generations_within_bounds d l lb ub u r f n g a0 p Hord)
        as H
  end.
  cbv zeta in H. destruct H as [Hsz Hwb].
  - apply reset_or_retain_shape. exact Hinv.
  - reflexivity.
  - split; [exact Hsz|]. apply Hwb. right. lia.
Qed.

End InvariantsOfEvolve.

Section ReachedGenerations.

Context {RE : RandomEngine}.

Variables (dim : nat) (lb ub : list R) (u : list R) (rates : R * R * R)
          (fevals0 : nat).

Lemma sampled_size (a : xnes) (pop : population) :
  size (snd (fst (sampled dim (size pop) lb ub a pop))) = size pop.
Proof.
  unfold sampled.
  assert (Hrs : size (fst (reseed pop (m_e a))) = size pop).
  { unfold reseed. destruct (is_stochastic (get_problem pop)); [|reflexivity].
    destruct (uniform_int_draw (m_e a)). reflexivity. }
  destruct (reseed pop (m_e a)) as [pop0 e0]. cbn [fst] in Hrs.
  rewrite <- Hrs.
  pose proof (sample_population_spec lb ub dim (mean a) (A a)
                (seq 0 (size pop0)) pop0 e0 (seq_NoDup _ _)) as H.
  cbv zeta in H. destruct H as (Hsz & _).
  { intros k Hin. apply in_seq in Hin. lia. }
  exact Hsz.
Qed.

(** Every generation the loop reaches begins with a population of the
    initial size and a memory of the dimension of the problem: the
    conditions under which the sampling and the update were studied hold
    throughout a call. *)
Lemma loop_reaches_invariant (g : nat) (a : xnes) (pop : population)
      (g' : nat) (a' : xnes) (pop' : population) :
  loop_reaches dim (size pop) lb ub u rates fevals0 g a pop g' a' pop' ->
  memory_shaped dim a ->
  memory_shaped dim a' /\ size pop' = size pop /\ m_gen a' = m_gen a.
Proof.
  remember (size pop) as lam eqn:Hlam.
  intros Hr. revert Hlam.
  induction Hr as [|g a pop a1 pop1 g' a' pop' Hgen Hr IH]; intros Hlam Hs.
  - auto.
  - pose proof (generation_shape dim lam lb ub u rates fevals0 g a pop Hs)
      as Hg. cbv zeta in Hg. rewrite Hgen in Hg. cbn [fst snd] in Hg.
    destruct Hg as [Hs1 [Hg1 Hp1]].
    assert (Hsz : size pop1 = size pop).
    { rewrite Hp1, Hlam. apply sampled_size. }
    destruct IH as [Hs' [Hsz' Hg']]; [congruence | exact Hs1 |].
    split; [exact Hs'|]. split; congruence.
Qed.

End ReachedGenerations.

(* ================================================================== *)
(** ** The log across calls *)
(* ================================================================== *)

Section LogAcrossCalls.

Context {RE : RandomEngine}.

(** C3 (as the code has it).  After an evolve call that passes the checks
    on the problem, the log holds only lines of generations of that call:
    with a nonzero budget the log is cleared before the first generation,
    so that what it held before has no influence, and an instance of
    budget zero still has the empty log of its construction; in
    particular the log is empty after such a call made with verbosity
    [0].  A call that raises returns before the log is cleared and leaves
    it as it was. *)
Theorem evolve_log_holds_only_this_call (a : xnes) (pop : population) :
  reachable a ->
  (check_problem pop = None ->
   (m_verbosity a = O -> m_log (fst (evolve a pop)) = []) /\
   Forall (fun line => (1 <= log_gen line <= m_gen a)%nat)
          (m_log (fst (evolve a pop))) /\
   (m_gen a <> O ->
    forall l, m_log (fst (evolve (set_log l a) pop))
              = m_log (fst (evolve a pop)))) /\
  (check_problem pop <> None ->
   fst (evolve a pop) = a /\ m_log (fst (evolve a pop)) = m_log a).
Proof.
  intros Hr. split.
  - intros Hc. destruct (Nat.eq_dec (m_gen a) 0) as [Hg|Hg].
    + rewrite evolve_of_run, (evolve_run_nothing_to_do a pop Hc Hg).
      cbn [fst]. rewrite (reachable_idle_log a Hr Hg).
      split; [reflexivity|]. split; [constructor | contradiction].
    + pose proof (evolve_loop_log a pop) as H. cbv zeta in H.
      destruct H as [_ [Hlines Hzero]].
      assert (E : forall l, fst (evolve (set_log l a) pop)
                            = snd (fst (evolve_loop a pop))).
      { intros l. rewrite evolve_of_run.
        rewrite (evolve_run_accepted (set_log l a) pop Hc Hg).
        cbn [fst]. now rewrite evolve_loop_forgets_log. }
      assert (E0 : fst (evolve a pop) = snd (fst (evolve_loop a pop))).
      { rewrite evolve_of_run, (evolve_run_accepted a pop Hc Hg).
        reflexivity. }
      rewrite E0. split; [exact Hzero|]. split; [exact Hlines|].
      intros _ l. now rewrite E.
  - intros Hc. rewrite evolve_of_run.
    destruct (check_problem pop) as [ex|] eqn:E; [|congruence].
    rewrite (evolve_run_rejected a pop ex E). auto.
Qed.

End LogAcrossCalls.

Lemma default_xnes_constructed (gen : nat) (memory : bool) :
  construct gen (-1) (-1) (-1) (-1) 1e-6 1e-6 memory 0
  = inr (default_xnes gen memory).
Proof. unfold construct. rewrite out_of_range_sentinel. reflexivity. Qed.

Lemma evolve_log_holds_only_this_call_witness :
  let a := default_xnes 3 false in
  let pop := population_of (sphere 1) five_points in
  reachable a /\ check_problem pop = None /\ m_verbosity a = O /\
  m_log (fst (evolve a pop)) = [].
Proof.
  intros a pop.
  assert (Hr : reachable a)
    by exact (reach_construct _ _ _ _ _ _ _ _ _ _
                (default_xnes_constructed 3 false)).
  assert (Hc : check_problem pop = None) by reflexivity.
  split; [exact Hr|]. split; [exact Hc|]. split; [reflexivity|].
  exact (proj1 (proj1 (evolve_log_holds_only_this_call a pop Hr) Hc) eq_refl).
Defined.

(** Counterexample to C3 as written: an instance is constructed, made
    verbose and evolved for one generation, which logs a line; verbosity is
    then set to [0] and evolve is called on a constrained problem.  The
    call raises before the log is cleared, so after this call with
    verbosity [0] the log still holds the line of the previous call. *)
Lemma stale_log_after_rejected_call :
  let pop := population_of (sphere 1) five_points in
  let bad := population_of (constrained_sphere 1) five_points in
  let a1 := set_verbosity 1 (default_xnes 1 false) in
  let a2 := fst (evolve a1 pop) in
  let a3 := set_verbosity 0 a2 in
  construct 1 (-1) (-1) (-1) (-1) 1e-6 1e-6 false 0
    = inr (default_xnes 1 false) /\
  m_verbosity a3 = O /\
  snd (evolve a3 bad) = inl (invalid_argument nonlinear_constraints) /\
  m_log (fst (evolve a3 bad)) <> [].
Proof.
  intros pop bad a1 a2 a3.
  split.
  { unfold construct. rewrite out_of_range_sentinel. reflexivity. }
  split; [reflexivity|].
  assert (Hbad : check_problem bad
                 = Some (invalid_argument nonlinear_constraints))
    by reflexivity.
  rewrite evolve_of_run, (evolve_run_rejected a3 bad _ Hbad). cbn [fst snd].
  split; [reflexivity|].
  change (m_log a3) with (m_log a2). unfold a2.
  apply evolve_verbose_logs.
  - reflexivity.
  - discriminate.
  - cbn. lia.
Qed.

(* ================================================================== *)
(** ** Construction *)
(* ================================================================== *)

Section Construction.

Context {RE : RandomEngine}.

Lemma out_of_range_acceptable (v : R) :
  out_of_range v = false <-> acceptable v.
Proof. apply out_of_range_false. Qed.




End Construction.

(* ================================================================== *)
(** ** What an evolve call raises and what it leaves alone *)
(* ================================================================== *)

Section Frames.

Context {RE : RandomEngine}.

Lemma check_problem_some (pop : population) (what : complaint) :
  check_problem pop = Some (invalid_argument what) <->
  (what = nonlinear_constraints /\ get_nc (get_problem pop) <> O) \/
  (what = multiple_objectives /\ get_nc (get_problem pop) = O /\
   get_nf (get_problem pop) <> 1%nat) \/
  (what = too_few_individuals (size pop) /\ get_nc (get_problem pop) = O /\
   get_nf (get_problem pop) = 1%nat /\ (size pop < 4)%nat).
Proof.
  unfold check_problem.
  destruct (Nat.eqb_spec (get_nc (get_problem pop)) 0) as [Hc|Hc];
    cbn [negb].
  2: { split.
       - intros H; inversion H; subst. left. auto.
       - intros [[-> _] | [[_ [H _]] | [_ [H _]]]];
           [reflexivity | contradiction | contradiction]. }
  destruct (Nat.eqb_spec (get_nf (get_problem pop)) 1) as [Hf|Hf];
    cbn [negb].
  2: { split.
       - intros H; inversion H; subst. right; left. auto.
       - intros [[_ H] | [[-> _] | [_ [_ [H _]]]]];
           [contradiction | reflexivity | contradiction]. }
  destruct (Nat.ltb_spec (size pop) 4) as [Hl|Hl].
  - split.
    + intros H; inversion H; subst. right; right. auto.
    + intros [[_ H] | [[_ [_ H]] | [-> _]]];
        [contradiction | contradiction | reflexivity].
  - split; [discriminate|].
    intros [[_ H] | [[_ [_ H]] | [_ [_ [_ H]]]]];
      [contradiction | contradiction | lia].
Qed.

Lemma evolve_raises_check (a : xnes) (pop : population) (ex : exn) :
  snd (evolve a pop) = inl ex <-> check_problem pop = Some ex.
Proof.
  rewrite evolve_of_run.
  destruct (check_problem pop) as [ex'|] eqn:Hc.
  - rewrite (evolve_run_rejected a pop ex' Hc). cbn.
    split; intros H; inversion H; reflexivity.
  - destruct (Nat.eq_dec (m_gen a) 0) as [Hg|Hg].
    + rewrite (evolve_run_nothing_to_do a pop Hc Hg). cbn.
      split; discriminate.
    + rewrite (evolve_run_accepted a pop Hc Hg). cbn.
      split; discriminate.
Qed.

(** X3.  An evolve call raises [invalid_argument] in three cases, tested
    in this order: nonlinear constraints ([nc != 0]); else several
    objectives ([nf != 1]); else fewer than four individuals.  A call that
    raises returns the instance as it was: no member is written and the
    random engine is not advanced. *)
Theorem evolve_raises_iff (a : xnes) (pop : population) (what : complaint) :
  (snd (evolve a pop) = inl (invalid_argument what) <->
   (what = nonlinear_constraints /\ get_nc (get_problem pop) <> O) \/
   (what = multiple_objectives /\ get_nc (get_problem pop) = O /\
    get_nf (get_problem pop) <> 1%nat) \/
   (what = too_few_individuals (size pop) /\ get_nc (get_problem pop) = O /\
    get_nf (get_problem pop) = 1%nat /\ (size pop < 4)%nat)) /\
  (forall ex, snd (evolve a pop) = inl ex -> fst (evolve a pop) = a).
Proof.
  split.
  - rewrite evolve_raises_check. apply check_problem_some.
  - intros ex H. apply evolve_raises_check in H.
    rewrite evolve_of_run, (evolve_run_rejected a pop ex H). reflexivity.
Qed.

(** *** The configuration *)

Lemma same_config_refl (a : xnes) : same_config a a.
Proof. unfold same_config. repeat split. Qed.

Lemma same_config_trans (a b c : xnes) :
  same_config a b -> same_config b c -> same_config a c.
Proof.
  unfold same_config. intros H1 H2.
  decompose [and] H1. decompose [and] H2.
  repeat split; congruence.
Qed.

Lemma update_distribution_config (dim : nat) (u : list R) (rates : R * R * R)
      (z : list (list R)) (s_idx : list nat) (a : xnes) :
  same_config a (update_distribution dim u rates z s_idx a).
Proof.
  destruct rates as [[eta_mu eta_sigma] eta_b].
  unfold same_config. repeat split.
Qed.

Lemma log_generation_config (a : xnes) (fevals0 gen : nat)
      (z : list (list R)) (pop : population) :
  same_config a (log_generation a fevals0 gen z pop).
Proof.
  unfold log_generation.
  destruct (0 <? m_verbosity a)%nat; [|apply same_config_refl].
  destruct ((gen mod m_verbosity a =? 1)%nat || (m_verbosity a =? 1)%nat);
    [|apply same_config_refl].
  unfold same_config. repeat split.
Qed.

Lemma generation_config (dim lam : nat) (lb ub u : list R)
      (rates : R * R * R) (fevals0 gen : nat) (a : xnes) (pop : population) :
  same_config a
    (snd (fst (generation dim lam lb ub u rates fevals0 gen a pop))).
Proof.
  unfold generation.
  destruct (sampled dim lam lb ub a pop) as [[z pop1] e1].
  assert (H0 : same_config a (set_engine e1 a))
    by (unfold same_config; repeat split).
  destruct (check_exit (set_engine e1 a) gen z pop1); cbn [fst snd].
  - exact H0.
  - eapply same_config_trans; [exact H0|].
    eapply same_config_trans; [apply log_generation_config|].
    apply update_distribution_config.
Qed.

Lemma generations_config (n : nat) (dim lam : nat) (lb ub u : list R)
      (rates : R * R * R) (fevals0 gen : nat) (a : xnes) (pop : population) :
  same_config a
    (snd (fst (generations n dim lam lb ub u rates fevals0 gen a pop))).
Proof.
  revert gen a pop. induction n as [|n IH]; intros gen a pop.
  - apply same_config_refl.
  - cbn [generations].
    pose proof (generation_config dim lam lb ub u rates fevals0 gen a pop)
      as Hg.
    destruct (generation dim lam lb ub u rates fevals0 gen a pop)
      as [[[why|] a1] pop1]; cbn [fst snd] in Hg.
    + destruct why; exact Hg.
    + eapply same_config_trans; [exact Hg | apply IH].
Qed.

Lemma reset_or_retain_config (a : xnes) (pop : population) :
  same_config a (reset_or_retain a pop).
Proof.
  unfold reset_or_retain. cbv zeta.
  destruct (negb _ || eqb _ _); [|apply same_config_refl].
  unfold same_config. repeat split.
Qed.

Lemma evolve_config (a : xnes) (pop : population) :
  same_config a (fst (evolve a pop)).
Proof.
  rewrite evolve_of_run. cbn [fst].
  destruct (check_problem pop) as [ex|] eqn:Hc.
  - rewrite (evolve_run_rejected a pop ex Hc). apply same_config_refl.
  - destruct (Nat.eq_dec (m_gen a) 0) as [Hg|Hg].
    + rewrite (evolve_run_nothing_to_do a pop Hc Hg). apply same_config_refl.
    + rewrite (evolve_run_accepted a pop Hc Hg). cbn [fst].
      unfold evolve_loop.
      eapply same_config_trans; [|apply generations_config].
      eapply same_config_trans; [|apply reset_or_retain_config].
      unfold same_config. repeat split.
Qed.

(** X4.  An evolve call, whatever its outcome, reads the configuration
    and never writes it: budget, learning rates, initial scale,
    tolerances, memory flag, seed and verbosity are after the call what
    they were before, and so are the name and the extra information of
    the instance.  The seed reported stays the one last set although the
    engine has advanced. *)
Theorem evolve_keeps_configuration (a : xnes) (pop : population) :
  same_config a (fst (evolve a pop)) /\
  get_seed (fst (evolve a pop)) = get_seed a /\
  get_verbosity (fst (evolve a pop)) = get_verbosity a /\
  get_gen (fst (evolve a pop)) = get_gen a /\
  get_name (fst (evolve a pop)) = get_name a /\
  get_extra_info (fst (evolve a pop)) = get_extra_info a.
Proof.
  pose proof (evolve_config a pop) as H. split; [exact H|].
  unfold same_config in H. decompose [and] H.
  unfold get_seed, get_verbosity, get_gen, get_name, get_extra_info.
  repeat split; congruence.
Qed.

End Frames.

(* ================================================================== *)
(** ** The population through a call *)
(* ================================================================== *)

Section PopulationFrame.

Context {RE : RandomEngine}.

Variables (dim : nat) (lb ub : list R).

(** What holds of a population [q] obtained from [p] by [k] objective
    evaluations, the seed being kept. *)
Let evaluated (k : nat) (p q : population) : Prop :=
  same_problem_data (get_problem p) (get_problem q) /\
  get_prob_seed (get_problem q) = get_prob_seed (get_problem p) /\
  get_fevals (get_problem q) = (get_fevals (get_problem p) + k)%nat /\
  size q = size p /\
  length (get_f q) = length (get_f p).

Lemma same_problem_data_refl (p : problem) : same_problem_data p p.
Proof. unfold same_problem_data. repeat split. Qed.

Lemma same_problem_data_trans (p q r : problem) :
  same_problem_data p q -> same_problem_data q r -> same_problem_data p r.
Proof.
  unfold same_problem_data. intros H1 H2.
  decompose [and] H1. decompose [and] H2. repeat split; congruence.
Qed.

Lemma set_x_evaluated (i : nat) (x : list R) (pop : population) :
  evaluated 1 pop (set_x i x pop).
Proof.
  unfold evaluated, set_x, size, same_problem_data. cbn.
  rewrite !upd_length. repeat split. lia.
Qed.

Lemma sample_population_evaluated (mu : list R) (M : list (list R))
      (ids : list nat) (pop : population) (e : engine) :
  evaluated (length ids) pop
            (snd (fst (sample_population ids dim lb ub mu M pop e))).
Proof.
  revert pop e. induction ids as [|i ids IH]; intros pop e.
  - cbn. unfold evaluated. rewrite Nat.add_0_r.
    repeat split; try reflexivity.
  - cbn [sample_population]. rewrite sample_individual_spec. cbv zeta.
    set (pop1 := set_x i _ pop). set (e2 := snd (candidate _ _ _ _ _ _ _)).
    specialize (IH pop1 e2).
    destruct (sample_population ids dim lb ub mu M pop1 e2) as [[zs pop2] e3].
    cbn [fst snd] in *.
    pose proof (set_x_evaluated i
                  (fst (candidate dim lb ub mu M (fst (draw_normals dim e))
                          (snd (draw_normals dim e)))) pop) as H1.
    fold pop1 in H1. unfold evaluated in *.
    destruct H1 as (Hd1 & Hs1 & Hf1 & Hz1 & Hl1).
    destruct IH as (Hd2 & Hs2 & Hf2 & Hz2 & Hl2).
    split; [eapply same_problem_data_trans; eassumption|].
    cbn [length]. repeat split; try congruence. lia.
Qed.

(** Steps 0 and 1 of a generation evaluate the objective once per
    individual, and change neither the static data of the problem nor the
    size of the population; the seed of a problem that is not stochastic
    is kept. *)
Lemma sampled_frame (lam : nat) (a : xnes) (pop : population) :
  let pop' := snd (fst (sampled dim lam lb ub a pop)) in
  same_problem_data (get_problem pop) (get_problem pop') /\
  (is_stochastic (get_problem pop) = false ->
   get_prob_seed (get_problem pop') = get_prob_seed (get_problem pop)) /\
  get_fevals (get_problem pop') = (get_fevals (get_problem pop) + lam)%nat /\
  size pop' = size pop /\
  length (get_f pop') = length (get_f pop).
Proof.
  cbv zeta. unfold sampled.
  assert (Hrs :
    let pop0 := fst (reseed pop (m_e a)) in
    same_problem_data (get_problem pop) (get_problem pop0) /\
    (is_stochastic (get_problem pop) = false ->
     get_prob_seed (get_problem pop0) = get_prob_seed (get_problem pop)) /\
    get_fevals (get_problem pop0) = get_fevals (get_problem pop) /\
    size pop0 = size pop /\ length (get_f pop0) = length (get_f pop)).
  { cbv zeta. unfold reseed.
    destruct (is_stochastic (get_problem pop)) eqn:Es.
    - destruct (uniform_int_draw (m_e a)) as [s e']. cbn.
      unfold same_problem_data. cbn.
      repeat split; auto; discriminate.
    - cbn. split; [apply same_problem_data_refl|]. auto. }
  cbv zeta in Hrs.
  destruct (reseed pop (m_e a)) as [pop0 e0]. cbn [fst] in Hrs.
  destruct Hrs as (Hd0 & Hs0 & Hf0 & Hz0 & Hl0).
  pose proof (sample_population_evaluated (mean a) (A a) (seq 0 lam) pop0 e0)
    as H.
  unfold evaluated in H. rewrite length_seq in H.
  destruct H as (Hd & Hs & Hf & Hz & Hl).
  split; [eapply same_problem_data_trans; eassumption|].
  split; [intros Hn; rewrite Hs; auto|].
  repeat split; congruence.
Qed.

Lemma generation_population (lam : nat) (u : list R) (rates : R * R * R)
      (fevals0 gen : nat) (a : xnes) (pop : population) :
  snd (generation dim lam lb ub u rates fevals0 gen a pop)
  = snd (fst (sampled dim lam lb ub a pop)).
Proof.
  unfold generation.
  destruct (sampled dim lam lb ub a pop) as [[z pop1] e1].
  destruct (check_exit (set_engine e1 a) gen z pop1); reflexivity.
Qed.

(** The loop: [lam] evaluations per generation sampled. *)
Lemma generations_frame (n : nat) (lam : nat) (u : list R)
      (rates : R * R * R) (fevals0 gen : nat) (a : xnes) (pop : population) :
  let r := generations n dim lam lb ub u rates fevals0 gen a pop in
  let sampled_here :=
    match fst (fst r) with
    | exit_generations => n
    | exit_xtol g | exit_ftol g => (S g - gen)%nat
    end in
  same_problem_data (get_problem pop) (get_problem (snd r)) /\
  (is_stochastic (get_problem pop) = false ->
   get_prob_seed (get_problem (snd r)) = get_prob_seed (get_problem pop)) /\
  get_fevals (get_problem (snd r))
  = (get_fevals (get_problem pop) + lam * sampled_here)%nat /\
  size (snd r) = size pop /\
  length (get_f (snd r)) = length (get_f pop).
Proof.
  revert gen a pop. induction n as [|n IH]; intros gen a pop; cbv zeta.
  - cbn. split; [apply same_problem_data_refl|].
    repeat split; auto. lia.
  - cbn [generations].
    pose proof (generation_population lam u rates fevals0 gen a pop) as Hp.
    pose proof (sampled_frame lam a pop) as Hs. cbv zeta in Hs.
    rewrite <- Hp in Hs. clear Hp.
    destruct Hs as (Hd1 & Hs1 & Hf1 & Hz1 & Hl1).
    destruct (generation dim lam lb ub u rates fevals0 gen a pop)
      as [[[why|] a1] pop1]; cbn [fst snd] in *.
    + assert (Hone : (S gen - gen = 1)%nat) by lia.
      destruct why; cbn [fst snd]; rewrite Hone, Nat.mul_1_r;
        (split; [exact Hd1|]); (split; [exact Hs1|]);
        (split; [exact Hf1|]); split; assumption.
    + specialize (IH (S gen) a1 pop1). cbv zeta in IH.
      pose proof (generations_exit_generation dim lam lb ub u rates fevals0
                    n (S gen) a1 pop1) as Hex.
      destruct (generations n dim lam lb ub u rates fevals0 (S gen) a1 pop1)
        as [[how a2] pop2]; cbn [fst snd] in *.
      destruct IH as (Hd2 & Hs2 & Hf2 & Hz2 & Hl2).
      split; [eapply same_problem_data_trans; eassumption|].
      split.
      { intros Hn. rewrite Hs2, Hs1; auto.
        destruct Hd1 as (_ & _ & _ & _ & _ & Hst & _). congruence. }
      split; [|split; congruence].
      rewrite Hf2, Hf1.
      destruct how as [|g|g].
      * lia.
      * destruct (Hex g (or_introl eq_refl)) as [_ Hr].
        replace (S g - gen)%nat with (1 + (S g - S gen))%nat by lia. lia.
      * destruct (Hex g (or_intror eq_refl)) as [_ Hr].
        replace (S g - gen)%nat with (1 + (S g - S gen))%nat by lia. lia.
Qed.

End PopulationFrame.

Section Reevaluation.

Context {RE : RandomEngine}.

Variables (dim : nat) (lb ub : list R).

(** After the loop over [ids], the listed individuals hold the fitness of
    their new decision vector and the others are as before. *)
Lemma sample_population_fitness (mu : list R) (M : list (list R))
      (ids : list nat) (pop : population) (e : engine) :
  NoDup ids ->
  (forall i, In i ids ->
             (i < length (get_x pop))%nat /\ (i < length (get_f pop))%nat) ->
  let pop' := snd (fst (sample_population ids dim lb ub mu M pop e)) in
  (forall i, ~ In i ids ->
     nth i (get_x pop') [] = nth i (get_x pop) [] /\
     nth i (get_f pop') [] = nth i (get_f pop) []) /\
  (forall i, In i ids ->
     nth i (get_f pop') []
     = fitness (get_problem pop) (get_prob_seed (get_problem pop))
               (nth i (get_x pop') [])).
Proof.
  revert pop e. induction ids as [|i ids IH]; intros pop e Hnd Hin; cbv zeta.
  - cbn. split; [auto | contradiction].
  - cbn [sample_population]. rewrite sample_individual_spec. cbv zeta.
    set (x := fst (candidate dim lb ub mu M (fst (draw_normals dim e))
                     (snd (draw_normals dim e)))).
    set (pop1 := set_x i x pop). set (e2 := snd (candidate _ _ _ _ _ _ _)).
    inversion Hnd as [|? ? Hni Hnd']; subst.
    assert (Hin1 : forall k, In k ids ->
              (k < length (get_x pop1))%nat /\ (k < length (get_f pop1))%nat).
    { intros k Hk. unfold pop1, set_x. cbn [get_x get_f].
      rewrite !upd_length. apply Hin. now right. }
    specialize (IH pop1 e2 Hnd' Hin1). cbv zeta in IH.
    destruct (sample_population ids dim lb ub mu M pop1 e2) as [[zs pop2] e3].
    cbn [fst snd] in *. destruct IH as [Hout Hfit].
    destruct (Hin i (or_introl eq_refl)) as [Hix Hif].
    split.
    + intros k Hk.
      destruct (Hout k) as [Hx Hf]; [intros H; apply Hk; now right|].
      rewrite Hx, Hf. unfold pop1, set_x. cbn [get_x get_f].
      split; apply nth_upd_other; intros ->; apply Hk; now left.
    + intros k [<-|Hk].
      * destruct (Hout i Hni) as [Hx Hf]. rewrite Hx, Hf.
        unfold pop1, set_x. cbn [get_x get_f].
        now rewrite !nth_upd_same.
      * rewrite (Hfit k Hk). reflexivity.
Qed.

Lemma sampled_fitness_consistent (a : xnes) (pop : population) :
  length (get_f pop) = size pop ->
  fitness_consistent (snd (fst (sampled dim (size pop) lb ub a pop))).
Proof.
  intros Hlen.
  pose proof (sampled_frame dim lb ub (size pop) a pop) as Hfr.
  cbv zeta in Hfr. destruct Hfr as (_ & _ & _ & Hsz & _).
  unfold fitness_consistent. rewrite Hsz. clear Hsz.
  unfold sampled.
  assert (Hrs : let pop0 := fst (reseed pop (m_e a)) in
                get_x pop0 = get_x pop /\ get_f pop0 = get_f pop).
  { cbv zeta. unfold reseed.
    destruct (is_stochastic (get_problem pop)); [|auto].
    destruct (uniform_int_draw (m_e a)). auto. }
  cbv zeta in Hrs.
  destruct (reseed pop (m_e a)) as [pop0 e0]. cbn [fst] in Hrs.
  destruct Hrs as [Hx0 Hf0].
  pose proof (sample_population_fitness (mean a) (A a) (seq 0 (size pop))
                pop0 e0 (seq_NoDup _ _)) as H.
  pose proof (sample_population_evaluated dim lb ub (mean a) (A a)
                (seq 0 (size pop)) pop0 e0) as Hev.
  cbv zeta in H.
  destruct (sample_population (seq 0 (size pop)) dim lb ub (mean a) (A a)
              pop0 e0) as [[zs pop1] e1].
  cbn [fst snd] in *.
  destruct H as [_ Hfit].
  { intros i Hi. apply in_seq in Hi. rewrite Hx0, Hf0, Hlen.
    unfold size in *. lia. }
  destruct Hev as ((_ & _ & _ & _ & _ & _ & Hfn) & Hseed & _).
  intros i Hi. rewrite Hfit by (apply in_seq; lia).
  now rewrite Hfn, Hseed.
Qed.

Lemma generations_fitness_consistent (n : nat) (lam : nat) (u : list R)
      (rates : R * R * R) (fevals0 gen : nat) (a : xnes) (pop : population) :
  size pop = lam -> length (get_f pop) = lam ->
  fitness_consistent pop \/ (1 <= n)%nat ->
  fitness_consistent
    (snd (generations n dim lam lb ub u rates fevals0 gen a pop)).
Proof.
  revert gen a pop. induction n as [|n IH]; intros gen a pop Hsz Hlen Hc.
  - cbn. destruct Hc as [Hc|Hc]; [exact Hc | lia].
  - cbn [generations].
    pose proof (generation_population dim lb ub lam u rates fevals0 gen a pop)
      as Hp.
    pose proof (sampled_frame dim lb ub lam a pop) as Hfr.
    cbv zeta in Hfr. destruct Hfr as (_ & _ & _ & Hsz1 & Hl1).
    assert (Hfc : fitness_consistent (snd (fst (sampled dim lam lb ub a pop)))).
    { rewrite <- Hsz. apply sampled_fitness_consistent. congruence. }
    rewrite <- Hp in Hsz1, Hl1, Hfc. clear Hp.
    destruct (generation dim lam lb ub u rates fevals0 gen a pop)
      as [[[why|] a1] pop1]; cbn [fst snd] in *.
    + destruct why; exact Hfc.
    + apply IH; [congruence | congruence | now left].
Qed.

End Reevaluation.

Section PopulationOfEvolve.

Context {RE : RandomEngine}.

(** The outcome of a call that passes the checks, in terms of the loop. *)
Lemma evolve_run_outcome (a : xnes) (pop : population) :
  check_problem pop = None ->
  exists how pop',
    snd (evolve_run a pop) = inr (how, pop') /\
    snd (evolve a pop) = inr pop' /\
    (m_gen a = O -> how = exit_generations /\ pop' = pop) /\
    (m_gen a <> O ->
     how = fst (fst (evolve_loop a pop)) /\ pop' = snd (evolve_loop a pop)).
Proof.
  intros Hc. rewrite evolve_of_run.
  destruct (Nat.eq_dec (m_gen a) 0) as [Hg|Hg].
  - rewrite (evolve_run_nothing_to_do a pop Hc Hg). cbn [fst snd].
    exists exit_generations, pop.
    split; [reflexivity|]. split; [reflexivity|].
    split; [auto | intros; contradiction].
  - rewrite (evolve_run_accepted a pop Hc Hg). cbn [fst snd].
    exists (fst (fst (evolve_loop a pop))), (snd (evolve_loop a pop)).
    split; [reflexivity|]. split; [reflexivity|].
    split; [intros; contradiction | auto].
Qed.

(** X5.  An evolve call that passes the checks returns a population of
    the size of the input over the same problem: dimension, bounds,
    numbers of objectives and constraints, stochasticity and objective
    function are untouched, only the evaluation counter and, for a
    stochastic problem, the seed may differ. *)
Theorem evolve_keeps_problem_and_size (a : xnes) (pop : population) :
  check_problem pop = None ->
  exists pop',
    snd (evolve a pop) = inr pop' /\
    same_problem_data (get_problem pop) (get_problem pop') /\
    size pop' = size pop /\
    length (get_f pop') = length (get_f pop) /\
    (is_stochastic (get_problem pop) = false ->
     get_prob_seed (get_problem pop') = get_prob_seed (get_problem pop)).
Proof.
  intros Hc.
  destruct (evolve_run_outcome a pop Hc) as (how & pop' & _ & He & H0 & H1).
  exists pop'. split; [exact He|].
  destruct (Nat.eq_dec (m_gen a) 0) as [Hg|Hg].
  - destruct (H0 Hg) as [_ ->].
    split; [apply same_problem_data_refl | auto].
  - destruct (H1 Hg) as [_ ->]. unfold evolve_loop.
    match goal with
    | |- context [generations ?n ?d ?l ?lb ?ub ?u ?r ?f ?g ?a0 ?p] =>
        pose proof (generations_frame d lb ub n l u r f g a0 p) as H
    end.
    cbv zeta in H. destruct H as (Hd & Hs & _ & Hz & Hl). auto.
Qed.

(** X6.  A call that passes the checks evaluates the objective function
    exactly [lam] times in each generation it samples: on return the
    evaluation counter of the problem has advanced by [lam * G], where
    [G] is the budget when the loop ran to its end and the generation of
    the exit otherwise; [G] never exceeds the budget. *)
Theorem evolve_counts_evaluations (a : xnes) (pop : population) :
  check_problem pop = None ->
  exists how pop',
    snd (evolve_run a pop) = inr (how, pop') /\
    snd (evolve a pop) = inr pop' /\
    get_fevals (get_problem pop')
    = (get_fevals (get_problem pop)
       + size pop * sampled_generations how (m_gen a))%nat /\
    (sampled_generations how (m_gen a) <= m_gen a)%nat.
Proof.
  intros Hc.
  destruct (evolve_run_outcome a pop Hc) as (how & pop' & Hr & He & H0 & H1).
  exists how, pop'. split; [exact Hr|]. split; [exact He|].
  destruct (Nat.eq_dec (m_gen a) 0) as [Hg|Hg].
  - destruct (H0 Hg) as [-> ->]. cbn. rewrite Hg. lia.
  - destruct (H1 Hg) as [-> ->]. unfold evolve_loop.
    match goal with
    | |- context [generations ?n ?d ?l ?lb ?ub ?u ?r ?f ?g ?a0 ?p] =>
        pose proof (generations_frame d lb ub n l u r f g a0 p) as H;
        pose proof (generations_exit_generation d l lb ub u r f n g a0 p)
          as Hex;
        destruct (generations n d l lb ub u r f g a0 p) as [[how a1] pop1]
    end.
    cbv zeta in H. cbn [fst snd] in *.
    destruct H as (_ & _ & Hf & _).
    destruct how as [|g|g]; cbn [sampled_generations].
    + split; [exact Hf | lia].
    + destruct (Hex g (or_introl eq_refl)) as [_ Hrange].
      rewrite Hf. split; [f_equal; f_equal; lia | lia].
    + destruct (Hex g (or_intror eq_refl)) as [_ Hrange].
      rewrite Hf. split; [f_equal; f_equal; lia | lia].
Qed.

(** X7.  A call that runs at least one generation re-evaluates every
    individual: in the population returned, each fitness vector is the
    objective function, under the seed the problem is left with, at the
    decision vector stored for the same individual. *)
Theorem evolve_returns_evaluated_population (a : xnes) (pop : population) :
  check_problem pop = None -> m_gen a <> O ->
  length (get_f pop) = size pop ->
  exists pop',
    snd (evolve a pop) = inr pop' /\ fitness_consistent pop'.
Proof.
  intros Hc Hg Hlen.
  destruct (evolve_run_outcome a pop Hc) as (how & pop' & _ & He & _ & H1).
  exists pop'. split; [exact He|].
  destruct (H1 Hg) as [_ ->]. unfold evolve_loop.
  apply generations_fitness_consistent; auto.
  right. lia.
Qed.

(** X8.  For an instance obtained from the constructor, the setters and
    earlier calls, a call that runs at least one generation on a problem
    with ordered bounds returns a population of the same size all of
    whose decision vectors lie inside the box, coordinate by coordinate. *)
Theorem evolve_returns_population_inside_box (a : xnes) (pop : population) :
  let prob := get_problem pop in
  reachable a ->
  bounds_ordered (get_nx prob) (get_lb prob) (get_ub prob) ->
  check_problem pop = None -> m_gen a <> O ->
  exists pop',
    snd (evolve a pop) = inr pop' /\ size pop' = size pop /\
    forall i j, (i < size pop)%nat -> (j < get_nx prob)%nat ->
      nth j (get_lb prob) 0 <= nth j (nth i (get_x pop') []) 0
                            <= nth j (get_ub prob) 0.
Proof.
  intros prob Hr Hord Hc Hg.
  destruct (evolve_population_within_bounds a pop (reachable_shape a Hr)
              Hord Hc Hg) as (pop' & He & Hsz & Hwb).
  exists pop'. split; [exact He|]. split; [exact Hsz|].
  intros i j Hi Hj. apply Hwb; [now rewrite Hsz | exact Hj].
Qed.

End PopulationOfEvolve.

(* ================================================================== *)
(** ** The lines of the log *)
(* ================================================================== *)

Section LogLines.

Context {RE : RandomEngine}.

Variables (dim lam : nat) (lb ub : list R) (u : list R) (rates : R * R * R)
          (fevals0 : nat).

Lemma log_generation_exact (a : xnes) (gen : nat) (z : list (list R))
      (pop : population) :
  m_log (log_generation a fevals0 gen z pop) =
    m_log a ++
    (if logs_at (m_verbosity a) gen
     then [ {| log_gen := gen;
               log_fevals := get_fevals (get_problem pop) - fevals0;
               log_best := f0 pop (best_idx pop);
               log_dx := flatness_x (A a) z;
               log_df := flatness_f pop;
               log_sigma := sigma a |} ]
     else []).
Proof.
  unfold log_generation, logs_at.
  destruct (0 <? m_verbosity a)%nat; cbn [andb].
  - destruct ((gen mod m_verbosity a =? 1)%nat || (m_verbosity a =? 1)%nat).
    + reflexivity.
    + now rewrite app_nil_r.
  - now rewrite app_nil_r.
Qed.

(** A generation that returns leaves the instance with only its engine
    advanced, and tells which test fired: the one on [xtol] is made
    first. *)
Lemma generation_returns (gen : nat) (a : xnes) (pop : population)
      (why : stop) :
  let z := fst (fst (sampled dim lam lb ub a pop)) in
  let pop1 := snd (fst (sampled dim lam lb ub a pop)) in
  let e1 := snd (sampled dim lam lb ub a pop) in
  fst (fst (generation dim lam lb ub u rates fevals0 gen a pop)) = Some why ->
  generation dim lam lb ub u rates fevals0 gen a pop
  = (Some why, set_engine e1 a, pop1) /\
  (gen mod 10 = 0)%nat /\
  match why with
  | stop_xtol => flatness_x (A a) z < m_xtol a
  | stop_ftol => ~ flatness_x (A a) z < m_xtol a /\
                 flatness_f pop1 < m_ftol a
  end.
Proof.
  unfold generation.
  destruct (sampled dim lam lb ub a pop) as [[z pop1] e1]. cbn [fst snd].
  unfold check_exit. cbn [A m_xtol m_ftol set_engine].
  destruct (Nat.eqb_spec (gen mod 10) 0) as [Hm|Hm]; [|discriminate].
  destruct (Rltb (flatness_x (A a) z) (m_xtol a)) eqn:Ex.
  - cbn. intros H; inversion H; subst. apply Rltb_true in Ex. auto.
  - destruct (Rltb (flatness_f pop1) (m_ftol a)) eqn:Ef.
    + cbn. intros H; inversion H; subst.
      apply Rltb_false in Ex. apply Rltb_true in Ef. auto.
    + cbn. discriminate.
Qed.

Lemma flatness_x_nonneg (M : list (list R)) (z : list (list R)) :
  0 <= flatness_x M z.
Proof. unfold flatness_x, norm. apply sqrt_pos. Qed.

Lemma flatness_f_nonneg (pop : population) : 0 <= flatness_f pop.
Proof. unfold flatness_f. apply Rabs_pos. Qed.

(** What every line written by the loop satisfies, when generation [gen]
    begins after [lam * (gen - 1)] evaluations. *)
Let line_ok (line : log_line_type) : Prop :=
  log_fevals line = (lam * log_gen line)%nat /\
  0 <= log_dx line /\ 0 <= log_df line.

Lemma generations_log_lines (n gen : nat) (a : xnes) (pop : population) :
  (1 <= gen)%nat ->
  get_fevals (get_problem pop) = (fevals0 + lam * (gen - 1))%nat ->
  let r := generations n dim lam lb ub u rates fevals0 gen a pop in
  let K := match fst (fst r) with
           | exit_generations => n
           | exit_xtol g | exit_ftol g => (g - gen)%nat
           end in
  exists l,
    m_log (snd (fst r)) = m_log a ++ l /\
    map log_gen l = filter (logs_at (m_verbosity a)) (seq gen K) /\
    Forall line_ok l.
Proof.
  revert gen a pop. induction n as [|n IH]; intros gen a pop Hgen Hfev;
    cbv zeta.
  - cbn. exists []. rewrite app_nil_r. auto.
  - cbn [generations].
    pose proof (generation_population dim lb ub lam u rates fevals0 gen a pop)
      as Hp.
    pose proof (sampled_frame dim lb ub lam a pop) as Hfr.
    cbv zeta in Hfr. destruct Hfr as (_ & _ & Hf1 & _).
    pose proof (generation_config dim lam lb ub u rates fevals0 gen a pop)
      as Hcfg.
    destruct (generation dim lam lb ub u rates fevals0 gen a pop)
      as [[[why|] a1] pop1] eqn:Eg.
    + pose proof (generation_returns gen a pop why) as Hret.
      cbv zeta in Hret. rewrite Eg in Hret. cbn [fst snd] in Hret.
      destruct Hret as [Hret _]; [reflexivity|]. inversion Hret; subst.
      exists []. rewrite app_nil_r.
      destruct why; cbn [fst snd]; rewrite Nat.sub_diag; cbn; auto.
    + pose proof (generation_continues dim lam lb ub u rates fevals0 gen a pop)
        as Hgo.
      cbv zeta in Hgo. rewrite Eg in Hgo. cbn [fst snd] in Hgo, Hp, Hcfg.
      specialize (Hgo eq_refl). injection Hgo as Ha1 Hp1.
      assert (Hv1 : m_verbosity a1 = m_verbosity a).
      { unfold same_config in Hcfg. decompose [and] Hcfg. congruence. }
      assert (Hlog1 : m_log a1 = m_log a ++
                (if logs_at (m_verbosity a) gen
                 then [ {| log_gen := gen;
                           log_fevals := get_fevals (get_problem pop1)
                                         - fevals0;
                           log_best := f0 pop1 (best_idx pop1);
                           log_dx := flatness_x (A a)
                                       (fst (fst (sampled dim lam lb ub a pop)));
                           log_df := flatness_f pop1;
                           log_sigma := sigma a |} ]
                 else [])).
      { rewrite Ha1.
        rewrite (proj1 (update_distribution_log dim u rates _ _ _)).
        rewrite log_generation_exact.
        cbn [m_log m_verbosity A sigma set_engine].
        rewrite <- Hp1. reflexivity. }
      assert (Hfev1 : get_fevals (get_problem pop1)
                      = (fevals0 + lam * (S gen - 1))%nat).
      { rewrite Hp, Hf1, Hfev.
        replace (S gen - 1)%nat with (S (gen - 1)) by lia. lia. }
      specialize (IH (S gen) a1 pop1 (le_S _ _ Hgen) Hfev1). cbv zeta in IH.
      pose proof (generations_exit_generation dim lam lb ub u rates fevals0
                    n (S gen) a1 pop1) as Hex.
      destruct (generations n dim lam lb ub u rates fevals0 (S gen) a1 pop1)
        as [[how a2] pop2]; cbn [fst snd] in *.
      destruct IH as (l2 & Hl2 & Hg2 & Hok2).
      rewrite Hv1 in Hg2.
      set (l1 := if logs_at (m_verbosity a) gen then _ else _) in Hlog1.
      exists (l1 ++ l2).
      split; [rewrite Hl2, Hlog1; symmetry; apply app_assoc|].
      assert (HK : forall K, map log_gen l2
                       = filter (logs_at (m_verbosity a)) (seq (S gen) K) ->
                map log_gen (l1 ++ l2)
                = filter (logs_at (m_verbosity a)) (seq gen (S K))).
      { intros K HK. rewrite map_app, HK. cbn [seq filter]. unfold l1.
        destruct (logs_at (m_verbosity a) gen); reflexivity. }
      assert (Hok1 : Forall line_ok l1).
      { unfold l1. destruct (logs_at (m_verbosity a) gen); constructor; auto.
        unfold line_ok. cbn [log_fevals log_gen log_dx log_df].
        split; [|split; [apply flatness_x_nonneg | apply flatness_f_nonneg]].
        rewrite Hfev1.
        replace (S gen - 1)%nat with gen by lia. lia. }
      split; [|now apply Forall_app].
      destruct how as [|g|g].
      * now apply HK.
      * destruct (Hex g (or_introl eq_refl)) as [_ Hr].
        replace (g - gen)%nat with (S (g - S gen)) by lia. now apply HK.
      * destruct (Hex g (or_intror eq_refl)) as [_ Hr].
        replace (g - gen)%nat with (S (g - S gen)) by lia. now apply HK.
Qed.

End LogLines.

Section LogOfCall.

Context {RE : RandomEngine}.

Lemma filter_seq_sorted (f : nat -> bool) (n start : nat) :
  StronglySorted lt (filter f (seq start n)).
Proof.
  revert start. induction n as [|n IH]; intros start; cbn [seq filter].
  - constructor.
  - destruct (f start); [|apply IH].
    constructor; [apply IH|].
    apply Forall_forall. intros x Hx. apply filter_In in Hx.
    destruct Hx as [Hx _]. apply in_seq in Hx. lia.
Qed.

Lemma filter_seq_all (f : nat -> bool) (n start : nat) :
  (forall g, f g = true) -> filter f (seq start n) = seq start n.
Proof.
  intros Hf. induction (seq start n) as [|x l IH]; cbn; auto.
  rewrite Hf. now f_equal.
Qed.

Lemma logs_at_one (g : nat) : logs_at 1 g = true.
Proof. unfold logs_at. rewrite Nat.mod_1_r. reflexivity. Qed.

(** The log of a call that enters the loop, as left by the loop. *)
Lemma evolve_log_lines (a : xnes) (pop : population) :
  check_problem pop = None -> m_gen a <> O ->
  let how := fst (fst (evolve_loop a pop)) in
  let log := get_log (fst (evolve a pop)) in
  map log_gen log
  = filter (logs_at (m_verbosity a))
           (seq 1 (updated_generations how (m_gen a))) /\
  Forall (fun line =>
            log_fevals line = (size pop * log_gen line)%nat /\
            0 <= log_dx line /\ 0 <= log_df line) log.
Proof.
  intros Hc Hg. cbv zeta.
  rewrite evolve_of_run, (evolve_run_accepted a pop Hc Hg). cbn [fst].
  unfold get_log, evolve_loop.
  destruct (reset_or_retain_log (set_log [] a) pop) as [Hl0 Hv0].
  cbn [m_log m_verbosity set_log] in Hl0, Hv0.
  match goal with
  | |- context [generations ?n ?d ?l ?lb ?ub ?u ?r ?f ?g ?a0 ?p] =>
      pose proof (generations_log_lines d l lb ub u r f n g a0 p) as H;
      destruct (generations n d l lb ub u r f g a0 p) as [[how a1] pop1]
  end.
  cbv zeta in H. cbn [fst snd] in *.
  destruct H as (l & Hl & Hgens & Hok); [lia | lia |].
  rewrite Hl0 in Hl. rewrite Hv0 in Hgens. cbn [app] in Hl.
  rewrite Hl. split; [|exact Hok].
  rewrite Hgens. destruct how; reflexivity.
Qed.

(** X9.  After a call that enters the loop, the generation numbers of the
    log lines are, in order, exactly the generations [g] carried through
    to the update (all of them up to the budget, or those before the
    generation of an early exit) with [g mod verbosity = 1], or all of
    these generations when the verbosity is [1]; they are strictly
    increasing.  With verbosity [1] the log has one line per such
    generation, so a call that exits early at generation [g] leaves
    [g - 1] lines: the generation of the exit is not logged. *)
Theorem evolve_log_generations (a : xnes) (pop : population) :
  check_problem pop = None -> m_gen a <> O ->
  let how := fst (fst (evolve_loop a pop)) in
  let done := updated_generations how (m_gen a) in
  let log := get_log (fst (evolve a pop)) in
  snd (evolve_run a pop) = inr (how, snd (evolve_loop a pop)) /\
  map log_gen log = filter (logs_at (m_verbosity a)) (seq 1 done) /\
  StronglySorted lt (map log_gen log) /\
  (m_verbosity a = 1%nat ->
   map log_gen log = seq 1 done /\ length log = done).
Proof.
  intros Hc Hg how done log.
  destruct (evolve_log_lines a pop Hc Hg) as [Hgens _].
  fold how done log in Hgens.
  split; [rewrite (evolve_run_accepted a pop Hc Hg); reflexivity|].
  split; [exact Hgens|].
  split; [rewrite Hgens; apply filter_seq_sorted|].
  intros Hv. rewrite Hv in Hgens.
  rewrite (filter_seq_all _ _ _ logs_at_one) in Hgens.
  split; [exact Hgens|].
  rewrite <- (length_map log_gen), Hgens. apply length_seq.
Qed.

(** X10.  Every line of the log of a call that enters the loop records
    [lam * gen] function evaluations, [lam] being the size of the
    population and [gen] the generation of the line, and flatness values
    [dx] and [df] that are not negative. *)
Theorem evolve_log_counts_evaluations (a : xnes) (pop : population) :
  check_problem pop = None -> m_gen a <> O ->
  Forall (fun line =>
            log_fevals line = (size pop * log_gen line)%nat /\
            0 <= log_dx line /\ 0 <= log_df line)
         (get_log (fst (evolve a pop))).
Proof.
  intros Hc Hg. exact (proj2 (evolve_log_lines a pop Hc Hg)).
Qed.

End LogOfCall.

(* ================================================================== *)
(** ** When and how the loop is left *)
(* ================================================================== *)

Section LeavingTheLoop.

Context {RE : RandomEngine}.

Variables (dim lam : nat) (lb ub : list R) (u : list R) (rates : R * R * R)
          (fevals0 : nat).

Lemma generations_never_exit (n gen : nat) (a : xnes) (pop : population) :
  m_xtol a <= 0 -> m_ftol a <= 0 ->
  fst (fst (generations n dim lam lb ub u rates fevals0 gen a pop))
  = exit_generations.
Proof.
  revert gen a pop. induction n as [|n IH]; intros gen a pop Hx Hf.
  - reflexivity.
  - cbn [generations].
    pose proof (generation_config dim lam lb ub u rates fevals0 gen a pop)
      as Hcfg.
    destruct (generation dim lam lb ub u rates fevals0 gen a pop)
      as [[[why|] a1] pop1] eqn:Eg.
    + exfalso.
      pose proof (generation_returns dim lam lb ub u rates fevals0 gen a pop
                    why) as Hret.
      cbv zeta in Hret. rewrite Eg in Hret.
      destruct (Hret eq_refl) as (_ & _ & Hwhy).
      pose proof (flatness_x_nonneg (A a)
                    (fst (fst (sampled dim lam lb ub a pop)))).
      pose proof (flatness_f_nonneg
                    (snd (fst (sampled dim lam lb ub a pop)))).
      destruct why; lra.
    + cbn [fst snd] in Hcfg. unfold same_config in Hcfg.
      decompose [and] Hcfg. apply IH; congruence.
Qed.

(** Where the loop is when it returns early. *)
Lemma generations_exit_state (n gen : nat) (a : xnes) (pop : population)
      (g : nat) :
  let r := generations n dim lam lb ub u rates fevals0 gen a pop in
  fst (fst r) = exit_xtol g \/ fst (fst r) = exit_ftol g ->
  exists ag popg,
    loop_reaches dim lam lb ub u rates fevals0 gen a pop g ag popg /\
    snd (fst r) = set_engine (snd (sampled dim lam lb ub ag popg)) ag /\
    snd r = snd (fst (sampled dim lam lb ub ag popg)) /\
    (fst (fst r) = exit_xtol g ->
     flatness_x (A ag) (fst (fst (sampled dim lam lb ub ag popg)))
       < m_xtol ag) /\
    (fst (fst r) = exit_ftol g ->
     ~ flatness_x (A ag) (fst (fst (sampled dim lam lb ub ag popg)))
         < m_xtol ag /\
     flatness_f (snd (fst (sampled dim lam lb ub ag popg))) < m_ftol ag).
Proof.
  revert gen a pop. induction n as [|n IH]; intros gen a pop; cbv zeta.
  - cbn. intros [H|H]; discriminate.
  - cbn [generations].
    destruct (generation dim lam lb ub u rates fevals0 gen a pop)
      as [[[why|] a1] pop1] eqn:Eg.
    + pose proof (generation_returns dim lam lb ub u rates fevals0 gen a pop
                    why) as Hret.
      cbv zeta in Hret. rewrite Eg in Hret.
      destruct (Hret eq_refl) as (Hst & _ & Hwhy).
      injection Hst as Ha1 Hp1.
      destruct why; cbn [fst snd]; intros [H|H]; inversion H; subst g;
        exists a, pop;
        (split; [apply reaches_here|]);
        (split; [exact Ha1|]); (split; [exact Hp1|]);
        split; intros H'; try discriminate H'; exact Hwhy.
    + intros H. specialize (IH (S gen) a1 pop1). cbv zeta in IH.
      destruct (IH H) as (ag & popg & Hr & Hrest).
      exists ag, popg. split; [|exact Hrest].
      eapply reaches_next; eassumption.
Qed.

End LeavingTheLoop.

Section LeavingEvolve.

Context {RE : RandomEngine}.

(** X11.  The exit conditions are looked at in generations 10, 20, ...
    only: a call with a budget below ten generations always runs its
    whole budget, whatever the tolerances. *)
Theorem evolve_short_budget_runs_out (a : xnes) (pop : population) :
  check_problem pop = None -> (m_gen a < 10)%nat ->
  exists pop',
    snd (evolve_run a pop) = inr (exit_generations, pop').
Proof.
  intros Hc Hlt.
  destruct (Nat.eq_dec (m_gen a) 0) as [Hg|Hg].
  - rewrite (evolve_run_nothing_to_do a pop Hc Hg). cbn. eauto.
  - rewrite (evolve_run_accepted a pop Hc Hg). cbn [snd].
    exists (snd (evolve_loop a pop)). do 2 f_equal.
    destruct (fst (fst (evolve_loop a pop))) as [|g|g] eqn:E;
      [reflexivity | exfalso | exfalso];
      unfold evolve_loop in E;
      match type of E with
      | fst (fst (generations ?n ?d ?l ?lb ?ub ?u ?r ?f ?g0 ?a0 ?p)) = _ =>
          pose proof (generations_exit_generation d l lb ub u r f n g0 a0 p g)
            as Hex
      end;
      rewrite E in Hex.
    + destruct (Hex (or_introl eq_refl)) as [Hm Hr].
      rewrite Nat.mod_small in Hm by lia. lia.
    + destruct (Hex (or_intror eq_refl)) as [Hm Hr].
      rewrite Nat.mod_small in Hm by lia. lia.
Qed.

(** X12.  The two exit tests are strict comparisons of a norm and of an
    absolute value with the tolerances: with [xtol <= 0] and [ftol <= 0]
    neither can fire, and the call runs its whole budget. *)
Theorem evolve_nonpositive_tolerances_run_out (a : xnes) (pop : population) :
  check_problem pop = None -> m_xtol a <= 0 -> m_ftol a <= 0 ->
  exists pop',
    snd (evolve_run a pop) = inr (exit_generations, pop').
Proof.
  intros Hc Hx Hf.
  destruct (Nat.eq_dec (m_gen a) 0) as [Hg|Hg].
  - rewrite (evolve_run_nothing_to_do a pop Hc Hg). cbn. eauto.
  - rewrite (evolve_run_accepted a pop Hc Hg). cbn [snd].
    exists (snd (evolve_loop a pop)). do 2 f_equal.
    unfold evolve_loop. apply generations_never_exit.
    + pose proof (reset_or_retain_config (set_log [] a) pop) as H.
      unfold same_config in H. decompose [and] H.
      cbn [m_xtol set_log] in *. congruence.
    + pose proof (reset_or_retain_config (set_log [] a) pop) as H.
      unfold same_config in H. decompose [and] H.
      cbn [m_ftol set_log] in *. congruence.
Qed.

(** X13.  When a call returns early at generation [g], the loop had
    reached [g] with an instance [ag] and a population [popg]; the
    instance returned is [ag] with only its engine advanced, so [mean],
    [A], [sigma] and the log are those of the end of generation [g - 1]
    (the last generation is neither logged nor used for an update), and
    the population returned is the one sampled in generation [g].  The
    exit is reported on [xtol] when [|A z_0| < xtol], and on [ftol] only
    when that test failed and the fitness gap is below [ftol]. *)
Theorem evolve_early_exit_state (a : xnes) (pop : population) (g : nat) :
  check_problem pop = None -> m_gen a <> O ->
  let prob := get_problem pop in
  let dim := get_nx prob in
  let lam := size pop in
  let lb := get_lb prob in
  let ub := get_ub prob in
  let how := fst (fst (evolve_loop a pop)) in
  let a' := fst (evolve a pop) in
  how = exit_xtol g \/ how = exit_ftol g ->
  exists ag popg,
    loop_reaches dim lam lb ub (utilities lam) (learning_rates a dim)
                 (get_fevals prob) 1
                 (reset_or_retain (set_log [] a) pop) pop g ag popg /\
    mean a' = mean ag /\ A a' = A ag /\ sigma a' = sigma ag /\
    m_log a' = m_log ag /\
    snd (evolve a pop) = inr (snd (fst (sampled dim lam lb ub ag popg))) /\
    (how = exit_xtol g ->
     flatness_x (A ag) (fst (fst (sampled dim lam lb ub ag popg)))
       < m_xtol ag) /\
    (how = exit_ftol g ->
     ~ flatness_x (A ag) (fst (fst (sampled dim lam lb ub ag popg)))
         < m_xtol ag /\
     flatness_f (snd (fst (sampled dim lam lb ub ag popg))) < m_ftol ag).
Proof.
  intros Hc Hg prob dim lam lb ub how a'.
  subst how a' lb ub lam dim prob. intros Hhow.
  unfold evolve_loop in Hhow.
  apply generations_exit_state in Hhow.
  destruct Hhow as (ag & popg & Hr & Ha & Hp & Hx & Hf).
  exists ag, popg. split; [exact Hr|].
  rewrite evolve_of_run, (evolve_run_accepted a pop Hc Hg). cbn [fst snd].
  unfold evolve_loop. rewrite Ha, Hp. cbn [mean A sigma m_log set_engine].
  split; [reflexivity|]. split; [reflexivity|]. split; [reflexivity|].
  split; [reflexivity|]. split; [reflexivity|].
  split; [exact Hx | exact Hf].
Qed.

End LeavingEvolve.

(* ================================================================== *)
(** ** What the outcome of a call does not depend on *)
(* ================================================================== *)

Section Independence.

Context {RE : RandomEngine}.

(** X14.  With memory retention disabled, the [mean], [A] and [sigma] an
    instance holds from earlier calls have no influence on a call: the
    outcome is the same whatever they are, and so is the whole instance
    after a call that enters the loop. *)
Theorem evolve_without_memory_forgets
        (a : xnes) (pop : population) (s : R) (m : list R)
        (M : list (list R)) :
  m_memory a = false ->
  snd (evolve (set_memory s m M a) pop) = snd (evolve a pop) /\
  snd (evolve_run (set_memory s m M a) pop) = snd (evolve_run a pop) /\
  (check_problem pop = None -> m_gen a <> O ->
   fst (evolve (set_memory s m M a) pop) = fst (evolve a pop)).
Proof.
  intros Hm.
  assert (Hloop : evolve_loop (set_memory s m M a) pop = evolve_loop a pop).
  { unfold evolve_loop.
    change (m_gen (set_memory s m M a)) with (m_gen a).
    change (learning_rates (set_memory s m M a)) with (learning_rates a).
    f_equal.
    rewrite (reset_or_retain_erases (set_log [] (set_memory s m M a)) pop)
      by (left; exact Hm).
    rewrite (reset_or_retain_erases (set_log [] a) pop) by (left; exact Hm).
    reflexivity. }
  assert (Hrun : snd (evolve_run (set_memory s m M a) pop)
                 = snd (evolve_run a pop) /\
                 (check_problem pop = None -> m_gen a <> O ->
                  fst (evolve_run (set_memory s m M a) pop)
                  = fst (evolve_run a pop))).
  { destruct (check_problem pop) as [ex|] eqn:Hc.
    - rewrite !(evolve_run_rejected _ pop ex Hc).
      split; [reflexivity | discriminate].
    - destruct (Nat.eq_dec (m_gen a) 0) as [Hg|Hg].
      + rewrite (evolve_run_nothing_to_do (set_memory s m M a) pop Hc Hg).
        rewrite (evolve_run_nothing_to_do a pop Hc Hg).
        split; [reflexivity | contradiction].
      + rewrite (evolve_run_accepted (set_memory s m M a) pop Hc Hg).
        rewrite (evolve_run_accepted a pop Hc Hg).
        rewrite Hloop. split; reflexivity. }
  destruct Hrun as [Hs Hf].
  rewrite !evolve_of_run. cbn [fst snd]. rewrite Hs.
  split; [reflexivity|]. split; [reflexivity|]. exact Hf.
Qed.

(** *** Verbosity and log *)

Lemma quiet_update_distribution (dim : nat) (u : list R) (rates : R * R * R)
      (z : list (list R)) (s_idx : list nat) (a : xnes) :
  quiet (update_distribution dim u rates z s_idx a)
  = update_distribution dim u rates z s_idx (quiet a).
Proof. destruct rates as [[eta_mu eta_sigma] eta_b]. reflexivity. Qed.

Lemma quiet_log_generation (a : xnes) (fevals0 gen : nat)
      (z : list (list R)) (pop : population) :
  quiet (log_generation a fevals0 gen z pop) = quiet a.
Proof.
  unfold log_generation.
  destruct (0 <? m_verbosity a)%nat; [|reflexivity].
  destruct ((gen mod m_verbosity a =? 1)%nat || (m_verbosity a =? 1)%nat);
    reflexivity.
Qed.

Lemma quiet_reset_or_retain (a : xnes) (pop : population) :
  quiet (reset_or_retain a pop) = reset_or_retain (quiet a) pop.
Proof.
  unfold reset_or_retain. cbv zeta.
  change (mean (quiet a)) with (mean a).
  change (m_memory (quiet a)) with (m_memory a).
  destruct (negb _ || eqb _ _); reflexivity.
Qed.

Lemma generation_quiet (dim lam : nat) (lb ub u : list R)
      (rates : R * R * R) (fevals0 gen : nat) (a : xnes) (pop : population) :
  let r := generation dim lam lb ub u rates fevals0 gen a pop in
  let rq := generation dim lam lb ub u rates fevals0 gen (quiet a) pop in
  fst (fst r) = fst (fst rq) /\ snd r = snd rq /\
  quiet (snd (fst r)) = snd (fst rq).
Proof.
  cbv zeta. unfold generation.
  change (sampled dim lam lb ub (quiet a) pop)
    with (sampled dim lam lb ub a pop).
  destruct (sampled dim lam lb ub a pop) as [[z pop1] e1].
  change (check_exit (set_engine e1 (quiet a)) gen z pop1)
    with (check_exit (set_engine e1 a) gen z pop1).
  destruct (check_exit (set_engine e1 a) gen z pop1); cbn [fst snd].
  - repeat split.
  - split; [reflexivity|]. split; [reflexivity|].
    rewrite quiet_update_distribution, quiet_log_generation. reflexivity.
Qed.

Lemma generations_quiet (n : nat) (dim lam : nat) (lb ub u : list R)
      (rates : R * R * R) (fevals0 gen : nat) (a b : xnes)
      (pop : population) :
  quiet a = quiet b ->
  let ra := generations n dim lam lb ub u rates fevals0 gen a pop in
  let rb := generations n dim lam lb ub u rates fevals0 gen b pop in
  fst (fst ra) = fst (fst rb) /\ snd ra = snd rb /\
  quiet (snd (fst ra)) = quiet (snd (fst rb)).
Proof.
  revert gen a b pop. induction n as [|n IH]; intros gen a b pop Hq;
    cbv zeta.
  - cbn. auto.
  - cbn [generations].
    pose proof (generation_quiet dim lam lb ub u rates fevals0 gen a pop)
      as Ha.
    pose proof (generation_quiet dim lam lb ub u rates fevals0 gen b pop)
      as Hb.
    cbv zeta in Ha, Hb. rewrite <- Hq in Hb.
    destruct (generation dim lam lb ub u rates fevals0 gen (quiet a) pop)
      as [[wq aq] pq].
    destruct (generation dim lam lb ub u rates fevals0 gen a pop)
      as [[wa a1] pa].
    destruct (generation dim lam lb ub u rates fevals0 gen b pop)
      as [[wb b1] pb].
    cbn [fst snd] in *.
    destruct Ha as (-> & -> & Ha). destruct Hb as (-> & -> & Hb).
    destruct wq as [[|]|]; cbn [fst snd].
    + repeat split. congruence.
    + repeat split. congruence.
    + apply IH. congruence.
Qed.

(** X15.  The verbosity decides what is logged and nothing else: with
    any other verbosity a call raises the same exception or returns the
    same population, leaves its loop in the same way, and leaves the same
    [mean], [A], [sigma] and random engine in the instance. *)
Theorem evolve_verbosity_is_observation_only
        (a : xnes) (pop : population) (level : nat) :
  let a1 := fst (evolve (set_verbosity level a) pop) in
  let a2 := fst (evolve a pop) in
  snd (evolve (set_verbosity level a) pop) = snd (evolve a pop) /\
  snd (evolve_run (set_verbosity level a) pop) = snd (evolve_run a pop) /\
  mean a1 = mean a2 /\ A a1 = A a2 /\ sigma a1 = sigma a2 /\
  m_e a1 = m_e a2.
Proof.
  cbv zeta.
  assert (Hrun : snd (evolve_run (set_verbosity level a) pop)
                 = snd (evolve_run a pop) /\
                 quiet (fst (evolve_run (set_verbosity level a) pop))
                 = quiet (fst (evolve_run a pop))).
  { destruct (check_problem pop) as [ex|] eqn:Hc.
    - rewrite !(evolve_run_rejected _ pop ex Hc). split; reflexivity.
    - destruct (Nat.eq_dec (m_gen a) 0) as [Hg|Hg].
      + rewrite (evolve_run_nothing_to_do (set_verbosity level a) pop Hc Hg).
        rewrite (evolve_run_nothing_to_do a pop Hc Hg).
        split; reflexivity.
      + rewrite (evolve_run_accepted (set_verbosity level a) pop Hc Hg).
        rewrite (evolve_run_accepted a pop Hc Hg). cbn [fst snd].
        unfold evolve_loop.
        change (m_gen (set_verbosity level a)) with (m_gen a).
        change (learning_rates (set_verbosity level a))
          with (learning_rates a).
        match goal with
        | |- context [generations ?n ?d ?l ?lb ?ub ?u ?r ?f ?g
                        (reset_or_retain (set_log [] a) pop) ?p] =>
            pose proof (generations_quiet n d l lb ub u r f g
                          (reset_or_retain
                             (set_log [] (set_verbosity level a)) pop)
                          (reset_or_retain (set_log [] a) pop) p) as H
        end.
        cbv zeta in H. destruct H as (H1 & H2 & H3).
        { rewrite !quiet_reset_or_retain. reflexivity. }
        rewrite H1, H2. split; [reflexivity | exact H3]. }
  destruct Hrun as [Hs Hq].
  rewrite !evolve_of_run. cbn [fst snd]. rewrite Hs.
  split; [reflexivity|]. split; [reflexivity|].
  repeat split.
  - exact (f_equal mean Hq).
  - exact (f_equal A Hq).
  - exact (f_equal sigma Hq).
  - exact (f_equal m_e Hq).
Qed.

End Independence.

(* ================================================================== *)
(** ** The step size *)
(* ================================================================== *)

Section StepSize.

Context {RE : RandomEngine}.

Lemma update_distribution_sigma (dim : nat) (u : list R) (rates : R * R * R)
      (z : list (list R)) (s_idx : list nat) (a : xnes) :
  exists c, 0 < c /\
    sigma (update_distribution dim u rates z s_idx a) = sigma a * c.
Proof.
  destruct rates as [[eta_mu eta_sigma] eta_b].
  unfold update_distribution. cbn [sigma set_memory].
  eexists. split; [apply exp_pos | reflexivity].
Qed.

Lemma generation_sigma (dim lam : nat) (lb ub u : list R)
      (rates : R * R * R) (fevals0 gen : nat) (a : xnes) (pop : population) :
  exists c, 0 < c /\
    sigma (snd (fst (generation dim lam lb ub u rates fevals0 gen a pop)))
    = sigma a * c.
Proof.
  unfold generation.
  destruct (sampled dim lam lb ub a pop) as [[z pop1] e1].
  destruct (check_exit (set_engine e1 a) gen z pop1); cbn [fst snd].
  - exists 1. split; [lra | cbn; lra].
  - destruct (update_distribution_sigma dim u rates z (sort_indices pop1 lam)
                (log_generation (set_engine e1 a) fevals0 gen z pop1))
      as (c & Hc & ->).
    exists c. split; [exact Hc|].
    destruct (log_generation_memory (set_engine e1 a) fevals0 gen z pop1)
      as (_ & _ & ->).
    reflexivity.
Qed.

Lemma generations_sigma (n : nat) (dim lam : nat) (lb ub u : list R)
      (rates : R * R * R) (fevals0 gen : nat) (a : xnes) (pop : population) :
  exists c, 0 < c /\
    sigma (snd (fst (generations n dim lam lb ub u rates fevals0 gen a pop)))
    = sigma a * c.
Proof.
  revert gen a pop. induction n as [|n IH]; intros gen a pop.
  - exists 1. split; [lra | cbn; lra].
  - cbn [generations].
    destruct (generation_sigma dim lam lb ub u rates fevals0 gen a pop)
      as (c1 & Hc1 & Hs1).
    destruct (generation dim lam lb ub u rates fevals0 gen a pop)
      as [[[why|] a1] pop1]; cbn [fst snd] in Hs1.
    + exists c1. destruct why; cbn [fst snd]; auto.
    + destruct (IH (S gen) a1 pop1) as (c2 & Hc2 & Hs2).
      exists (c1 * c2). split; [now apply Rmult_lt_0_compat|].
      rewrite Hs2, Hs1. ring.
Qed.

Lemma construct_inr_acceptable
      (gen : nat) (eta_mu eta_sigma eta_b sigma0 ftol xtol : R)
      (memory : bool) (seed : nat) (a : xnes) :
  construct gen eta_mu eta_sigma eta_b sigma0 ftol xtol memory seed = inr a ->
  acceptable (m_eta_mu a) /\ acceptable (m_eta_sigma a) /\
  acceptable (m_eta_b a) /\ acceptable (m_sigma0 a).
Proof.
  unfold construct.
  destruct (out_of_range eta_mu) eqn:E1; [discriminate|].
  destruct (out_of_range eta_sigma) eqn:E2; [discriminate|].
  destruct (out_of_range eta_b) eqn:E3; [discriminate|].
  destruct (out_of_range sigma0) eqn:E4; [discriminate|].
  intros H. inversion H. cbn.
  repeat split; now apply out_of_range_acceptable.
Qed.

(** The rates and the initial scale of every instance a program can hold
    passed the checks of the constructor. *)
Lemma reachable_acceptable (a : xnes) :
  reachable a ->
  acceptable (m_eta_mu a) /\ acceptable (m_eta_sigma a) /\
  acceptable (m_eta_b a) /\ acceptable (m_sigma0 a).
Proof.
  induction 1 as [? ? ? ? ? ? ? ? ? a Hc | | | a pop _ IH]; auto.
  - eapply construct_inr_acceptable; eauto.
  - pose proof (evolve_config a pop) as H. unfold same_config in H.
    decompose [and] H. decompose [and] IH.
    repeat split; congruence.
Qed.

(** X16.  The step size never changes sign within a call: each update
    multiplies [sigma] by an exponential.  So a call that erases the
    memory (retention disabled, or a mean of another dimension) ends with
    [sigma > 0], while a call that keeps the memory ends with [sigma]
    equal to the stored one times a positive factor: a negative [sigma],
    as the sentinel left by the constructor, stays negative. *)
Theorem evolve_sigma_keeps_sign (a : xnes) (pop : population) :
  reachable a -> check_problem pop = None -> m_gen a <> O ->
  let dim := get_nx (get_problem pop) in
  let a' := fst (evolve a pop) in
  (m_memory a = false \/ length (mean a) <> dim -> 0 < sigma a') /\
  (m_memory a = true /\ length (mean a) = dim ->
   exists c, 0 < c /\ sigma a' = sigma a * c).
Proof.
  intros Hr Hc Hg dim a'.
  assert (Ea : a' = snd (fst (evolve_loop a pop))).
  { unfold a'. rewrite evolve_of_run, (evolve_run_accepted a pop Hc Hg).
    reflexivity. }
  rewrite Ea. unfold evolve_loop.
  match goal with
  | |- context [generations ?n ?d ?l ?lb ?ub ?u ?r ?f ?g ?a0 ?p] =>
      destruct (generations_sigma n d l lb ub u r f g a0 p)
        as (c & Hpos & Hs)
  end.
  rewrite Hs. split.
  - intros He.
    rewrite (reset_or_retain_erases (set_log [] a) pop He). cbv zeta.
    cbn [sigma set_memory m_sigma0 set_log].
    apply Rmult_lt_0_compat; [|exact Hpos].
    destruct (reachable_acceptable a Hr) as (_ & _ & _ & Hs0).
    destruct (Req_dec_T (m_sigma0 a) (-1)) as [|Hne]; [lra|].
    destruct Hs0 as [Hs0|Hs0]; [lra | contradiction].
  - intros [Hm Hd].
    rewrite (reset_or_retain_keeps (set_log [] a) pop Hm Hd).
    exists c. split; [exact Hpos | reflexivity].
Qed.

End StepSize.

(* ================================================================== *)
(** ** The shape of the utility weights *)
(* ================================================================== *)

Lemma utilities_length (lam : nat) : length (utilities lam) = lam.
Proof.
  unfold utilities. cbv zeta. rewrite length_map. apply raw_utilities_length.
Qed.

Lemma nth_raw_utilities (lam i : nat) :
  (i < lam)%nat ->
  nth i (raw_utilities lam) 0
  = Rmax 0 (ln (INR lam / 2 + 1) - ln (INR (i + 1))).
Proof. intros Hi. unfold raw_utilities. now rewrite nth_map_seq. Qed.

Lemma nth_utilities (lam i : nat) :
  (i < lam)%nat ->
  nth i (utilities lam) 0
  = nth i (raw_utilities lam) 0 / total (raw_utilities lam) - 1 / INR lam.
Proof.
  intros Hi.
  change (utilities lam)
    with (map (fun w => w / total (raw_utilities lam) - 1 / INR lam)
              (raw_utilities lam)).
  set (f := fun w => w / total (raw_utilities lam) - 1 / INR lam).
  rewrite (nth_indep _ 0 (f 0))
    by (now rewrite length_map, raw_utilities_length).
  apply (map_nth f).
Qed.

Lemma raw_utilities_decreasing (lam i j : nat) :
  (i <= j)%nat -> (j < lam)%nat ->
  nth j (raw_utilities lam) 0 <= nth i (raw_utilities lam) 0.
Proof.
  intros Hij Hj. rewrite !nth_raw_utilities by lia.
  apply Rle_max_compat_l.
  assert (Hpos : 0 < INR (i + 1)) by (apply lt_0_INR; lia).
  assert (Hle : INR (i + 1) <= INR (j + 1)) by (apply le_INR; lia).
  destruct Hle as [Hlt|Heq].
  - pose proof (ln_increasing _ _ Hpos Hlt). lra.
  - rewrite Heq. lra.
Qed.

Lemma raw_utilities_tail (lam i : nat) :
  (i < lam)%nat -> (lam <= 2 * i)%nat -> nth i (raw_utilities lam) 0 = 0.
Proof.
  intros Hi Hhalf. rewrite nth_raw_utilities by assumption.
  apply Rmax_left.
  assert (Hle : INR lam / 2 + 1 <= INR (i + 1)).
  { rewrite plus_INR. cbn [INR].
    apply le_INR in Hhalf. rewrite mult_INR in Hhalf. cbn [INR] in Hhalf.
    lra. }
  assert (Hpos : 0 < INR lam / 2 + 1).
  { pose proof (pos_INR lam). lra. }
  destruct Hle as [Hlt|Heq].
  - pose proof (ln_increasing _ _ Hpos Hlt). lra.
  - rewrite Heq. lra.
Qed.

Lemma total_app (l1 l2 : list R) : total (l1 ++ l2) = total l1 + total l2.
Proof.
  unfold total at 1. rewrite fold_left_app, fold_left_Rplus_acc.
  reflexivity.
Qed.

Lemma total_le_bound (bound : R) (l : list R) :
  Forall (fun x => x <= bound) l -> total l <= INR (length l) * bound.
Proof.
  induction 1 as [|x l Hx _ IH].
  - unfold total. cbn. lra.
  - rewrite total_cons. change (length (x :: l)) with (S (length l)).
    rewrite S_INR. lra.
Qed.

(** With two individuals or more the last raw weight is zero, so the sum
    of the raw weights is below [lam] times the first one. *)
Lemma raw_utilities_total_below (lam : nat) :
  (2 <= lam)%nat ->
  total (raw_utilities lam) < INR lam * nth 0 (raw_utilities lam) 0.
Proof.
  intros Hlam. destruct lam as [|n]; [lia|].
  set (w0 := nth 0 (raw_utilities (S n)) 0).
  assert (Hw0 : 0 < w0).
  { unfold w0. rewrite nth_raw_utilities by lia.
    change (INR (0 + 1)) with 1. rewrite ln_1.
    assert (Hpos : 0 < INR (S n)) by (apply lt_0_INR; lia).
    assert (Hln : 0 < ln (INR (S n) / 2 + 1)).
    { rewrite <- ln_1. apply ln_increasing; lra. }
    pose proof (Rmax_r 0 (ln (INR (S n) / 2 + 1) - 0)). lra. }
  assert (Hsplit : raw_utilities (S n)
                   = firstn n (raw_utilities (S n))
                     ++ [nth n (raw_utilities (S n)) 0]).
  { rewrite <- (firstn_skipn n (raw_utilities (S n))) at 1. f_equal.
    apply (nth_ext _ _ 0 0).
    - rewrite length_skipn, raw_utilities_length. cbn [length]. lia.
    - intros k Hk. rewrite length_skipn, raw_utilities_length in Hk.
      assert (k = O) by lia. subst k.
      rewrite nth_skipn, Nat.add_0_r. reflexivity. }
  rewrite Hsplit, total_app.
  rewrite (raw_utilities_tail (S n) n) by lia.
  unfold total at 2. cbn [fold_left].
  assert (Hfirst : total (firstn n (raw_utilities (S n))) <= INR n * w0).
  { pose proof (total_le_bound w0 (firstn n (raw_utilities (S n)))) as Hb.
    rewrite length_firstn, raw_utilities_length in Hb.
    replace (Nat.min n (S n)) with n in Hb by lia.
    apply Hb. apply Forall_forall. intros x Hx.
    apply (In_nth _ _ 0) in Hx. destruct Hx as (k & Hk & <-).
    rewrite length_firstn, raw_utilities_length in Hk.
    rewrite nth_firstn.
    destruct (Nat.ltb_spec k n) as [_|]; [|lia].
    unfold w0. apply raw_utilities_decreasing; lia. }
  rewrite S_INR. lra.
Qed.

(** X17.  The utility weights are [lam] numbers that do not increase with
    the rank: a better individual never weighs less than a worse one. *)
Theorem utilities_do_not_increase (lam i j : nat) :
  (i <= j)%nat -> (j < lam)%nat ->
  length (utilities lam) = lam /\
  nth j (utilities lam) 0 <= nth i (utilities lam) 0.
Proof.
  intros Hij Hj. split; [apply utilities_length|].
  rewrite !nth_utilities by lia.
  pose proof (raw_utilities_decreasing lam i j Hij Hj) as Hraw.
  assert (HS : 0 < total (raw_utilities lam))
    by (apply raw_utilities_total_pos; lia).
  unfold Rdiv. apply Rplus_le_compat_r.
  apply Rmult_le_compat_r; [|exact Hraw].
  left. now apply Rinv_0_lt_compat.
Qed.

(** X18.  The ranks [i] with [2 i >= lam], the worse half of the
    population, all have the weight [-1/lam]; with two individuals or
    more the best rank has a positive weight. *)
Theorem utilities_signs (lam : nat) :
  (2 <= lam)%nat ->
  0 < nth 0 (utilities lam) 0 /\
  forall i, (i < lam)%nat -> (lam <= 2 * i)%nat ->
            nth i (utilities lam) 0 = - (1 / INR lam).
Proof.
  intros Hlam. split.
  - rewrite nth_utilities by lia.
    pose proof (raw_utilities_total_below lam Hlam) as Hbelow.
    assert (HS : 0 < total (raw_utilities lam))
      by (apply raw_utilities_total_pos; lia).
    assert (HL : 0 < INR lam) by (apply lt_0_INR; lia).
    set (S := total (raw_utilities lam)) in *.
    set (w0 := nth 0 (raw_utilities lam) 0) in *.
    replace (w0 / S - 1 / INR lam) with ((INR lam * w0 - S) / (S * INR lam))
      by (field; split; lra).
    apply Rdiv_lt_0_compat; [lra | now apply Rmult_lt_0_compat].
  - intros i Hi Hhalf. rewrite nth_utilities by assumption.
    rewrite (raw_utilities_tail lam i Hi Hhalf). unfold Rdiv. ring.
Qed.

Lemma utilities_do_not_increase_witness :
  (0 <= 1)%nat /\ (1 < 5)%nat /\
  nth 1 (utilities 5) 0 <= nth 0 (utilities 5) 0.
Proof.
  split; [lia|]. split; [lia|].
  apply (utilities_do_not_increase 5 0 1); lia.
Defined.

Lemma utilities_signs_witness :
  (2 <= 5)%nat /\ 0 < nth 0 (utilities 5) 0 /\
  nth 4 (utilities 5) 0 = - (1 / INR 5).
Proof.
  split; [lia|].
  destruct (utilities_signs 5) as [Hbest Htail]; [lia|].
  split; [exact Hbest | apply Htail; lia].
Defined.

(* ================================================================== *)
(** ** The dimensions of the memory *)
(* ================================================================== *)

Lemma madd_length (M N : list (list R)) :
  length (madd M N) = Nat.min (length M) (length N).
Proof.
  revert N. induction M as [|r M IH]; intros [|s N]; simpl; auto.
Qed.

Lemma msub_length (M N : list (list R)) :
  length (msub M N) = Nat.min (length M) (length N).
Proof.
  revert N. induction M as [|r M IH]; intros [|s N]; simpl; auto.
Qed.

Lemma mscale_length (c : R) (M : list (list R)) :
  length (mscale c M) = length M.
Proof. apply length_map. Qed.

Lemma identity_length (n : nat) : length (identity n) = n.
Proof. apply identity_is_matrix. Qed.

Lemma mexp_length (M : list (list R)) : length (mexp M) = length M.
Proof. unfold mexp. now rewrite length_map, length_seq. Qed.

Lemma ncols_mexp (M : list (list R)) : ncols (mexp M) = length M.
Proof.
  unfold ncols, mexp. destruct (length M) as [|n]; [reflexivity|].
  rewrite <- cons_seq at 1. cbn [map hd].
  now rewrite length_map, length_seq.
Qed.

Lemma mat_mul_is_matrix (M N : list (list R)) :
  is_matrix (length M) (ncols N) (mat_mul M N).
Proof.
  unfold is_matrix, mat_mul. split; [apply length_map|].
  apply Forall_forall. intros r Hr. apply in_map_iff in Hr.
  destruct Hr as [x [<- _]]. now rewrite length_map, length_seq.
Qed.

Lemma fold_madd_length (D : nat) (t : nat -> list (list R)) (l : list nat)
      (T0 : list (list R)) :
  length T0 = D -> (forall i, In i l -> length (t i) = D) ->
  length (fold_left (fun acc i => madd acc (t i)) l T0) = D.
Proof.
  revert T0. induction l as [|i l IH]; intros T0 H0 Ht; cbn [fold_left].
  - exact H0.
  - apply IH.
    + rewrite madd_length, H0, (Ht i) by (now left). apply Nat.min_id.
    + intros k Hk. apply Ht. now right.
Qed.

Section Dimensions.

Context {RE : RandomEngine}.

Lemma cov_term_length (D : nat) (u : list R) (z : list (list R))
      (s_idx : list nat) (i : nat) :
  length (nth (nth i s_idx O) z []) = D ->
  length (cov_term (identity D) u z s_idx i) = D.
Proof.
  intros Hz. unfold cov_term, outer.
  rewrite mscale_length, msub_length, length_map, identity_length, Hz.
  apply Nat.min_id.
Qed.

(** The update leaves [A] with the rows it had and [dim] columns. *)
Lemma update_distribution_square (dim : nat) (u : list R)
      (rates : R * R * R) (z : list (list R)) (s_idx : list nat) (a : xnes) :
  (forall i, (i < Nat.max 1 (length u))%nat ->
             length (nth (nth i s_idx O) z []) = dim) ->
  is_matrix (length (A a)) dim
            (A (update_distribution dim u rates z s_idx a)).
Proof.
  intros Hz. destruct rates as [[eta_mu eta_sigma] eta_b].
  unfold update_distribution. cbn [A set_memory].
  match goal with
  | |- is_matrix _ _ (mat_mul _ (mexp ?dA)) => set (d_A := dA)
  end.
  assert (HdA : length d_A = dim).
  { unfold d_A.
    rewrite mscale_length, madd_length, !mscale_length, msub_length,
      mscale_length, identity_length.
    assert (Hcov : length (cov_grad_of (identity dim) u z s_idx) = dim).
    { unfold cov_grad_of. apply fold_madd_length.
      - apply cov_term_length, Hz. lia.
      - intros i Hi. apply in_seq in Hi. apply cov_term_length, Hz. lia. }
    rewrite Hcov. lia. }
  pose proof (mat_mul_is_matrix (A a) (mexp d_A)) as H.
  rewrite ncols_mexp, HdA in H. exact H.
Qed.

Variables (dim : nat) (lb ub : list R) (rates : R * R * R) (fevals0 : nat).

(** [mean] has [dim] entries and [A] is a [dim x dim] matrix. *)
Let square (a : xnes) : Prop :=
  length (mean a) = dim /\ is_matrix dim dim (A a).

Lemma generation_square (gen : nat) (a : xnes) (pop : population) :
  (1 <= size pop)%nat -> square a ->
  square (snd (fst (generation dim (size pop) lb ub (utilities (size pop))
                               rates fevals0 gen a pop))).
Proof.
  intros Hlam [Hm HA].
  destruct (generation_shape dim (size pop) lb ub (utilities (size pop))
              rates fevals0 gen a pop) as [[Hm1 _] _].
  { split; [exact Hm | apply HA]. }
  split; [exact Hm1|].
  unfold generation.
  destruct (sampled dim (size pop) lb ub a pop) as [[z pop1] e1] eqn:Es.
  destruct (check_exit (set_engine e1 a) gen z pop1); cbn [fst snd].
  - exact HA.
  - pose proof (update_distribution_square dim (utilities (size pop)) rates
                  z (sort_indices pop1 (size pop))
                  (log_generation (set_engine e1 a) fevals0 gen z pop1))
      as H.
    destruct (log_generation_memory (set_engine e1 a) fevals0 gen z pop1)
      as (_ & HA' & _).
    rewrite HA' in H. cbn [A set_engine] in H.
    destruct HA as [HlA _]. rewrite HlA in H. apply H.
    intros i Hi. rewrite utilities_length in Hi.
    replace z with (fst (fst (sampled dim (size pop) lb ub a pop)))
      by (now rewrite Es).
    apply sampled_noise_length. apply sort_indices_range. lia.
Qed.

Lemma generations_square (n gen : nat) (a : xnes) (pop : population) :
  (1 <= size pop)%nat -> square a ->
  square (snd (fst (generations n dim (size pop) lb ub
                                (utilities (size pop))
                                rates fevals0 gen a pop))).
Proof.
  revert gen a pop. induction n as [|n IH]; intros gen a pop Hlam Hsq.
  - exact Hsq.
  - cbn [generations].
    pose proof (generation_square gen a pop Hlam Hsq) as Hg.
    pose proof (generation_population dim lb ub (size pop)
                  (utilities (size pop)) rates fevals0 gen a pop) as Hp.
    pose proof (sampled_size dim lb ub a pop) as Hsz.
    rewrite <- Hp in Hsz.
    destruct (generation dim (size pop) lb ub (utilities (size pop))
                rates fevals0 gen a pop) as [[[why|] a1] pop1];
      cbn [fst snd] in *.
    + destruct why; exact Hg.
    + rewrite <- Hsz. apply IH; [lia | exact Hg].
Qed.

End Dimensions.

Section DimensionsOfEvolve.

Context {RE : RandomEngine}.

Lemma evolve_keeps_square (a : xnes) (pop : population) :
  is_matrix (length (mean a)) (length (mean a)) (A a) ->
  let a' := fst (evolve a pop) in
  is_matrix (length (mean a')) (length (mean a')) (A a') /\
  (check_problem pop = None -> m_gen a <> O ->
   length (mean a') = get_nx (get_problem pop)).
Proof.
  intros Hsq. cbv zeta. rewrite evolve_of_run. cbn [fst].
  destruct (check_problem pop) as [ex|] eqn:Hc.
  - rewrite (evolve_run_rejected a pop ex Hc).
    split; [exact Hsq | discriminate].
  - destruct (Nat.eq_dec (m_gen a) 0) as [Hg|Hg].
    + rewrite (evolve_run_nothing_to_do a pop Hc Hg).
      split; [exact Hsq | contradiction].
    + rewrite (evolve_run_accepted a pop Hc Hg). cbn [fst].
      unfold evolve_loop.
      apply check_problem_none in Hc. destruct Hc as (_ & _ & Hlam).
      match goal with
      | |- context [generations ?n ?d ?l ?lb ?ub ?u ?r ?f ?g ?a0 ?p] =>
          pose proof (generations_square d lb ub r f n g a0 p) as H
      end.
      destruct H as [Hm HA]; [lia | |].
      * set (a0 := reset_or_retain (set_log [] a) pop).
        assert (Hshape : memory_shaped (get_nx (get_problem pop)) a0).
        { apply reset_or_retain_shape. cbn [A mean set_log]. apply Hsq. }
        split; [apply Hshape|].
        unfold a0, reset_or_retain. cbv zeta.
        cbn [mean m_memory set_log].
        destruct (Nat.eqb_spec (length (mean a)) (get_nx (get_problem pop)))
          as [Hd|Hd]; cbn [negb orb].
        -- destruct (m_memory a); cbn [eqb].
           ++ cbn [A set_log]. rewrite <- Hd. exact Hsq.
           ++ cbn [A set_memory]. apply initial_A_is_matrix.
        -- cbn [A set_memory]. apply initial_A_is_matrix.
      * rewrite Hm. split; [exact HA | reflexivity].
Qed.

Lemma reachable_square (a : xnes) :
  reachable a -> is_matrix (length (mean a)) (length (mean a)) (A a).
Proof.
  induction 1 as [? ? ? ? ? ? ? ? ? a Hc | | | a pop _ IH]; auto.
  - apply construct_inr in Hc. subst a. cbn.
    split; [reflexivity | repeat constructor].
  - now apply evolve_keeps_square.
Qed.

(** X19.  In every instance a program can hold, [A] is a square matrix
    with as many rows and columns as [mean] has entries: one by one after
    construction, and of the dimension of the problem after every call
    that ran its loop. *)
Theorem memory_is_square (a : xnes) :
  reachable a ->
  is_matrix (length (mean a)) (length (mean a)) (A a) /\
  forall pop,
    check_problem pop = None -> m_gen a <> O ->
    length (mean (fst (evolve a pop))) = get_nx (get_problem pop) /\
    is_matrix (get_nx (get_problem pop)) (get_nx (get_problem pop))
              (A (fst (evolve a pop))).
Proof.
  intros Hr. pose proof (reachable_square a Hr) as Hsq.
  split; [exact Hsq|].
  intros pop Hc Hg.
  destruct (evolve_keeps_square a pop Hsq) as [Hsq' Hdim].
  specialize (Hdim Hc Hg). split; [exact Hdim|].
  rewrite <- Hdim. exact Hsq'.
Qed.

End DimensionsOfEvolve.

(* ================================================================== *)
(** ** A flat objective *)
(* ================================================================== *)

Section FlatObjective.

Context {RE : RandomEngine}.

Variables (dim lam : nat) (lb ub : list R) (u : list R) (rates : R * R * R)
          (fevals0 : nat).

(** The generations before the next multiple of ten all go on to the
    update. *)
Lemma generations_before_check (k n gen : nat) (a : xnes) (pop : population) :
  (forall j, (j < k)%nat -> ((gen + j) mod 10 <> 0)%nat) ->
  exists ak popk,
    generations (k + n) dim lam lb ub u rates fevals0 gen a pop
    = generations n dim lam lb ub u rates fevals0 (gen + k) ak popk /\
    same_config a ak /\
    same_problem_data (get_problem pop) (get_problem popk) /\
    size popk = size pop /\
    length (get_f popk) = length (get_f pop).
Proof.
  revert gen a pop. induction k as [|k IH]; intros gen a pop Hno.
  - exists a, pop. rewrite Nat.add_0_r. cbn [Nat.add].
    split; [reflexivity|]. split; [apply same_config_refl|].
    split; [apply same_problem_data_refl | auto].
  - cbn [Nat.add generations].
    pose proof (generation_config dim lam lb ub u rates fevals0 gen a pop)
      as Hcfg.
    pose proof (generation_population dim lb ub lam u rates fevals0 gen a pop)
      as Hp.
    pose proof (sampled_frame dim lb ub lam a pop) as Hfr. cbv zeta in Hfr.
    rewrite <- Hp in Hfr. destruct Hfr as (Hd & _ & _ & Hsz & Hl).
    destruct (generation dim lam lb ub u rates fevals0 gen a pop)
      as [[[why|] a1] pop1] eqn:Eg; cbn [fst snd] in *.
    + exfalso.
      pose proof (generation_returns dim lam lb ub u rates fevals0 gen a pop
                    why) as Hret.
      cbv zeta in Hret. rewrite Eg in Hret.
      destruct (Hret eq_refl) as (_ & Hm & _).
      apply (Hno O); [lia | now rewrite Nat.add_0_r].
    + destruct (IH (S gen) a1 pop1) as (ak & popk & He & Hc & Hdk & Hsk & Hlk).
      { intros j Hj. replace (S gen + j)%nat with (gen + S j)%nat by lia.
        apply Hno. lia. }
      exists ak, popk.
      replace (gen + S k)%nat with (S gen + k)%nat by lia.
      split; [exact He|].
      split; [eapply same_config_trans; eassumption|].
      split; [eapply same_problem_data_trans; eassumption|].
      split; congruence.
Qed.

End FlatObjective.

Section FlatObjectiveOfEvolve.

Context {RE : RandomEngine}.

(** On a constant objective every re-evaluated population is flat. *)
Lemma sampled_flat (dim : nat) (lb ub : list R) (a : xnes) (pop : population)
      (c : R) :
  constant_objective (get_problem pop) c ->
  (1 <= size pop)%nat -> length (get_f pop) = size pop ->
  flatness_f (snd (fst (sampled dim (size pop) lb ub a pop))) = 0.
Proof.
  intros Hconst Hlam Hlen.
  pose proof (sampled_fitness_consistent dim lb ub a pop Hlen) as Hfc.
  pose proof (sampled_frame dim lb ub (size pop) a pop) as Hfr.
  cbv zeta in Hfr. destruct Hfr as (Hd & _ & _ & Hsz & Hl).
  set (pop1 := snd (fst (sampled dim (size pop) lb ub a pop))) in *.
  assert (Hf0 : forall i, (i < size pop1)%nat -> f0 pop1 i = c).
  { intros i Hi. unfold f0. rewrite (Hfc i Hi).
    destruct Hd as (_ & _ & _ & _ & _ & _ & Hfit).
    rewrite <- Hfit, Hconst. reflexivity. }
  unfold flatness_f.
  rewrite (Hf0 (best_idx pop1)), (Hf0 (worst_idx pop1)).
  - rewrite Rminus_diag. apply Rabs_R0.
  - rewrite Hsz, <- Hlen, <- Hl. apply worst_idx_bound. lia.
  - rewrite Hsz, <- Hlen, <- Hl. apply best_idx_bound. lia.
Qed.

Lemma flat_objective_exit (a : xnes) (pop : population) (c : R) :
  check_problem pop = None -> (10 <= m_gen a)%nat -> 0 < m_ftol a ->
  constant_objective (get_problem pop) c ->
  length (get_f pop) = size pop ->
  exists how pop',
    snd (evolve_run a pop) = inr (how, pop') /\
    (how = exit_xtol 10 \/ how = exit_ftol 10) /\
    get_fevals (get_problem pop')
    = (get_fevals (get_problem pop) + size pop * 10)%nat.
Proof.
  intros Hc Hgen Hftol Hconst Hlen.
  assert (Hg : m_gen a <> O) by lia.
  assert (Hlam : (4 <= size pop)%nat) by (now apply check_problem_none in Hc).
  rewrite (evolve_run_accepted a pop Hc Hg). cbn [snd].
  exists (fst (fst (evolve_loop a pop))), (snd (evolve_loop a pop)).
  split; [reflexivity|].
  assert (Hhow : fst (fst (evolve_loop a pop)) = exit_xtol 10 \/
                 fst (fst (evolve_loop a pop)) = exit_ftol 10).
  { unfold evolve_loop.
    replace (m_gen a) with (9 + S (m_gen a - 10))%nat by lia.
    match goal with
    | |- context [generations (9 + ?n) ?d ?l ?lb ?ub ?u ?r ?f 1 ?a0 ?p] =>
        destruct (generations_before_check d l lb ub u r f 9 n 1 a0 p)
          as (a9 & pop9 & He & Hcfg & Hd & Hsz & Hl)
    end.
    { intros j Hj.
      do 9 (destruct j as [|j]; [cbn; discriminate|]). lia. }
    rewrite He. cbn [Nat.add generations].
    assert (Hstop : fst (fst (generation (get_nx (get_problem pop))
                     (size pop) (get_lb (get_problem pop))
                     (get_ub (get_problem pop)) (utilities (size pop))
                     (learning_rates a (get_nx (get_problem pop)))
                     (get_fevals (get_problem pop)) 10 a9 pop9)) <> None).
    { apply generation_stops_iff. split; [reflexivity|]. right.
      rewrite <- Hsz.
      rewrite (sampled_flat _ _ _ a9 pop9 c).
      - pose proof (reset_or_retain_config (set_log [] a) pop) as H0.
        unfold same_config in Hcfg, H0.
        decompose [and] Hcfg. decompose [and] H0.
        cbn [m_ftol set_log] in *. congruence.
      - intros s x. destruct Hd as (_ & _ & _ & _ & _ & _ & Hfit).
        rewrite <- Hfit. apply Hconst.
      - lia.
      - congruence. }
    destruct (generation (get_nx (get_problem pop)) (size pop)
                (get_lb (get_problem pop)) (get_ub (get_problem pop))
                (utilities (size pop))
                (learning_rates a (get_nx (get_problem pop)))
                (get_fevals (get_problem pop)) 10 a9 pop9)
      as [[[[|]|] a10] pop10]; cbn [fst snd] in *; auto.
    congruence. }
  split; [exact Hhow|].
  unfold evolve_loop in *.
  match goal with
  | |- context [generations ?n ?d ?l ?lb ?ub ?u ?r ?f ?g ?a0 ?p] =>
      pose proof (generations_frame d lb ub n l u r f g a0 p) as H
  end.
  cbv zeta in H. destruct H as (_ & _ & Hf & _). rewrite Hf.
  destruct Hhow as [-> | ->]; reflexivity.
Qed.

(** X20.  On a problem whose objective is constant, the population
    sampled in any generation has a fitness gap of zero; hence a call
    with a budget of ten generations or more and a positive [ftol] returns
    at generation 10, the first at which the exit conditions are looked
    at, after [10 * lam] evaluations. *)
Theorem evolve_flat_objective_stops_at_ten
        (a : xnes) (pop : population) (c : R) :
  check_problem pop = None -> (10 <= m_gen a)%nat -> 0 < m_ftol a ->
  constant_objective (get_problem pop) c ->
  length (get_f pop) = size pop ->
  exists how pop',
    snd (evolve_run a pop) = inr (how, pop') /\
    (how = exit_xtol 10 \/ how = exit_ftol 10) /\
    get_fevals (get_problem pop')
    = (get_fevals (get_problem pop) + size pop * 10)%nat.
Proof. exact (flat_objective_exit a pop c). Qed.

End FlatObjectiveOfEvolve.

(* ================================================================== *)
(** ** Dimension one *)
(* ================================================================== *)

Lemma length_one (v : list R) : length v = 1%nat -> exists x, v = [x].
Proof.
  destruct v as [|x [|y v]]; cbn; intros H; try discriminate. eauto.
Qed.

Lemma fold_madd_1x1 (t : nat -> list (list R)) (l : list nat) (c : R) :
  (forall i, In i l -> exists x, t i = [[x]]) ->
  exists c', fold_left (fun acc i => madd acc (t i)) l [[c]] = [[c']].
Proof.
  revert c. induction l as [|i l IH]; intros c Ht; cbn [fold_left].
  - eauto.
  - destruct (Ht i (or_introl eq_refl)) as [x ->]. cbn [madd vadd].
    apply IH. intros k Hk. apply Ht. now right.
Qed.

Section DimensionOne.

Context {RE : RandomEngine}.

Lemma cov_term_1x1 (u : list R) (z : list (list R)) (s_idx : list nat)
      (i : nat) :
  length (nth (nth i s_idx O) z []) = 1%nat ->
  exists x, cov_term (identity 1) u z s_idx i = [[x]].
Proof.
  intros Hz. apply length_one in Hz. destruct Hz as [zi Hz].
  unfold cov_term. rewrite Hz. cbn. eauto.
Qed.

(** In dimension one the update multiplies the entry of [A] and [sigma]
    by the same factor. *)
Lemma update_distribution_1x1 (u : list R) (rates : R * R * R)
      (z : list (list R)) (s_idx : list nat) (a : xnes) (x : R) :
  (forall i, (i < Nat.max 1 (length u))%nat ->
             length (nth (nth i s_idx O) z []) = 1%nat) ->
  A a = [[x]] ->
  exists c,
    A (update_distribution 1 u rates z s_idx a) = [[x * c]] /\
    sigma (update_distribution 1 u rates z s_idx a) = sigma a * c.
Proof.
  intros Hz HA. destruct rates as [[eta_mu eta_sigma] eta_b].
  unfold update_distribution. cbn [A sigma set_memory]. rewrite HA.
  assert (Hcov : exists t, cov_grad_of (identity 1) u z s_idx = [[t]]).
  { unfold cov_grad_of.
    destruct (cov_term_1x1 u z s_idx 0) as [t0 Ht0]; [apply Hz; lia|].
    rewrite Ht0. apply fold_madd_1x1.
    intros i Hi. apply in_seq in Hi. apply cov_term_1x1, Hz. lia. }
  destruct Hcov as [t Ht]. rewrite Ht.
  exists (exp (eta_sigma / 2 * t)).
  cbn [identity seq map Nat.eqb trace length mat_get nth fold_right INR
       mscale vscale msub vsub madd vadd].
  rewrite mexp_1x1. unfold mat_mul, ncols, col. cbn [hd length seq map dot nth].
  split.
  - rewrite Rplus_0_r.
    replace (0.5 * (eta_sigma * (t + 0) / 1 * 1
                    + eta_b * (t - (t + 0) / 1 * 1)))
      with (eta_sigma / 2 * t) by (unfold Rdiv; rewrite Rinv_1; nra).
    reflexivity.
  - replace (eta_sigma / 2 * (t + 0) / 1) with (eta_sigma / 2 * t) by field.
    reflexivity.
Qed.

Variables (lb ub : list R) (rates : R * R * R) (fevals0 : nat) (w : R).

(** [A] is the one by one matrix [(w sigma)]. *)
Let scaled (a : xnes) : Prop := A a = [[w * sigma a]].

Lemma generation_scaled (gen : nat) (a : xnes) (pop : population) :
  (1 <= size pop)%nat -> scaled a ->
  scaled (snd (fst (generation 1 (size pop) lb ub (utilities (size pop))
                               rates fevals0 gen a pop))).
Proof.
  intros Hlam Hs. unfold generation.
  destruct (sampled 1 (size pop) lb ub a pop) as [[z pop1] e1] eqn:Es.
  destruct (check_exit (set_engine e1 a) gen z pop1); cbn [fst snd].
  - exact Hs.
  - destruct (log_generation_memory (set_engine e1 a) fevals0 gen z pop1)
      as (_ & HA & Hsig).
    destruct (update_distribution_1x1 (utilities (size pop)) rates z
                (sort_indices pop1 (size pop))
                (log_generation (set_engine e1 a) fevals0 gen z pop1)
                (w * sigma a)) as (c & HA' & Hs').
    + intros i Hi. rewrite utilities_length in Hi.
      replace z with (fst (fst (sampled 1 (size pop) lb ub a pop)))
        by (now rewrite Es).
      apply sampled_noise_length. apply sort_indices_range. lia.
    + rewrite HA. exact Hs.
    + unfold scaled. rewrite HA', Hs', Hsig. cbn [sigma set_engine].
      do 2 f_equal. ring.
Qed.

Lemma generations_scaled (n gen : nat) (a : xnes) (pop : population) :
  (1 <= size pop)%nat -> scaled a ->
  scaled (snd (fst (generations n 1 (size pop) lb ub (utilities (size pop))
                                rates fevals0 gen a pop))).
Proof.
  revert gen a pop. induction n as [|n IH]; intros gen a pop Hlam Hs.
  - exact Hs.
  - cbn [generations].
    pose proof (generation_scaled gen a pop Hlam Hs) as Hg.
    pose proof (generation_population 1 lb ub (size pop)
                  (utilities (size pop)) rates fevals0 gen a pop) as Hp.
    pose proof (sampled_size 1 lb ub a pop) as Hsz.
    rewrite <- Hp in Hsz.
    destruct (generation 1 (size pop) lb ub (utilities (size pop))
                rates fevals0 gen a pop) as [[[why|] a1] pop1];
      cbn [fst snd] in *.
    + destruct why; exact Hg.
    + rewrite <- Hsz. apply IH; [lia | exact Hg].
Qed.

End DimensionOne.

Section DimensionOneOfEvolve.

Context {RE : RandomEngine}.

(** X21.  On a problem of dimension one, a call that erases the memory
    and runs its loop leaves [A] equal to the clamped width of the box
    times the step size it leaves: [A = max(ub - lb, 1e-6) * sigma].  The
    [sigma] kept for reporting is then the scale of the search in units
    of the box width, and the rate [eta_b] plays no part. *)
Theorem evolve_one_dimension_scale (a : xnes) (pop : population) :
  check_problem pop = None -> m_gen a <> O ->
  get_nx (get_problem pop) = 1%nat ->
  m_memory a = false \/ length (mean a) <> 1%nat ->
  let prob := get_problem pop in
  let a' := fst (evolve a pop) in
  A a' = [[ Rmax (nth 0 (get_ub prob) 0 - nth 0 (get_lb prob) 0) 1e-6
            * sigma a' ]].
Proof.
  intros Hc Hg Hdim Herase prob a'.
  assert (Hlam : (4 <= size pop)%nat) by (now apply check_problem_none in Hc).
  unfold a'. rewrite evolve_of_run, (evolve_run_accepted a pop Hc Hg).
  cbn [fst]. unfold evolve_loop. rewrite Hdim.
  apply generations_scaled; [lia|].
  rewrite (reset_or_retain_erases (set_log [] a) pop)
    by (rewrite Hdim; exact Herase).
  cbv zeta. cbn [A sigma set_memory]. rewrite Hdim. reflexivity.
Qed.

End DimensionOneOfEvolve.

(* ================================================================== *)
(** ** Seeding *)
(* ================================================================== *)

Section Seeding.

Context {RE : RandomEngine}.

Lemma evolve_loop_reseeded (a b : xnes) (pop : population) (seed : nat) :
  same_config a b -> m_memory a = false ->
  evolve_loop (set_seed seed b) pop = evolve_loop (set_seed seed a) pop.
Proof.
  intros Hcfg Hm. unfold same_config in Hcfg. decompose [and] Hcfg.
  assert (Hmb : m_memory b = false) by congruence.
  unfold evolve_loop.
  change (m_gen (set_seed seed b)) with (m_gen b).
  change (m_gen (set_seed seed a)) with (m_gen a).
  change (learning_rates (set_seed seed b)) with (learning_rates a).
  change (learning_rates (set_seed seed a)) with (learning_rates a).
  rewrite (reset_or_retain_erases (set_log [] (set_seed seed b)) pop)
    by (left; exact Hmb).
  rewrite (reset_or_retain_erases (set_log [] (set_seed seed a)) pop)
    by (left; exact Hm).
  cbv zeta. unfold set_memory, set_log, set_seed.
  cbn [m_gen m_eta_mu m_eta_sigma m_eta_b m_sigma0 m_ftol m_xtol m_memory
       sigma mean A m_e m_seed m_verbosity m_log].
  repeat match goal with
         | H : _ a = _ b |- _ => rewrite <- H; clear H
         end.
  reflexivity.
Qed.

(** X22.  With memory retention disabled, setting the seed makes a call
    reproducible whatever the instance went through before: after any
    earlier call, [set_seed] followed by [evolve] raises the same
    exception or returns the same population, and leaves the same
    instance after a call that ran its loop, as on the instance that was
    seeded before that earlier call. *)
Theorem set_seed_makes_evolve_reproducible
        (a : xnes) (earlier pop : population) (seed : nat) :
  m_memory a = false ->
  let b := fst (evolve a earlier) in
  snd (evolve (set_seed seed b) pop) = snd (evolve (set_seed seed a) pop) /\
  get_seed (set_seed seed b) = seed /\
  (check_problem pop = None -> m_gen a <> O ->
   evolve (set_seed seed b) pop = evolve (set_seed seed a) pop).
Proof.
  intros Hm b.
  pose proof (evolve_config a earlier) as Hcfg. fold b in Hcfg.
  pose proof (evolve_loop_reseeded a b pop seed Hcfg Hm) as Hloop.
  assert (Hgen : m_gen b = m_gen a).
  { unfold same_config in Hcfg. decompose [and] Hcfg. congruence. }
  assert (Hall : snd (evolve (set_seed seed b) pop)
                 = snd (evolve (set_seed seed a) pop) /\
                 (check_problem pop = None -> m_gen a <> O ->
                  evolve (set_seed seed b) pop
                  = evolve (set_seed seed a) pop)).
  { rewrite !evolve_of_run.
    destruct (check_problem pop) as [ex|] eqn:Hc.
    - rewrite !(evolve_run_rejected _ pop ex Hc).
      split; [reflexivity | discriminate].
    - destruct (Nat.eq_dec (m_gen a) 0) as [Hg|Hg].
      + rewrite (evolve_run_nothing_to_do (set_seed seed b) pop Hc)
          by (cbn [m_gen set_seed]; congruence).
        rewrite (evolve_run_nothing_to_do (set_seed seed a) pop Hc)
          by exact Hg.
        split; [reflexivity | contradiction].
      + rewrite (evolve_run_accepted (set_seed seed b) pop Hc)
          by (cbn [m_gen set_seed]; congruence).
        rewrite (evolve_run_accepted (set_seed seed a) pop Hc) by exact Hg.
        rewrite Hloop. split; reflexivity. }
  destruct Hall as [H1 H2].
  split; [exact H1|]. split; [reflexivity | exact H2].
Qed.

End Seeding.

(* ================================================================== *)
(** ** The properties on the concrete setting *)
(* ================================================================== *)

Lemma default_xnes_reachable (gen : nat) (memory : bool) :
  reachable (default_xnes gen memory).
Proof.
  exact (reach_construct _ _ _ _ _ _ _ _ _ _
           (default_xnes_constructed gen memory)).
Qed.

Lemma evolve_keeps_problem_and_size_witness :
  let a := default_xnes 3 false in
  let pop := population_of (sphere 1) five_points in
  check_problem pop = None /\
  exists pop', snd (evolve a pop) = inr pop' /\ size pop' = 5%nat.
Proof.
  intros a pop.
  assert (Hc : check_problem pop = None) by reflexivity.
  split; [exact Hc|].
  destruct (evolve_keeps_problem_and_size a pop Hc)
    as (pop' & He & _ & Hsz & _).
  exists pop'. split; [exact He | exact Hsz].
Defined.

Lemma evolve_counts_evaluations_witness :
  let a := default_xnes 3 false in
  let pop := population_of (sphere 1) five_points in
  check_problem pop = None /\
  exists how pop',
    snd (evolve_run a pop) = inr (how, pop') /\
    get_fevals (get_problem pop')
    = (0 + 5 * sampled_generations how 3)%nat.
Proof.
  intros a pop.
  assert (Hc : check_problem pop = None) by reflexivity.
  split; [exact Hc|].
  destruct (evolve_counts_evaluations a pop Hc)
    as (how & pop' & Hr & _ & Hf & _).
  exists how, pop'. split; [exact Hr | exact Hf].
Defined.

Lemma evolve_returns_evaluated_population_witness :
  let a := default_xnes 3 false in
  let pop := population_of (sphere 1) five_points in
  check_problem pop = None /\ m_gen a <> O /\
  length (get_f pop) = size pop /\
  exists pop', snd (evolve a pop) = inr pop' /\ fitness_consistent pop'.
Proof.
  intros a pop.
  assert (Hc : check_problem pop = None) by reflexivity.
  assert (Hg : m_gen a <> O) by discriminate.
  assert (Hl : length (get_f pop) = size pop) by reflexivity.
  split; [exact Hc|]. split; [exact Hg|]. split; [exact Hl|].
  exact (evolve_returns_evaluated_population a pop Hc Hg Hl).
Defined.

Lemma evolve_returns_population_inside_box_witness :
  let a := default_xnes 3 false in
  let pop := population_of (sphere 1) five_points in
  reachable a /\ bounds_ordered 1 [-5] [5] /\
  check_problem pop = None /\ m_gen a <> O /\
  exists pop',
    snd (evolve a pop) = inr pop' /\
    forall i, (i < 5)%nat -> -5 <= nth 0 (nth i (get_x pop') []) 0 <= 5.
Proof.
  intros a pop.
  assert (Hr : reachable a) by apply default_xnes_reachable.
  assert (Hb : bounds_ordered 1 [-5] [5]) by exact (sphere_bounds_ordered 1).
  assert (Hc : check_problem pop = None) by reflexivity.
  assert (Hg : m_gen a <> O) by discriminate.
  split; [exact Hr|]. split; [exact Hb|]. split; [exact Hc|].
  split; [exact Hg|].
  destruct (evolve_returns_population_inside_box a pop Hr Hb Hc Hg)
    as (pop' & He & _ & Hin).
  exists pop'. split; [exact He|].
  intros i Hi. exact (Hin i O Hi Nat.lt_0_1).
Defined.

Lemma evolve_log_generations_witness :
  let a := set_verbosity 1 (default_xnes 3 false) in
  let pop := population_of (sphere 1) five_points in
  check_problem pop = None /\ m_gen a <> O /\ m_verbosity a = 1%nat /\
  map log_gen (get_log (fst (evolve a pop))) = [1; 2; 3]%nat.
Proof.
  intros a pop.
  assert (Hc : check_problem pop = None) by reflexivity.
  assert (Hg : m_gen a <> O) by discriminate.
  split; [exact Hc|]. split; [exact Hg|]. split; [reflexivity|].
  pose proof (evolve_log_generations a pop Hc Hg) as H. cbv zeta in H.
  destruct H as (Hrun & _ & _ & Hone).
  destruct (Hone eq_refl) as [Hgens _]. rewrite Hgens.
  assert (Hhow : fst (fst (evolve_loop a pop)) = exit_generations).
  { destruct (fst (fst (evolve_loop a pop))) as [|g|g] eqn:E;
      [reflexivity | exfalso | exfalso];
      unfold evolve_loop in E;
      match type of E with
      | fst (fst (generations ?n ?d ?l ?lb ?ub ?u ?r ?f ?g0 ?a0 ?p)) = _ =>
          pose proof (generations_exit_generation d l lb ub u r f n g0 a0 p g)
            as Hex
      end;
      rewrite E in Hex.
    - destruct (Hex (or_introl eq_refl)) as [Hm Hrange].
      cbn [m_gen a set_verbosity default_xnes] in Hrange.
      rewrite Nat.mod_small in Hm by lia. lia.
    - destruct (Hex (or_intror eq_refl)) as [Hm Hrange].
      cbn [m_gen a set_verbosity default_xnes] in Hrange.
      rewrite Nat.mod_small in Hm by lia. lia. }
  rewrite Hhow. reflexivity.
Defined.

Lemma evolve_log_counts_evaluations_witness :
  let a := set_verbosity 1 (default_xnes 3 false) in
  let pop := population_of (sphere 1) five_points in
  check_problem pop = None /\ m_gen a <> O /\
  Forall (fun line => log_fevals line = (5 * log_gen line)%nat)
         (get_log (fst (evolve a pop))).
Proof.
  intros a pop.
  assert (Hc : check_problem pop = None) by reflexivity.
  assert (Hg : m_gen a <> O) by discriminate.
  split; [exact Hc|]. split; [exact Hg|].
  eapply Forall_impl; [|exact (evolve_log_counts_evaluations a pop Hc Hg)].
  cbv beta. intros line H. exact (proj1 H).
Defined.

Lemma evolve_short_budget_runs_out_witness :
  let a := default_xnes 9 false in
  let pop := population_of (sphere 1) five_points in
  check_problem pop = None /\ (m_gen a < 10)%nat /\
  exists pop', snd (evolve_run a pop) = inr (exit_generations, pop').
Proof.
  intros a pop.
  assert (Hc : check_problem pop = None) by reflexivity.
  assert (Hg : (m_gen a < 10)%nat) by (cbn; lia).
  split; [exact Hc|]. split; [exact Hg|].
  exact (evolve_short_budget_runs_out a pop Hc Hg).
Defined.

Lemma evolve_nonpositive_tolerances_run_out_witness :
  let a := strict_xnes 30 in
  let pop := population_of (sphere 1) five_points in
  check_problem pop = None /\ m_xtol a <= 0 /\ m_ftol a <= 0 /\
  exists pop', snd (evolve_run a pop) = inr (exit_generations, pop').
Proof.
  intros a pop.
  assert (Hc : check_problem pop = None) by reflexivity.
  assert (Hx : m_xtol a <= 0) by (cbn; lra).
  assert (Hf : m_ftol a <= 0) by (cbn; lra).
  split; [exact Hc|]. split; [exact Hx|]. split; [exact Hf|].
  exact (evolve_nonpositive_tolerances_run_out a pop Hc Hx Hf).
Defined.

Lemma plateau_constant (D : nat) : constant_objective (plateau D) 0.
Proof. intros s x. reflexivity. Qed.

Lemma evolve_flat_objective_stops_at_ten_witness :
  let a := default_xnes 25 false in
  let pop := population_of (plateau 1) five_points in
  check_problem pop = None /\ (10 <= m_gen a)%nat /\ 0 < m_ftol a /\
  constant_objective (get_problem pop) 0 /\
  length (get_f pop) = size pop /\
  exists how pop',
    snd (evolve_run a pop) = inr (how, pop') /\
    (how = exit_xtol 10 \/ how = exit_ftol 10) /\
    get_fevals (get_problem pop') = 50%nat.
Proof.
  intros a pop.
  assert (Hc : check_problem pop = None) by reflexivity.
  assert (Hg : (10 <= m_gen a)%nat) by (cbn; lia).
  assert (Hf : 0 < m_ftol a) by (cbn; lra).
  assert (Hk : constant_objective (get_problem pop) 0)
    by exact (plateau_constant 1).
  assert (Hl : length (get_f pop) = size pop) by reflexivity.
  split; [exact Hc|]. split; [exact Hg|]. split; [exact Hf|].
  split; [exact Hk|]. split; [exact Hl|].
  exact (evolve_flat_objective_stops_at_ten a pop 0 Hc Hg Hf Hk Hl).
Defined.

Lemma evolve_early_exit_state_witness :
  let a := default_xnes 25 false in
  let pop := population_of (plateau 1) five_points in
  let how := fst (fst (evolve_loop a pop)) in
  check_problem pop = None /\ m_gen a <> O /\
  (how = exit_xtol 10 \/ how = exit_ftol 10) /\
  exists ag, m_log (fst (evolve a pop)) = m_log ag /\
             sigma (fst (evolve a pop)) = sigma ag.
Proof.
  intros a pop how.
  assert (Hc : check_problem pop = None) by reflexivity.
  assert (Hg : m_gen a <> O) by discriminate.
  assert (Hhow : how = exit_xtol 10 \/ how = exit_ftol 10).
  { destruct (flat_objective_exit a pop 0 Hc) as (h & p' & Hr & Hh & _).
    - cbn; lia.
    - cbn; lra.
    - exact (plateau_constant 1).
    - reflexivity.
    - rewrite (evolve_run_accepted a pop Hc Hg) in Hr. cbn [snd] in Hr.
      injection Hr as Hh' _. unfold how. rewrite Hh'. exact Hh. }
  split; [exact Hc|]. split; [exact Hg|]. split; [exact Hhow|].
  destruct (evolve_early_exit_state a pop 10 Hc Hg Hhow)
    as (ag & popg & _ & _ & _ & Hs & Hl & _).
  exists ag. split; [exact Hl | exact Hs].
Defined.

Lemma evolve_without_memory_forgets_witness :
  let a := default_xnes 3 false in
  let pop := population_of (sphere 1) five_points in
  m_memory a = false /\
  snd (evolve (set_memory 7 [1; 2] [[1; 0]; [0; 1]] a) pop)
  = snd (evolve a pop).
Proof.
  intros a pop.
  assert (Hm : m_memory a = false) by reflexivity.
  split; [exact Hm|].
  exact (proj1 (evolve_without_memory_forgets a pop 7 [1; 2]
                  [[1; 0]; [0; 1]] Hm)).
Defined.

Lemma evolve_sigma_keeps_sign_witness :
  let a := default_xnes 3 false in
  let pop := population_of (sphere 1) five_points in
  reachable a /\ check_problem pop = None /\ m_gen a <> O /\
  0 < sigma (fst (evolve a pop)).
Proof.
  intros a pop.
  assert (Hr : reachable a) by apply default_xnes_reachable.
  assert (Hc : check_problem pop = None) by reflexivity.
  assert (Hg : m_gen a <> O) by discriminate.
  split; [exact Hr|]. split; [exact Hc|]. split; [exact Hg|].
  exact (proj1 (evolve_sigma_keeps_sign a pop Hr Hc Hg) (or_introl eq_refl)).
Defined.

Lemma memory_is_square_witness :
  let a := default_xnes 3 true in
  let pop := population_of (sphere 2) [[1; 1]; [2; 0]; [0; 3]; [-1; 1]] in
  reachable a /\ check_problem pop = None /\ m_gen a <> O /\
  is_matrix 2 2 (A (fst (evolve a pop))).
Proof.
  intros a pop.
  assert (Hr : reachable a) by apply default_xnes_reachable.
  assert (Hc : check_problem pop = None) by reflexivity.
  assert (Hg : m_gen a <> O) by discriminate.
  split; [exact Hr|]. split; [exact Hc|]. split; [exact Hg|].
  exact (proj2 (proj2 (memory_is_square a Hr) pop Hc Hg)).
Defined.

Lemma evolve_one_dimension_scale_witness :
  let a := default_xnes 3 false in
  let pop := population_of (sphere 1) five_points in
  check_problem pop = None /\ m_gen a <> O /\
  get_nx (get_problem pop) = 1%nat /\ m_memory a = false /\
  A (fst (evolve a pop))
  = [[ Rmax (5 - -5) 1e-6 * sigma (fst (evolve a pop)) ]].
Proof.
  intros a pop.
  assert (Hc : check_problem pop = None) by reflexivity.
  assert (Hg : m_gen a <> O) by discriminate.
  split; [exact Hc|]. split; [exact Hg|]. split; [reflexivity|].
  split; [reflexivity|].
  exact (evolve_one_dimension_scale a pop Hc Hg eq_refl (or_introl eq_refl)).
Defined.

Lemma set_seed_makes_evolve_reproducible_witness :
  let a := default_xnes 3 false in
  let pop := population_of (sphere 1) five_points in
  let b := fst (evolve a pop) in
  m_memory a = false /\
  snd (evolve (set_seed 42 b) pop) = snd (evolve (set_seed 42 a) pop).
Proof.
  intros a pop b.
  assert (Hm : m_memory a = false) by reflexivity.
  split; [exact Hm|].
  exact (proj1 (set_seed_makes_evolve_reproducible a pop pop 42 Hm)).
Defined.
